(** * Incident Command platform: the local record store and the heuristic
      generators, embedded from [src/api/localDb.js] and the client module
      that defines [clamp01], [buildAnalysisFromIncident],
      [buildAutomationForIncident] and [functions.invoke]; with them the
      meta store of [localDb.js], the local identity [auth] and the
      stand-in [integrations.Core.InvokeLLM] of the client module, and
      the prompt of [src/pages/CreateIncident.jsx].

    Conventions of the embedding.
    - A JavaScript value is a [value]; a plain object used as a map from
      field names to values is a [gmap string value]; arrays are lists.
    - Numbers are IEEE-754 binary64, Rocq's primitive [float].
    - Strings are sequences of 8-bit characters; [toLowerCase] and the
      comparison of strings act on them as JavaScript does on ASCII text.
    - Effects ([new Date()], [crypto.randomUUID()], the in-memory tables)
      are threaded through the state monad [M] over a [world].
    - [memory.db.tables] is a plain object: a table name that it does not
      hold but inherits from [Object.prototype] reads as the inherited
      value, which is no array.
    - Where JavaScript would coerce through a conversion that is not
      embedded here (number to string, string to number, identity of
      array and object references), the embedding answers [None] /
      [Beyond] instead of inventing a result. *)

From Stdlib Require Import ZArith Floats Lia Ascii String Sorting.Sorted
  Sorting.Permutation Structures.OrderedTypeEx.
From stdpp Require Import gmap strings list fin_maps.

#[local] Set Warnings "-inexact-float,-register-all,-clear-no-such-hyp".
#[local] Open Scope Z_scope.

(** ** JavaScript values and the operators the sources use *)

Module Js.

Inductive value :=
| VUndef
| VNull
| VBool (b : bool)
| VNum (f : float)
| VStr (s : string)
| VArr (l : list value)
| VObj (fs : gmap string value).

Abbreviation object := (gmap string value).

(** [o[k]] and [o.k]: a missing property reads as [undefined]. *)
Definition get (o : object) (k : string) : value := default VUndef (o !! k).

(** [{ ...a, ...b }]: the later spread wins. *)
Definition spread (a b : object) : object := b ∪ a.

(** ToBoolean. *)
Definition truthy (v : value) : bool :=
  match v with
  | VUndef | VNull => false
  | VBool b => b
  | VNum f => negb (PrimFloat.is_nan f || PrimFloat.is_zero f)
  | VStr s => negb (String.eqb s "")
  | VArr _ | VObj _ => true
  end.

(** [v === "s"] for a string literal. *)
Definition is_str (v : value) (s : string) : bool :=
  match v with VStr x => String.eqb x s | _ => false end.

Definition is_composite (v : value) : bool :=
  match v with VArr _ | VObj _ => true | _ => false end.

(** [a === b].  Two arrays or objects are compared by reference, which a
    tree of values does not record: [None]. *)
Definition strict_eq (a b : value) : option bool :=
  match a, b with
  | VUndef, VUndef | VNull, VNull => Some true
  | VBool x, VBool y => Some (Bool.eqb x y)
  | VNum x, VNum y => Some (PrimFloat.eqb x y)
  | VStr x, VStr y => Some (String.eqb x y)
  | (VArr _ | VObj _), (VArr _ | VObj _) => None
  | _, _ => Some false
  end.

(** SameValueZero, the equality of [Array.prototype.includes]. *)
Definition same_value_zero (a b : value) : option bool :=
  match a, b with
  | VNum x, VNum y =>
      Some (PrimFloat.eqb x y || (PrimFloat.is_nan x && PrimFloat.is_nan y))
  | _, _ => strict_eq a b
  end.

(** ToNumber on the primitives whose conversion needs no parsing. *)
Definition to_number (v : value) : option float :=
  match v with
  | VUndef => Some PrimFloat.nan
  | VNull => Some PrimFloat.zero
  | VBool b => Some (if b then PrimFloat.one else PrimFloat.zero)
  | VNum f => Some f
  | VStr _ | VArr _ | VObj _ => None
  end.

(** [a > b]: two strings compare by code units; an [undefined] operand
    makes the comparison false whatever the other operand is; otherwise
    both sides go through ToNumber. *)
Definition gt (a b : value) : option bool :=
  match a, b with
  | VStr x, VStr y => Some (String.ltb y x)
  | VUndef, _ | _, VUndef => Some false
  | _, _ =>
      x ← to_number a; y ← to_number b; Some (PrimFloat.ltb y x)
  end.

(** [Math.min] and [Math.max] on two arguments. *)
Definition is_neg_zero (f : float) : bool :=
  match PrimFloat.classify f with NZero => true | _ => false end.

Definition math_min (a b : float) : float :=
  if PrimFloat.is_nan a || PrimFloat.is_nan b then PrimFloat.nan
  else if PrimFloat.ltb a b then a
  else if PrimFloat.ltb b a then b
  else if is_neg_zero a then a else b.

Definition math_max (a b : float) : float :=
  if PrimFloat.is_nan a || PrimFloat.is_nan b then PrimFloat.nan
  else if PrimFloat.ltb b a then a
  else if PrimFloat.ltb a b then b
  else if is_neg_zero a then b else a.

(** *** Strings *)

Definition lower_ascii (c : ascii) : ascii :=
  let n := nat_of_ascii c in
  if ((65 <=? n) && (n <=? 90))%nat then ascii_of_nat (n + 32) else c.

Fixpoint toLowerCase (s : string) : string :=
  match s with
  | EmptyString => EmptyString
  | String c s' => String (lower_ascii c) (toLowerCase s')
  end.

Definition upper_ascii (c : ascii) : ascii :=
  let n := nat_of_ascii c in
  if ((97 <=? n) && (n <=? 122))%nat then ascii_of_nat (n - 32) else c.

Fixpoint toUpperCase (s : string) : string :=
  match s with
  | EmptyString => EmptyString
  | String c s' => String (upper_ascii c) (toUpperCase s')
  end.

(** [hay.includes(needle)]. *)
Fixpoint includes (hay needle : string) : bool :=
  String.prefix needle hay ||
  match hay with
  | EmptyString => false
  | String _ hay' => includes hay' needle
  end.

(** [xs.join(sep)] on an array of strings. *)
Fixpoint join (sep : string) (xs : list string) : string :=
  match xs with
  | [] => ""
  | [x] => x
  | x :: xs' => x +:+ sep +:+ join sep xs'
  end.

(** The class [\w] of regular expressions. *)
Definition is_word_char (c : ascii) : bool :=
  let n := nat_of_ascii c in
  (((48 <=? n) && (n <=? 57)) || ((65 <=? n) && (n <=? 90)) ||
   ((97 <=? n) && (n <=? 122)) || (n =? 95))%nat.

(** [s.split(/\W+/).filter(Boolean)]: the maximal runs of word characters,
    left to right.  [cur] is the run being read, reversed. *)
Fixpoint words_from (cur : list ascii) (s : string) : list string :=
  let flush rest :=
    match cur with
    | [] => rest
    | _ => string_of_list_ascii (rev cur) :: rest
    end in
  match s with
  | EmptyString => flush []
  | String c s' =>
      if is_word_char c then words_from (c :: cur) s'
      else flush (words_from [] s')
  end.

Definition words (s : string) : list string := words_from [] s.

(** [xs.slice(0, n)] for an integral [n]: a negative end counts from the
    end of the array. *)
Definition slice0 {A} (n : Z) (xs : list A) : list A :=
  if 0 <=? n then take (Z.to_nat n) xs
  else take (Z.to_nat (Z.of_nat (length xs) + n)) xs.

(** *** [Array.prototype.sort]

    ECMAScript fixes the result of [sort] for a consistent comparator: a
    stable arrangement in comparator order; for an inconsistent one the
    order is left to the engine.  The embedding is the stable insertion
    sort, which is the specified result in the first case and one
    admissible engine in the second; the comparator answers with the sign
    of the number it returns, or [None] where its computation leaves the
    embedded fragment. *)

Section Sort.
Context {A : Type} (cmp : A → A → option comparison).

Fixpoint insert_sorted (x : A) (l : list A) : option (list A) :=
  match l with
  | [] => Some [x]
  | y :: l' =>
      c ← cmp x y;
      match c with
      | Gt => l'' ← insert_sorted x l'; Some (y :: l'')
      | _ => Some (x :: l)
      end
  end.

Fixpoint array_sort (l : list A) : option (list A) :=
  match l with
  | [] => Some []
  | x :: l' => s ← array_sort l'; insert_sorted x s
  end.

End Sort.

(** [xs.every(p)], [xs.some(p)], [xs.filter(p)] and [xs.findIndex(p)]
    for a callback that may leave the embedded fragment. *)
Fixpoint every {A} (p : A → option bool) (l : list A) : option bool :=
  match l with
  | [] => Some true
  | x :: l' => b ← p x; if b : bool then every p l' else Some false
  end.

Fixpoint some {A} (p : A → option bool) (l : list A) : option bool :=
  match l with
  | [] => Some false
  | x :: l' => b ← p x; if b : bool then Some true else some p l'
  end.

Fixpoint filter_by {A} (p : A → option bool) (l : list A) : option (list A) :=
  match l with
  | [] => Some []
  | x :: l' =>
      b ← p x; r ← filter_by p l';
      Some (if b : bool then x :: r else r)
  end.

Fixpoint findIndex {A} (p : A → option bool) (l : list A) : option (option nat) :=
  match l with
  | [] => Some None
  | x :: l' =>
      b ← p x;
      if b : bool then Some (Some O)
      else i ← findIndex p l'; Some (option_map S i)
  end.

(** *** [Date.prototype.toISOString] on a time value in milliseconds *)

Fixpoint digits (w : nat) (n : Z) : string :=
  match w with
  | O => ""
  | S w' => digits w' (n / 10) +:+
            String (ascii_of_nat (48 + Z.to_nat (n mod 10))) ""
  end.

(** Days since 1970-01-01 to (year, month, day) of the proleptic
    Gregorian calendar. *)
Definition civil_from_days (days : Z) : Z * Z * Z :=
  let z := days + 719468 in
  let era := z / 146097 in
  let doe := z - era * 146097 in
  let yoe := (doe - doe / 1460 + doe / 36524 - doe / 146096) / 365 in
  let doy := doe - (365 * yoe + yoe / 4 - yoe / 100) in
  let mp := (5 * doy + 2) / 153 in
  let d := doy - (153 * mp + 2) / 5 + 1 in
  let m := if mp <? 10 then mp + 3 else mp - 9 in
  let y := yoe + era * 400 + (if m <=? 2 then 1 else 0) in
  (y, m, d).

Definition toISOString (ms : Z) : string :=
  let '(y, m, d) := civil_from_days (ms / 86400000) in
  let tod := ms mod 86400000 in
  let year :=
    if (0 <=? y) && (y <=? 9999) then digits 4 y
    else if y <? 0 then "-" +:+ digits 6 (- y)
    else "+" +:+ digits 6 y in
  year +:+ "-" +:+ digits 2 m +:+ "-" +:+ digits 2 d +:+ "T" +:+
  digits 2 (tod / 3600000) +:+ ":" +:+ digits 2 (tod / 60000 mod 60) +:+ ":" +:+
  digits 2 (tod / 1000 mod 60) +:+ "." +:+ digits 3 (tod mod 1000) +:+ "Z".

(** The property names every object inherits from [Object.prototype].
    Read on a plain object that has no such property of its own, they
    give a function, or the prototype itself for [__proto__]: a value that
    is truthy and is no array. *)
Definition inherited (k : string) : bool :=
  existsb (String.eqb k)
    ["constructor"; "__proto__"; "hasOwnProperty"; "isPrototypeOf";
     "propertyIsEnumerable"; "toLocaleString"; "toString"; "valueOf";
     "__defineGetter__"; "__defineSetter__"; "__lookupGetter__"; "__lookupSetter__"].

End Js.

(** ** The record store of [src/api/localDb.js] *)

Module LocalDb.
Import Js.

Abbreviation record := (gmap string value).

(** The errors the sources raise. *)
Inductive js_error :=
| RecordNotFound (table : string) (id : value)
| UnknownFunction (name : string)
| TypeError.

(** How a call ends: with a value, with a raised error, or outside the
    embedded fragment of JavaScript. *)
Inductive outcome (A : Type) :=
| Ok (a : A)
| Throw (e : js_error)
| Beyond.
Arguments Ok {A} a.
Arguments Throw {A} e.
Arguments Beyond {A}.

(** [tables] is [memory.db.tables]; [clock] lists the successive readings
    of [new Date()] in milliseconds and [ticks] counts the readings made;
    [uuids] lists the successive results of [crypto.randomUUID()] and
    [draws] counts the draws made. *)
Record world := World {
  tables : gmap string (list record);
  clock : nat → Z;
  ticks : nat;
  uuids : nat → string;
  draws : nat
}.

Definition M (A : Type) : Type := world → outcome A * world.

Definition ret {A} (a : A) : M A := λ w, (Ok a, w).

Definition bind {A B} (m : M A) (f : A → M B) : M B :=
  λ w, match m w with
       | (Ok a, w') => f a w'
       | (Throw e, w') => (Throw e, w')
       | (Beyond, w') => (Beyond, w')
       end.

Definition throw {A} (e : js_error) : M A := λ w, (Throw e, w).

Definition lift {A} (o : option A) : M A :=
  λ w, match o with Some a => (Ok a, w) | None => (Beyond, w) end.

Notation "'let*' x ':=' c 'in' k" := (bind c (λ x, k))
  (at level 10, x pattern, c at level 100, k at level 200).

(** [new Date().getTime()] *)
Definition newDate : M Z :=
  λ w, (Ok (clock w (ticks w)),
        World (tables w) (clock w) (S (ticks w)) (uuids w) (draws w)).

Definition nowIso : M string :=
  let* ms := newDate in ret (toISOString ms).

Definition uuid : M string :=
  λ w, (Ok (uuids w (draws w)),
        World (tables w) (clock w) (ticks w) (uuids w) (S (draws w))).

(** The records of a table, whether or not the table exists yet. *)
Definition rows (w : world) (table : string) : list record :=
  default [] (tables w !! table).

(** [d.tables[table]] is read through the prototype chain of the plain
    object [d.tables]: for a table that is missing under a name every
    object inherits, the test [!d.tables[table]] finds the inherited
    value, no table is made, and [ensureTable] returns that value. *)
Definition shadowed (w : world) (table : string) : bool :=
  match tables w !! table with
  | Some _ => false
  | None => inherited table
  end.

Inductive table_value :=
| Rows (t : list record)
| Inherited.

Definition ensureTable (table : string) : M table_value :=
  λ w, match tables w !! table with
       | Some t => (Ok (Rows t), w)
       | None =>
           if inherited table then (Ok Inherited, w)
           else (Ok (Rows []), World (<[table := []]> (tables w)) (clock w) (ticks w)
                                     (uuids w) (draws w))
       end.

(** The use of [t] as an array ([t.push], [t.findIndex], [t.filter],
    [[...t]], [t.slice]): none of the inherited values has these methods
    or can be iterated, and the call raises a type error. *)
Definition array (t : table_value) : M (list record) :=
  match t with
  | Rows rs => ret rs
  | Inherited => throw TypeError
  end.

(** The array of a table is mutated in place ([push], [t[idx] = ...],
    [splice]); [setTable] writes the mutated array. *)
Definition setTable (table : string) (t : list record) : M unit :=
  λ w, (Ok tt, World (<[table := t]> (tables w)) (clock w) (ticks w)
                     (uuids w) (draws w)).

Definition compareField (field : string) (desc : bool) (a b : record)
  : option comparison :=
  let av := get a field in
  let bv := get b field in
  e ← strict_eq av bv;
  if e : bool then Some Eq
  else g ← gt av bv;
       Some (((if g : bool then 1 else -1) * (if desc then -1 else 1)) ?= 0).

(** [sort.startsWith("-")] and [desc ? sort.slice(1) : sort] *)
Definition sort_desc (sort : string) : bool := String.prefix "-" sort.
Definition sort_field (sort : string) : string :=
  if sort_desc sort then String.substring 1 (String.length sort - 1) sort else sort.

Definition sortByField (items : list record) (sort : string) : option (list record) :=
  if String.eqb sort "" then Some items
  else array_sort (compareField (sort_field sort) (sort_desc sort)) items.

Definition matchesEntry (r : record) (kv : string * value) : option bool :=
  let '(k, v) := kv in
  match v with
  | VUndef => Some true
  | VArr vs =>
      match get r k with
      | VArr rv => some (λ x, some (λ y, same_value_zero y x) rv) vs
      | _ => Some false
      end
  | _ => strict_eq (get r k) v
  end.

(** [where] is read in the order of [Object.entries]. *)
Definition matchesWhere (r : record) (where_ : list (string * value)) : option bool :=
  every (matchesEntry r) where_.

Definition db_list (table : string) (sort : option string) (limit : option Z)
  : M (list record) :=
  let* t := ensureTable table in
  let* t := array t in
  let* s := lift (sortByField t (default "-created_date" sort)) in
  ret (slice0 (default 100 limit) s).

Definition db_filter (table : string) (where_ : list (string * value))
    (sort : option string) (limit : option Z) : M (list record) :=
  let* t := ensureTable table in
  let* t := array t in
  let* filtered := lift (filter_by (λ r, matchesWhere r where_) t) in
  let* s := lift (sortByField filtered (default "-created_date" sort)) in
  ret (slice0 (default 1000 limit) s).

(** The record is built, with its identifier and its two readings of the
    clock, before [t.push(rec)] is called. *)
Definition db_create (table : string) (data : object) : M record :=
  let* t := ensureTable table in
  let* id := uuid in
  let* created := nowIso in
  let* updated := nowIso in
  let rec :=
    spread (<["id" := VStr id]> (<["created_date" := VStr created]>
             (<["updated_date" := VStr updated]> ∅))) data in
  let* t := array t in
  let* _ := setTable table (t ++ [rec]) in
  ret rec.

Definition db_update (table : string) (id : value) (patch : object) : M record :=
  let* t := ensureTable table in
  let* t := array t in
  let* idx := lift (findIndex (λ r, strict_eq (get r "id") id) t) in
  match idx with
  | None => throw (RecordNotFound table id)
  | Some i =>
      let* now := nowIso in
      let rec := <["updated_date" := VStr now]> (spread (default ∅ (t !! i)) patch) in
      let* _ := setTable table (<[i := rec]> t) in
      ret rec
  end.

Definition db_remove (table : string) (id : value) : M object :=
  let* t := ensureTable table in
  let* t := array t in
  let* idx := lift (findIndex (λ r, strict_eq (get r "id") id) t) in
  match idx with
  | None => ret {["ok" := VBool true]}
  | Some i =>
      let* _ := setTable table (delete i t) in
      ret {["ok" := VBool true]}
  end.

End LocalDb.

(** ** The client module: heuristic analyzer, automation generator and
       the generator dispatch [functions.invoke] *)

Module Client.
Import Js LocalDb.

#[local] Open Scope float_scope.

Definition clamp01 (n : float) : float := math_max 0 (math_min 1 n).

Definition keywordScore (text : string) (keywords : list string) : nat :=
  let t := toLowerCase text in
  fold_left (λ acc k, if includes t k then S acc else acc) keywords O.

(** *** Incidents as the generators read them

    The generators read these fields of an Incident record.  A field that
    is absent or [null] is [None]; a field of another type than the entity
    declares has no view. *)
Record incident := Incident {
  i_title : option string;
  i_description : option string;
  i_logs : option string;
  i_severity : option string;
  i_affected_systems : option (list string);
  i_source : option string;
  i_ai_analysis : value
}.

Definition as_string (v : value) : option string :=
  match v with VStr s => Some s | _ => None end.

Definition as_opt_string (v : value) : option (option string) :=
  match v with
  | VUndef | VNull => Some None
  | VStr s => Some (Some s)
  | _ => None
  end.

Definition as_opt_strings (v : value) : option (option (list string)) :=
  match v with
  | VUndef | VNull => Some None
  | VArr l => xs ← mapM as_string l; Some (Some xs)
  | _ => None
  end.

Definition as_incident (r : record) : option incident :=
  t ← as_opt_string (get r "title");
  d ← as_opt_string (get r "description");
  l ← as_opt_string (get r "logs");
  s ← as_opt_string (get r "severity");
  a ← as_opt_strings (get r "affected_systems");
  o ← as_opt_string (get r "source");
  Some (Incident t d l s a o (get r "ai_analysis")).

(** [x || d] on an optional string: the empty string is falsy. *)
Definition or_str (x : option string) (d : string) : string :=
  match x with
  | Some s => if String.eqb s "" then d else s
  | None => d
  end.

(** *** [buildAnalysisFromIncident] *)

Record root_cause := RootCause {
  cause : string;
  probability : float;
  evidence : list string
}.

Record recommendation := Recommendation {
  action : string;
  priority : string;
  confidence : float;
  rationale : string;
  risks : string;
  verification_steps : list string
}.

Record analysis := Analysis {
  summary : string;
  root_causes : list root_cause;
  recommendations : list recommendation;
  estimated_recovery_time : string;
  confidence_score : float;
  data_quality_notes : string;
  limitations : list string
}.

Definition title_of (i : incident) : string := or_str (i_title i) "Incident".
Definition desc_of (i : incident) : string :=
  or_str (i_description i) (or_str (i_logs i) "").
Definition sev_of (i : incident) : string :=
  toLowerCase (or_str (i_severity i) "medium").
Definition systems_of (i : incident) : list string :=
  default [] (i_affected_systems i).

(** [`${title} ${desc}`] *)
Definition signal_text (i : incident) : string :=
  title_of i +:+ " " +:+ desc_of i.

Definition isAuth (i : incident) : bool :=
  (0 <? keywordScore (signal_text i) ["auth"; "login"; "token"; "sso"])%nat.
Definition isDb (i : incident) : bool :=
  (0 <? keywordScore (signal_text i)
          ["db"; "database"; "postgres"; "mysql"; "query"; "timeout"])%nat.
Definition isApi (i : incident) : bool :=
  (0 <? keywordScore (signal_text i)
          ["api"; "5xx"; "gateway"; "latency"; "timeout"])%nat.

(** The lookup [{critical: .., high: .., medium: .., low: ..}[sev] ?? 0.66].
    The two lower-case names every object literal inherits, [constructor]
    and [__proto__], read as objects, and an object minus a number is
    [NaN]. *)
Definition baseConf (sev : string) : float :=
  if String.eqb sev "critical" then 0.78
  else if String.eqb sev "high" then 0.72
  else if String.eqb sev "medium" then 0.66
  else if String.eqb sev "low" then 0.6
  else if String.eqb sev "constructor" || String.eqb sev "__proto__" then PrimFloat.nan
  else 0.66.

(** [desc && desc.length > 40] *)
Definition enough_context (desc : string) : bool :=
  negb (String.eqb desc "") && (40 <? String.length desc)%nat.

Definition dataQualityPenalty (desc : string) : float :=
  if enough_context desc then 0 else 0.08.

Definition buildAnalysisFromIncident (i : incident) : analysis :=
  let title := title_of i in
  let desc := desc_of i in
  let sev := sev_of i in
  let systems := systems_of i in
  let confidence_score := clamp01 (baseConf sev - dataQualityPenalty desc) in
  let root_causes := [
    RootCause
      (if isDb i
       then "Database resource saturation (connections / slow queries)"
       else "Upstream dependency degradation (timeouts / elevated error rates)")
      (clamp01 (0.45 + (if isDb i then 0.15 else 0)))
      ["Symptoms consistent with latency spikes and partial availability";
       match systems with
       | [] => "Systems not specified"
       | _ => "Impacted systems: " +:+ join ", " (take 3 systems)
       end];
    RootCause
      (if isAuth i
       then "Identity / token validation issue (SSO, cert, or token expiry)"
       else "Recent deployment or configuration change introduced regression")
      (clamp01 (0.3 + (if isAuth i then 0.2 else 0)))
      ["Common failure mode for sudden onset incidents";
       "Validate with change logs and auth/error traces"];
    RootCause
      (if isApi i
       then "API gateway/routing misconfiguration or rate limiting"
       else "Infrastructure/network instability")
      (clamp01 (0.25 + (if isApi i then 0.15 else 0)))
      ["Could present as widespread 5xx/4xx bursts";
       "Validate with edge metrics, load balancer health, and dependency graph"]
  ] in
  let recommendations := [
    Recommendation
      "Check dashboards for error rates, latency, and saturation (CPU/memory/DB connections)."
      (if String.eqb sev "critical" || String.eqb sev "high" then "critical" else "high")
      (clamp01 (0.85 - dataQualityPenalty desc))
      "Quickly confirms whether the incident is systemic or isolated and identifies bottlenecks."
      "Low risk; read-only investigation."
      ["Confirm error rate and p95/p99 latency against baseline";
       "Identify the top failing endpoint/service"];
    Recommendation
      "Validate recent changes (deployments/config) and consider rollback if correlated."
      (if String.eqb sev "critical" then "critical" else "high")
      (clamp01 (0.72 - dataQualityPenalty desc))
      "Change correlation is frequently the fastest path to recovery."
      "Rollback may revert unrelated fixes; coordinate with release owner."
      ["Compare start time vs deployment timeline";
       "If rollback, monitor key KPIs for recovery within 5–10 minutes"];
    Recommendation
      "Run targeted diagnostics: dependency health checks, DB query sampling, and auth/token validation."
      (if String.eqb sev "low" then "medium" else "high")
      (clamp01 (0.7 - dataQualityPenalty desc))
      "Narrows root cause and supports durable fix."
      "Some diagnostics may increase load if run broadly."
      ["Run on a single canary instance first";
       "Confirm no additional load/regression"]
  ] in
  Analysis
    (title +:+ ": Preliminary assessment indicates " +:+ toUpperCase sev +:+
     " impact with likely dependency or capacity-related degradation. Prioritize stabilization and change correlation, then validate the most probable root cause with targeted diagnostics.")
    root_causes
    recommendations
    (if String.eqb sev "critical" then "30–90 minutes"
     else if String.eqb sev "high" then "1–3 hours" else "Same day")
    confidence_score
    (if enough_context desc
     then "Sufficient context provided for a first-pass assessment. Add exact timestamps, impacted endpoints, and key logs for higher confidence."
     else "Limited context provided. Add exact error messages, graphs (latency/error rate), and recent change details for a higher-confidence assessment.")
    ["Local analysis is heuristic and may not reflect production telemetry.";
     "Assumes common incident patterns; verify against metrics and logs."].

(** *** [buildAutomationForIncident] *)

Definition obj (fields : list (string * value)) : object := list_to_map fields.
Definition strs (xs : list string) : value := VArr (VStr <$> xs).

Definition dq : string := String (ascii_of_nat 34) "".
Definition nl : string := String (ascii_of_nat 10) "".

Record automation := Automation {
  assigned_team : string;
  assignment_rationale : string;
  automation_confidence : float;
  diagnostic_scripts : value;
  stakeholder_communication : value
}.

Definition team_of (i : incident) : string :=
  let systems := systems_of i in
  let source := toLowerCase (or_str (i_source i) "") in
  if includes source "network" then "Network Operations"
  else if existsb (λ s, includes (toLowerCase s) "db") systems
  then "Database Reliability"
  else if existsb (λ s, includes (toLowerCase s) "auth" ||
                        includes (toLowerCase s) "iam") systems
  then "Identity & Access"
  else "Site Reliability Engineering".

(** [(analysis?.confidence_score ?? 0.7) + 0.1]; adding a number to a
    string or to an object is string concatenation. *)
Definition confidence_plus (analysis : value) : option float :=
  let c := match analysis with VObj o => get o "confidence_score" | _ => VUndef end in
  match c with
  | VUndef | VNull => Some (0.7 + 0.1)
  | VNum x => Some (x + 0.1)
  | VBool b => Some ((if b then 1 else 0) + 0.1)
  | VStr _ | VArr _ | VObj _ => None
  end.

Definition buildAutomationForIncident (i : incident) (analysis : value)
  : option automation :=
  let sev := sev_of i in
  let systems := systems_of i in
  let team := team_of i in
  let diagnostic_scripts := VArr [
    VObj (obj [
      ("script_name", VStr "Service health snapshot");
      ("description", VStr "Collect a quick snapshot of key KPIs and dependency health.");
      ("status", VStr "completed");
      ("command", VStr "curl -s https://status.your-service.local/health | jq .");
      ("output", VStr ("{" +:+ nl +:+ "  " +:+ dq +:+ "status" +:+ dq +:+ ": " +:+ dq +:+
                       "degraded" +:+ dq +:+ "," +:+ nl +:+ "  " +:+ dq +:+ "dependencies" +:+
                       dq +:+ ": [{" +:+ dq +:+ "name" +:+ dq +:+ ":" +:+ dq +:+ "db" +:+ dq +:+
                       "," +:+ dq +:+ "status" +:+ dq +:+ ":" +:+ dq +:+ "warn" +:+ dq +:+
                       "}]" +:+ nl +:+ "}"))]);
    VObj (obj [
      ("script_name", VStr "Error-rate sampling");
      ("description", VStr "Sample recent errors to identify dominant failure mode.");
      ("status", VStr "completed");
      ("command", VStr ("tail -n 200 /var/log/app/error.log | grep -E " +:+ dq +:+
                        "5..|timeout|auth" +:+ dq +:+ " | head"));
      ("output", VStr ("timeout contacting upstream dependency" +:+ nl +:+
                       "request_id=..." +:+ nl))])
  ] in
  let stakeholder_communication := VObj (obj [
    ("executive_summary", VStr
       (if String.eqb sev "critical"
        then "We are currently mitigating a high-impact service incident. Teams are engaged, and initial triage suggests a dependency/capacity issue. Next update in 30 minutes."
        else "We are investigating a service degradation with limited scope. Initial triage is underway and we will provide updates as more information becomes available."));
    ("technical_details", VStr "Observed elevated error rates and latency for a subset of requests. Next steps: validate change correlation, inspect dependency health, and apply mitigation/rollback as needed.");
    ("customer_facing", VStr "Some users may experience intermittent issues. Our team is actively working to restore full service and will provide updates as we confirm stability.");
    ("internal_update", VStr ("Triage in progress. Assigned team: " +:+ team +:+
       ". Focus areas: metrics review, dependency checks, and mitigation actions."))
  ]) in
  c ← confidence_plus analysis;
  Some (Automation
    team
    (match systems with
     | [] => "Assignment based on incident signals and standard ownership patterns."
     | _ => "Assignment based on affected systems: " +:+ join ", " (take 3 systems) +:+ "."
     end)
    (clamp01 c)
    diagnostic_scripts
    stakeholder_communication).

(** *** The typed results as stored objects *)

Definition root_cause_value (r : root_cause) : value :=
  VObj (obj [("cause", VStr (cause r)); ("probability", VNum (probability r));
             ("evidence", strs (evidence r))]).

Definition recommendation_value (r : recommendation) : value :=
  VObj (obj [("action", VStr (action r)); ("priority", VStr (priority r));
             ("confidence", VNum (confidence r)); ("rationale", VStr (rationale r));
             ("risks", VStr (risks r));
             ("verification_steps", strs (verification_steps r))]).

Definition analysis_value (a : analysis) : value :=
  VObj (obj [("summary", VStr (summary a));
             ("root_causes", VArr (root_cause_value <$> root_causes a));
             ("recommendations", VArr (recommendation_value <$> recommendations a));
             ("estimated_recovery_time", VStr (estimated_recovery_time a));
             ("confidence_score", VNum (confidence_score a));
             ("data_quality_notes", VStr (data_quality_notes a));
             ("limitations", strs (limitations a))]).

Definition automation_object (a : automation) : object :=
  obj [("assigned_team", VStr (assigned_team a));
       ("assignment_rationale", VStr (assignment_rationale a));
       ("automation_confidence", VNum (automation_confidence a));
       ("diagnostic_scripts", diagnostic_scripts a);
       ("stakeholder_communication", stakeholder_communication a)].

(** *** [functions.invoke] *)

(** A template-literal substitution [`${v}`]; the text of a number and of
    an array is not embedded. *)
Definition template_string (v : value) : option string :=
  match v with
  | VStr s => Some s
  | VBool b => Some (if b then "true" else "false")
  | VNull => Some "null"
  | VUndef => Some "undefined"
  | VObj _ => Some "[object Object]"
  | VNum _ | VArr _ => None
  end.

Fixpoint for_each {A B} (f : A → M B) (l : list A) : M (list B) :=
  match l with
  | [] => ret []
  | x :: l' => let* y := f x in let* ys := for_each f l' in ret (y :: ys)
  end.

Definition hour_ms : Z := 60 * 60 * 1000.

Definition sample : list object := [
  obj [("severity", VStr "critical");
       ("likelihood", VNum 0.72);
       ("predicted_timeframe", VStr "within 48-72 hours");
       ("predicted_issue", VStr "PostgreSQL Connection Pool Exhaustion During Peak Hours");
       ("description", VStr "Pattern suggests repeat saturation during peak periods; mitigate before next traffic surge.");
       ("affected_systems", strs ["PostgreSQL Primary"; "Checkout API"; "Payment Service"; "Order Service"]);
       ("confidence_score", VNum 0.72)];
  obj [("severity", VStr "high");
       ("likelihood", VNum 0.66);
       ("predicted_timeframe", VStr "within 12-24 hours");
       ("predicted_issue", VStr "API Gateway Latency Regression");
       ("description", VStr "Early indicators show p99 rising and error-rate drift in gateway tier; validate retries and capacity.");
       ("affected_systems", strs ["API Gateway"; "Lambda Functions"; "DynamoDB"]);
       ("confidence_score", VNum 0.66)];
  obj [("severity", VStr "high");
       ("likelihood", VNum 0.58);
       ("predicted_timeframe", VStr "within 24 hours");
       ("predicted_issue", VStr "Authentication Service Memory Leak Continuation");
       ("description", VStr "Memory usage trend could hit OOM threshold if not addressed; consider profiling and patch rollout.");
       ("affected_systems", strs ["Auth Service"; "Kubernetes Cluster"]);
       ("confidence_score", VNum 0.58)]
].

Definition fallbackSystems : list string :=
  ["Customer Portal"; "Notifications"; "Data Pipeline"; "Search"; "Billing"].

(** [incidents.flatMap((i) => i.affected_systems || []).filter(Boolean)] *)
Definition systems_seen (r : record) : list value :=
  let v := get r "affected_systems" in
  if truthy v then match v with VArr l => l | _ => [v] end else [].

Definition commonSystems (incidents : list record) : list value :=
  List.filter truthy (concat (systems_seen <$> incidents)).

(** [new Date(now.getTime() - h * 60 * 60 * 1000).toISOString()] *)
Definition hours_before (now : Z) (h : Z) : string :=
  toISOString (now - h * hour_ms).

Definition sample_alert (now : Z) (i : nat) (s : object) : object :=
  spread s (obj [
    ("contributing_factors", strs ["Recent incident patterns"; "Traffic variability"; "Resource pressure"]);
    ("preventative_actions", strs ["Validate dashboards"; "Review recent changes"; "Prepare rollback"]);
    ("status", VStr "active");
    ("created_date", VStr (hours_before now (Z.of_nat i)));
    ("updated_date", VStr (hours_before now (Z.of_nat i)))]).

Definition extra_alert (now : Z) (sys : value) (sys_text : string) : object :=
  obj [("severity", VStr "high");
       ("likelihood", VNum 0.6);
       ("predicted_timeframe", VStr "within 3-5 days");
       ("predicted_issue", VStr ("Elevated risk detected: " +:+ sys_text));
       ("description", VStr "Recurring signals suggest elevated risk; monitor closely and validate mitigations.");
       ("affected_systems", VArr [sys]);
       ("confidence_score", VNum 0.6);
       ("contributing_factors", strs ["Recurring alerts"; "Recent change activity"]);
       ("preventative_actions", strs ["Increase monitoring"; "Validate thresholds"; "Plan rollback"]);
       ("status", VStr "active");
       ("created_date", VStr (hours_before now 5));
       ("updated_date", VStr (hours_before now 5))].

Definition generatePredictions : M object :=
  let* incidents := db_list "Incident" (Some "-created_date") (Some 50%Z) in
  let* now := newDate in
  let common := commonSystems incidents in
  let* created :=
    for_each (λ '(i, s), db_create "PredictiveAlert" (sample_alert now i s))
             (imap (λ i s, (i, s)) sample) in
  let sys :=
    let c0 := default VUndef (head common) in
    if truthy c0 then c0 else default VUndef (VStr <$> head fallbackSystems) in
  let* sys_text := lift (template_string sys) in
  let* extra := db_create "PredictiveAlert" (extra_alert now sys sys_text) in
  ret (obj [("data", VObj (obj [("created", VArr (VObj <$> (created ++ [extra])))]))]).

Definition not_ok : object := obj [("data", VObj (obj [("ok", VBool false)]))].

(** [(await db.filter("Incident", { where: { id: payload.incident_id } }))[0]] *)
Definition find_incident (payload : object) : M (option record) :=
  let* found := db_filter "Incident" [("id", get payload "incident_id")] None None in
  ret (head found).

Definition automateIncidentResponse (payload : object) : M object :=
  let* incident := find_incident payload in
  match incident with
  | None => ret not_ok
  | Some r =>
      let* i := lift (as_incident r) in
      let analysis :=
        if truthy (i_ai_analysis i) then i_ai_analysis i
        else analysis_value (buildAnalysisFromIncident i) in
      let* automation := lift (buildAutomationForIncident i analysis) in
      let* existing :=
        db_filter "IncidentAutomation"
                  [("incident_id", get payload "incident_id")] None None in
      let* record :=
        match head existing with
        | Some e => db_update "IncidentAutomation" (get e "id") (automation_object automation)
        | None =>
            db_create "IncidentAutomation"
              (spread (obj [("incident_id", get payload "incident_id")])
                      (automation_object automation))
        end in
      let* _ := db_create "AuditLog" (obj [
        ("incident_id", get payload "incident_id");
        ("action_type", VStr "automation_generated");
        ("actor", VStr "SYSTEM");
        ("details", VObj (obj [("assigned_team", get record "assigned_team");
                               ("confidence", get record "automation_confidence")]))]) in
      ret (obj [("data", VObj (obj [("automation", VObj record)]))])
  end.

(** [incident.ai_analysis?.summary] *)
Definition stored_summary (r : record) : value :=
  match get r "ai_analysis" with
  | VObj o => get o "summary"
  | _ => VUndef
  end.

Definition generatePostIncidentReview (payload : object) : M object :=
  let* incident := find_incident payload in
  match incident with
  | None => ret not_ok
  | Some r =>
      let* logs :=
        db_filter "AuditLog" [("incident_id", get payload "incident_id")]
                  (Some "created_date") None in
      let* decisions :=
        db_filter "Decision" [("incident_id", get payload "incident_id")] None None in
      let* summary_ :=
        if truthy (stored_summary r) then ret (stored_summary r)
        else let* i := lift (as_incident r) in
             ret (VStr (summary (buildAnalysisFromIncident i))) in
      let review := obj [
        ("incident_id", get payload "incident_id");
        ("executive_summary", summary_);
        ("customer_impact", VStr
           (if is_str (get r "severity") "critical" then "High"
            else if is_str (get r "severity") "high" then "Moderate" else "Low"));
        ("timeline", VArr ((λ l, VObj (obj [("at", get l "created_date");
                                            ("action", get l "action_type");
                                            ("details", get l "details")])) <$> logs));
        ("decisions", VArr ((λ d, VObj (obj [("action", get d "recommendation_action");
                                             ("decision", get d "decision");
                                             ("reason", get d "decision_reason")])) <$> decisions));
        ("what_went_well", strs ["Rapid triage and clear ownership"; "Audit trail captured key actions"]);
        ("what_went_wrong", strs ["Limited early signals / missing data";
                                  "Dependency coupling increased blast radius"]);
        ("action_items", VArr [
           VObj (obj [("owner", VStr "SRE");
                      ("item", VStr "Add alerting for leading indicators (latency/queue depth)");
                      ("due", VStr "2 weeks")]);
           VObj (obj [("owner", VStr "App Team");
                      ("item", VStr "Document rollback steps and add runbook");
                      ("due", VStr "1 week")])])] in
      let* existing :=
        db_filter "PostIncidentReview"
                  [("incident_id", get payload "incident_id")] None None in
      let* record :=
        match head existing with
        | Some e => db_update "PostIncidentReview" (get e "id") review
        | None => db_create "PostIncidentReview" review
        end in
      let* _ := db_create "AuditLog" (obj [
        ("incident_id", get payload "incident_id");
        ("action_type", VStr "post_incident_review_generated");
        ("actor", VStr "SYSTEM");
        ("details", VObj (obj [("review_id", get record "id")]))]) in
      ret (obj [("data", VObj (obj [("review", VObj record)]))])
  end.

(** *** Knowledge-article suggestion *)

Record article := Article {
  a_title : option string;
  a_summary : option string;
  a_tags : option (list string)
}.

Definition as_article (r : record) : option article :=
  t ← as_opt_string (get r "title");
  s ← as_opt_string (get r "summary");
  g ← as_opt_strings (get r "tags");
  Some (Article t s g).

Record suggestion := Suggestion {
  s_article : record;
  relevance_score : float;
  reason : string
}.

Definition float_of_nat (n : nat) : float :=
  PrimFloat.of_uint63 (Uint63.of_Z (Z.of_nat n)).

Definition incident_text (i : incident) : string :=
  toLowerCase (or_str (i_title i) "" +:+ " " +:+ or_str (i_description i) "" +:+ " " +:+
               join " " (systems_of i)).

Definition article_hay (a : article) : string :=
  toLowerCase (or_str (a_title a) "" +:+ " " +:+ or_str (a_summary a) "" +:+ " " +:+
               join " " (default [] (a_tags a))).

(** [text.split(/\W+/).filter(Boolean).slice(0, 25)] *)
Definition tokens (text : string) : list string := take 25 (words text).

Definition token_score (hay : string) (toks : list string) : nat :=
  fold_left (λ score token,
               if (String.length token <? 4)%nat then score
               else if includes hay token then S score else score)
            toks O.

Definition relevance_of (score : nat) : float := clamp01 (float_of_nat score / 10).

Definition reason_of (relevance : float) : string :=
  if 0.7 <? relevance then "Strong tag/title overlap"
  else if 0.4 <? relevance then "Partial keyword match"
  else "Weak match".

Definition suggest_one (text : string) (r : record) (a : article) : suggestion :=
  let relevance := relevance_of (token_score (article_hay a) (tokens text)) in
  Suggestion r relevance (reason_of relevance).

(** The sign of the number a comparator returns; [NaN] counts as zero. *)
Definition sign_of (d : float) : comparison :=
  if d <? 0 then Lt else if 0 <? d then Gt else Eq.

Definition by_relevance_desc (a b : suggestion) : option comparison :=
  Some (sign_of (relevance_score b - relevance_score a)).

Definition rank (ss : list suggestion) : option (list suggestion) :=
  sorted ← array_sort by_relevance_desc
              (List.filter (λ s, 0.25 <=? relevance_score s) ss);
  Some (slice0 6 sorted).

Definition suggestion_value (s : suggestion) : value :=
  VObj (obj [("article", VObj (s_article s));
             ("relevance_score", VNum (relevance_score s));
             ("reason", VStr (reason s))]).

Definition suggestions_for (i : incident) (articles : list record)
  : option (list suggestion) :=
  scored ← mapM (λ r, a ← as_article r; Some (suggest_one (incident_text i) r a)) articles;
  rank scored.

Definition suggestKnowledgeArticles (payload : object) : M object :=
  let* incident := find_incident payload in
  let* articles := db_list "KnowledgeBaseArticle" (Some "-created_date") (Some 200%Z) in
  match incident with
  | None => ret (obj [("data", VObj (obj [("suggestions", VArr [])]))])
  | Some r =>
      let* i := lift (as_incident r) in
      let* suggestions := lift (suggestions_for i articles) in
      ret (obj [("data", VObj (obj [("suggestions",
                                      VArr (suggestion_value <$> suggestions))]))])
  end.

(** *** Article from incident *)

Definition float_of_Z (n : Z) : float := PrimFloat.of_uint63 (Uint63.of_Z n).

(** [Math.round(x)] for [0 <= x < fuel - 0.5]: the integer [n] with
    [n - 0.5 <= x < n + 0.5]. *)
Fixpoint round_from (fuel : nat) (n : Z) (x : float) : option Z :=
  match fuel with
  | O => None
  | S fuel' =>
      if x <? float_of_Z n + 0.5 then Some n
      else round_from fuel' (n + 1)%Z x
  end.

Definition math_round (x : float) : option Z :=
  if 0 <=? x then round_from 102 0%Z x else None.

Definition decimal (n : Z) : string :=
  if (n <? 10)%Z then digits 1 n
  else if (n <? 100)%Z then digits 2 n
  else digits 3 n.

Definition cause_line (r : root_cause) : option string :=
  p ← math_round (probability r * 100);
  Some ("- **" +:+ cause r +:+ "** (p=" +:+ decimal p +:+ "%)").

Definition action_line (r : recommendation) : string :=
  "- **" +:+ toUpperCase (priority r) +:+ "**: " +:+ action r.

Definition article_content (a : analysis) : option string :=
  causes ← mapM cause_line (root_causes a);
  Some ("## Summary" +:+ nl +:+ summary a +:+ nl +:+ nl +:+
        "## Likely root causes" +:+ nl +:+ join nl causes +:+ nl +:+ nl +:+
        "## Recommended actions" +:+ nl +:+
        join nl (action_line <$> recommendations a) +:+ nl +:+ nl +:+
        "## Verification" +:+ nl +:+ "- Monitor error rate and latency" +:+ nl +:+
        "- Confirm recovery in customer workflows" +:+ nl).

Definition generateArticleFromIncident (payload : object) : M object :=
  let* incident := find_incident payload in
  match incident with
  | None => ret not_ok
  | Some r =>
      let* i := lift (as_incident r) in
      if truthy (i_ai_analysis i) then
        (* a stored analysis: [analysis.root_causes.map] needs an array *)
        match i_ai_analysis i with
        | VObj o =>
            match get o "root_causes" with
            | VArr _ => lift None
            | _ => throw TypeError
            end
        | _ => throw TypeError
        end
      else
        let analysis := buildAnalysisFromIncident i in
        let* title := lift (template_string (get r "title")) in
        let* content := lift (article_content analysis) in
        let* article := db_create "KnowledgeBaseArticle" (obj [
          ("title", VStr ("Runbook: " +:+ title));
          ("summary", VStr (summary analysis));
          ("content", VStr content);
          ("tags", VArr (get r "severity" :: (VStr <$> take 3 (systems_of i))));
          ("category", VStr "runbook");
          ("status", VStr "draft")]) in
        ret (obj [("data", VObj (obj [("article", VObj article)]))])
  end.

Definition invoke (name : string) (payload : object) : M object :=
  if String.eqb name "generatePredictions" then generatePredictions
  else if String.eqb name "automateIncidentResponse" then automateIncidentResponse payload
  else if String.eqb name "generatePostIncidentReview" then generatePostIncidentReview payload
  else if String.eqb name "suggestKnowledgeArticles" then suggestKnowledgeArticles payload
  else if String.eqb name "generateArticleFromIncident" then generateArticleFromIncident payload
  else throw (UnknownFunction name).

End Client.

(** ** The meta store of [src/api/localDb.js] and the local identity
       [auth] of the client module *)

Module Meta.
Import Js LocalDb.

(** What the page finds under the meta key of [window.localStorage]: no
    [window] at all (build and SSR), a [window] without [localStorage], an
    item that was there when the page loaded, with the value [JSON.parse]
    gives for it ([None] for a missing, empty or unparsable item), or the
    text [JSON.stringify(v)] that [saveJson] has written since. *)
Inductive browser :=
| NoWindow
| NoLocalStorage
| Item (parsed : option value)
| Written (v : value).

(** [memory.meta], the browser, and the number of page reloads asked for. *)
Record state := State {
  memory_meta : value;
  local : browser;
  reloads : nat
}.

Definition MM (A : Type) : Type := state → outcome A * state.

Definition mm_ret {A} (a : A) : MM A := λ s, (Ok a, s).

Definition mm_bind {A B} (m : MM A) (f : A → MM B) : MM B :=
  λ s, match m s with
       | (Ok a, s') => f a s'
       | (Throw e, s') => (Throw e, s')
       | (Beyond, s') => (Beyond, s')
       end.

Notation "'do*' x ':=' c 'in' k" := (mm_bind c (λ x, k))
  (at level 10, x pattern, c at level 100, k at level 200).

Definition hasLocalStorage (s : state) : bool :=
  match local s with NoWindow | NoLocalStorage => false | _ => true end.

(** [loadJson(META_KEY, fallback)].  Reading back a text that [saveJson]
    wrote needs [JSON.parse(JSON.stringify(v))], which is not embedded. *)
Definition loadJson (fallback : value) : MM value :=
  λ s, match local s with
       | NoWindow | NoLocalStorage | Item None => (Ok fallback, s)
       | Item (Some v) => (Ok v, s)
       | Written _ => (Beyond, s)
       end.

(** [saveJson(META_KEY, value)] *)
Definition saveJson (v : value) : MM unit :=
  λ s, if hasLocalStorage s then (Ok tt, State (memory_meta s) (Written v) (reloads s))
       else (Ok tt, s).

Definition initial : value :=
  VObj (list_to_map [("seeded", VBool false); ("currentUser", VNull)]).

Definition loadMeta : MM value :=
  λ s, if truthy (memory_meta s) then (Ok (memory_meta s), s)
       else match loadJson initial s with
            | (Ok v, s') => (Ok v, State v (local s') (reloads s'))
            | other => other
            end.

Definition saveMeta : MM unit :=
  λ s, if truthy (memory_meta s) then saveJson (memory_meta s) s else (Ok tt, s).

(** [m[key]] for the [m] that [loadMeta] returns: a type error on [null]
    and [undefined]; the property of a plain object, own or else
    [undefined], for a name that is not inherited. *)
Definition getMeta (key : string) : MM value :=
  do* m := loadMeta in
  λ s, match m with
       | VObj o =>
           match o !! key with
           | Some v => (Ok v, s)
           | None => if inherited key then (Beyond, s) else (Ok VUndef, s)
           end
       | VUndef | VNull => (Throw TypeError, s)
       | _ => (Beyond, s)
       end.

(** [m[key] = value; saveMeta()].  The object [m] is [memory.meta] itself
    and is changed in place. *)
Definition setMeta (key : string) (v : value) : MM unit :=
  do* m := loadMeta in
  do* _ := (λ s, match m with
                | VObj o =>
                    if String.eqb key "__proto__" then (Beyond, s)
                    else (Ok tt, State (VObj (<[key := v]> o)) (local s) (reloads s))
                | VUndef | VNull => (Throw TypeError, s)
                | _ => (Beyond, s)
                end) in
  saveMeta.

(** *** [auth] *)

Definition demo_user : value :=
  VObj (list_to_map [("id", VStr "user_demo"); ("email", VStr "demo.user@example.com");
                     ("full_name", VStr "Demo User")]).

Definition me : MM value :=
  do* saved := getMeta "currentUser" in
  if truthy saved then mm_ret saved
  else do* _ := setMeta "currentUser" demo_user in mm_ret demo_user.

(** [window.location.reload()] is recorded, not carried out. *)
Definition reload : MM unit :=
  λ s, (Ok tt, State (memory_meta s) (local s) (S (reloads s))).

Definition logout : MM unit :=
  do* _ := setMeta "currentUser" VNull in
  λ s, match local s with
       | NoWindow => (Ok tt, s)
       | _ => reload s
       end.

End Meta.

(** ** The local stand-in for the language model,
       [integrations.Core.InvokeLLM], and the prompt that
       [src/pages/CreateIncident.jsx] sends to it *)

Module Llm.
Import Js LocalDb Client.

(** The classes [\s] and [.] of regular expressions, on ASCII text. *)
Definition is_space (c : ascii) : bool :=
  let n := nat_of_ascii c in
  (((9 <=? n) && (n <=? 13)) || (n =? 32))%nat.

Definition is_line_end (c : ascii) : bool :=
  let n := nat_of_ascii c in ((n =? 10) || (n =? 13))%nat.

(** Two characters match under the flag [i]. *)
Definition ci_eq (a b : ascii) : bool :=
  Ascii.eqb (upper_ascii a) (upper_ascii b).

(** The rest of [s] after a literal [pat] matched at its start. *)
Fixpoint prefix_ci (pat s : string) : option string :=
  match pat with
  | EmptyString => Some s
  | String p pat' =>
      match s with
      | EmptyString => None
      | String c s' => if ci_eq p c then prefix_ci pat' s' else None
      end
  end.

(** The greedy run of white space after the label, and the capture
    group: the rest of the line. *)
Fixpoint skip_spaces (s : string) : string :=
  match s with
  | EmptyString => EmptyString
  | String c s' => if is_space c then skip_spaces s' else s
  end.

Fixpoint line (s : string) : string :=
  match s with
  | EmptyString => EmptyString
  | String c s' => if is_line_end c then EmptyString else String c (line s')
  end.

(** The first capture group of the leftmost match of a literal [label],
    white space and the rest of the line, under the flag [i]; the group
    can match the empty string, so no match is given up. *)
Fixpoint exec_label (label s : string) : option string :=
  match prefix_ci label s with
  | Some rest => Some (line (skip_spaces rest))
  | None =>
      match s with
      | EmptyString => None
      | String _ s' => exec_label label s'
      end
  end.

(** [x || d] on the result of [exec(...)?.[1]]. *)
Definition InvokeLLM (prompt : option string) : analysis :=
  let p := or_str prompt "" in
  buildAnalysisFromIncident
    (Incident (Some (or_str (exec_label "Title:" p) "Incident"))
              (Some p)
              None
              (Some (or_str (exec_label "Severity:" p) "medium"))
              None
              (Some (or_str (exec_label "Source:" p) "Unknown"))
              VUndef).

(** The prompt of [generateAIAnalysis(incident)]. *)
Definition analysis_prompt (r : record) : option string :=
  title ← template_string (get r "title");
  description ← as_opt_string (get r "description");
  severity ← template_string (get r "severity");
  source ← as_opt_string (get r "source");
  systems ← as_opt_strings (get r "affected_systems");
  logs ← as_opt_string (get r "logs");
  Some ("You are an expert Site Reliability Engineer analyzing an incident. " +:+ nl +:+
        "    " +:+ nl +:+
        "Incident Details:" +:+ nl +:+
        "- Title: " +:+ title +:+ nl +:+
        "- Description: " +:+ or_str description "Not provided" +:+ nl +:+
        "- Severity: " +:+ severity +:+ nl +:+
        "- Source: " +:+ or_str source "Unknown" +:+ nl +:+
        "- Affected Systems: " +:+ or_str (join ", " <$> systems) "Not specified" +:+ nl +:+
        "- Logs/Errors: " +:+ or_str logs "No logs provided" +:+ nl +:+
        nl +:+
        "Provide a comprehensive analysis in JSON format with:" +:+ nl +:+
        "1. A concise executive summary (2-3 sentences)" +:+ nl +:+
        "2. Top 3 most likely root causes with probability scores (0-1) and supporting evidence" +:+ nl +:+
        "3. 3-5 recommended actions with priority (critical/high/medium/low), confidence scores (0-1), rationale, potential risks, and verification steps" +:+ nl +:+
        "4. Estimated time to recovery" +:+ nl +:+
        "5. Overall confidence score (0-1) based on data quality" +:+ nl +:+
        "6. Data quality notes (what information is missing or unclear)" +:+ nl +:+
        "7. Limitations of this analysis (what could be wrong)").

End Llm.

(** ** Vocabulary of the statements *)

Import Js LocalDb Client.

(** [x] may stand before [y] for the comparator. *)
Definition precedes {A} (cmp : A → A → option comparison) (x y : A) : Prop :=
  cmp x y = Some Lt ∨ cmp x y = Some Eq.

(** The field [field] of [r] holds a string. *)
Definition has_str (field : string) (r : record) : Prop :=
  ∃ s, get r field = VStr s.

(** [a] may stand before [b]: ascending, or descending with [desc]. *)
Definition field_le (field : string) (desc : bool) (a b : record) : Prop :=
  ∃ x y, get a field = VStr x ∧ get b field = VStr y ∧
         (if desc then String.leb y x else String.leb x y) = true.

(** The elements of [items] whose field [field] holds the string [k]. *)
Definition with_key (field k : string) (items : list record) : list record :=
  List.filter (λ r, is_str (get r field) k) items.

(** The record [db.create] builds in world [w] from [data]. *)
Definition new_record (w : world) (data : object) : record :=
  spread (<["id" := VStr (uuids w (draws w))]>
            (<["created_date" := VStr (toISOString (clock w (ticks w)))]>
               (<["updated_date" := VStr (toISOString (clock w (S (ticks w))))]> ∅)))
         data.

(** The record [db.update] builds in world [w] from the stored record
    [old] and [patch]. *)
Definition patched (w : world) (old patch : object) : record :=
  <["updated_date" := VStr (toISOString (clock w (ticks w)))]> (spread old patch).

(** [r.id === id] *)
Definition has_id (id : value) (r : record) : option bool :=
  strict_eq (get r "id") id.

(** Two worlds hold the same records and have made the same readings of
    the clock and the same draws of identifiers. *)
Definition same_store (w w' : world) : Prop :=
  (∀ table, rows w' table = rows w table) ∧
  clock w' = clock w ∧ ticks w' = ticks w ∧
  uuids w' = uuids w ∧ draws w' = draws w.

(** The world with the array of [table] replaced, after [t] readings of
    the clock and [d] draws more. *)
Definition with_table (w : world) (table : string) (rs : list record)
    (t d : nat) : world :=
  World (<[table := rs]> (tables w)) (clock w) (t + ticks w) (uuids w) (d + draws w).

(** The world after [ensureTable(table)]. *)
Definition ensured (w : world) (table : string) : world :=
  (ensureTable table w).2.

(** [table] is a table of the store, or can become one: it is there, or
    its name is none that a plain object inherits. *)
Definition is_table (w : world) (table : string) : Prop :=
  shadowed w table = false.
Existing Class is_table.

(** The world after [t] readings of the clock and [d] draws more, its
    tables untouched. *)
Definition advanced (w : world) (t d : nat) : world :=
  World (tables w) (clock w) (t + ticks w) (uuids w) (d + draws w).

(** Concrete worlds for the examples: a clock that advances by one
    millisecond at each reading, a clock that stands still within one
    millisecond, and a supply of distinct identifiers ([uuid-], [uuid-I],
    [uuid-II], ...). *)
Definition ticking_clock : nat → Z := λ n, (1700000000000 + Z.of_nat n)%Z.
Definition still_clock : nat → Z := λ _, 1700000000000%Z.
Definition demo_uuids : nat → string :=
  λ n, "uuid-" +:+ string_of_list_ascii (replicate n "I"%char).

Definition world_of (tbls : list (string * list record)) (clk : nat → Z) : world :=
  World (list_to_map tbls) clk 0 demo_uuids 0.

(** The strings held in [field] strictly increase from [a] to [b]. *)
Definition field_lt (field : string) (a b : record) : Prop :=
  ∃ x y, get a field = VStr x ∧ get b field = VStr y ∧ String.ltb x y = true.

(** The mutating calls of the store, and a run of them that goes on
    whatever each call answers. *)
Inductive op :=
| Create (table : string) (data : object)
| Update (table : string) (id : value) (patch : object)
| Remove (table : string) (id : value).

Definition run_op (o : op) (w : world) : world :=
  match o with
  | Create table data => (db_create table data w).2
  | Update table id patch => (db_update table id patch w).2
  | Remove table id => (db_remove table id w).2
  end.

Definition run_ops (os : list op) (w : world) : world :=
  fold_left (λ w o, run_op o w) os w.

(** The call leaves the stamps to the store: the data of a create carry
    none of [id], [created_date], [updated_date], and the patch of an
    update carries neither [id] nor [created_date]. *)
Definition keeps_stamps (o : op) : Prop :=
  match o with
  | Create _ data =>
      data !! "id" = None ∧ data !! "created_date" = None ∧
      data !! "updated_date" = None
  | Update _ _ patch => patch !! "id" = None ∧ patch !! "created_date" = None
  | Remove _ _ => True
  end.

(** The stamps of [r] were set by the store: its [id] is an identifier
    drawn so far, and its dates are readings of the clock made so far, the
    one of [created_date] not after the one of [updated_date]. *)
Definition stamped (w : world) (r : record) : Prop :=
  ∃ d c u : nat,
    (d < draws w)%nat ∧ (c <= u)%nat ∧ (u < ticks w)%nat ∧
    get r "id" = VStr (uuids w d) ∧
    get r "created_date" = VStr (toISOString (clock w c)) ∧
    get r "updated_date" = VStr (toISOString (clock w u)).

Definition well_stamped (w : world) : Prop :=
  ∀ table, Forall (stamped w) (rows w table) ∧
           NoDup ((λ r, get r "id") <$> rows w table).

(** The ids of the rows were assigned by the store: each is an
    identifier drawn so far, and no two rows of a table share one. *)
Definition store_ids (w : world) : Prop :=
  ∀ table,
    Forall (λ r, ∃ d, (d < draws w)%nat ∧ get r "id" = VStr (uuids w d)) (rows w table) ∧
    NoDup ((λ r, get r "id") <$> rows w table).

(** The call leaves the [id] to the store. *)
Definition keeps_id (o : op) : Prop :=
  match o with
  | Create _ data => data !! "id" = None
  | Update _ _ patch => patch !! "id" = None
  | Remove _ _ => True
  end.

(** The identifiers drawn are pairwise distinct, and the clock does not
    run backwards. *)
Definition distinct_uuids (w : world) : Prop :=
  ∀ a b, uuids w a = uuids w b → a = b.
Definition monotone_clock (w : world) : Prop :=
  ∀ a b, (a <= b)%nat → (clock w a <= clock w b)%Z.

(** [w'] continues [w]: same clock and supply of identifiers, no fewer
    readings and draws. *)
Definition continues (w w' : world) : Prop :=
  clock w' = clock w ∧ uuids w' = uuids w ∧
  (ticks w <= ticks w')%nat ∧ (draws w <= draws w')%nat.

(** [r] is [x] clamped to the interval from 0 to 1: 0 below it, 1 above
    it, [x] itself inside it (as [===] has it: a negative zero comes out
    as zero), and NaN for NaN. *)
Definition clamped (x r : float) : Prop :=
  (PrimFloat.is_nan x = true → PrimFloat.is_nan r = true) ∧
  (PrimFloat.ltb x 0 = true → r = 0%float) ∧
  (PrimFloat.ltb 1 x = true → r = 1%float) ∧
  (PrimFloat.leb 0 x = true → PrimFloat.leb x 1 = true →
   PrimFloat.eqb r x = true ∧ (r = x ∨ r = 0%float)).

(** [s], in lower case, contains the keyword [kw]. *)
Definition contains_ci (s kw : string) : Prop :=
  ∃ pre post, toLowerCase s = pre +:+ kw +:+ post.

(** The field [k] of the [data] object a dispatch returns; [undefined]
    when the call did not return. *)
Definition data_field (res : outcome object) (k : string) : value :=
  match res with
  | Ok o => match get o "data" with VObj d => get d k | _ => VUndef end
  | _ => VUndef
  end.

Definition returned {A} (res : outcome A) : bool :=
  match res with Ok _ => true | _ => false end.

(** The table a mutating call works on. *)
Definition op_table (o : op) : string :=
  match o with
  | Create table _ | Update table _ _ | Remove table _ => table
  end.

(** [rs] without its first element that satisfies [p]. *)
Fixpoint remove_first {A} (p : A → bool) (rs : list A) : list A :=
  match rs with
  | [] => []
  | r :: rs' => if p r then rs' else r :: remove_first p rs'
  end.

(** The [id] of every row is a string, and no two rows share one. *)
Definition keyed (rs : list record) : Prop :=
  Forall (λ r, ∃ s, get r "id" = VStr s) rs ∧
  NoDup ((λ r, get r "id") <$> rs).

(** The number of creates among the calls. *)
Definition creates (ops : list op) : nat :=
  length (List.filter (λ o, match o with Create _ _ => true | _ => false end) ops).

(** Every error [m] raises satisfies [P]. *)
Definition raises {A} (m : M A) (P : js_error → Prop) : Prop :=
  ∀ w e w', m w = (Throw e, w') → P e.

(** The names [functions.invoke] dispatches on. *)
Definition dispatched : list string :=
  ["generatePredictions"; "automateIncidentResponse"; "generatePostIncidentReview";
   "suggestKnowledgeArticles"; "generateArticleFromIncident"].

(** The relevance of [s] comes from a score that 25 tokens allow. *)
Definition scored (s : suggestion) : Prop :=
  ∃ n, (n <= 25)%nat ∧ relevance_score s = relevance_of n.

(** [a] does not rank below [b]. *)
Definition outranks (a b : suggestion) : Prop :=
  (relevance_score b <=? relevance_score a)%float = true.

(** The scores from 10 on give the relevance 1.  On the relevances of two
    scores the comparator of the ranking and the order of floats agree
    with the order of the levels. *)
Definition level (n : nat) : nat := Nat.min n 10.

Definition ranking_agrees (m n : nat) : bool :=
  match sign_of (relevance_of n - relevance_of m)%float, Nat.compare (level n) (level m) with
  | Eq, Eq | Lt, Lt | Gt, Gt => true
  | _, _ => false
  end &&
  Bool.eqb (relevance_of n <=? relevance_of m)%float (level n <=? level m)%nat.

(** The first record of the seed ([src/api/seed.js]), [now] milliseconds
    after the epoch: its stored analysis carries a confidence score and a
    summary, and nothing else. *)
Definition seed_inc_001 (now : Z) : record :=
  obj [("id", VStr "inc_001");
       ("created_date", VStr (hours_before now 26));
       ("title", VStr "Database Connection Pool Exhaustion - Production");
       ("description", VStr "Multiple microservices reporting connection timeouts to PostgreSQL cluster. Error rate spiking to 23% on checkout API. Customer-facing impact detected.");
       ("severity", VStr "critical");
       ("status", VStr "awaiting_approval");
       ("source", VStr "Datadog");
       ("affected_systems", strs ["PostgreSQL Primary"; "Checkout API"; "Payment Service"; "Order Service"]);
       ("assigned_to", VStr "SRE On-Call");
       ("ai_analysis", VObj (obj [
          ("confidence_score", VNum 0.76%float);
          ("summary", VStr "Critical impact detected. Symptoms strongly indicate database connection pool saturation causing upstream request failures across checkout/payment workloads.")]))].

(** The percentage [Math.round(r.probability * 100)] of a root cause. *)
Definition percentage (r : root_cause) : option Z :=
  math_round (probability r * 100)%float.

(** The rows of [table] whose [incident_id] is [pid], as the clause
    [{ incident_id: pid }] finds them. *)
Definition of_incident (pid : value) (w : world) (table : string) : list record :=
  List.filter (λ x, default false (matchesWhere x [("incident_id", pid)])) (rows w table).

(** [e] is the newest of [rs]: no row of [rs] holds a later
    [created_date], and [e] is the first of [rs] among those that hold
    the same. *)
Definition newest (rs : list record) (e : record) : Prop :=
  ∃ x, get e "created_date" = VStr x ∧
       (∀ e', e' ∈ rs → ∃ y, get e' "created_date" = VStr y ∧ String.leb y x = true) ∧
       head (with_key "created_date" x rs) = Some e.

(** The analysis a generator works from: the stored one when there is
    one, a fresh one otherwise ([incident.ai_analysis || buildAnalysisFromIncident(incident)]). *)
Definition analysis_for (r : record) (i : incident) : value :=
  if truthy (get r "ai_analysis") then get r "ai_analysis"
  else analysis_value (buildAnalysisFromIncident i).

(** The summary a review opens with
    ([incident.ai_analysis?.summary || buildAnalysisFromIncident(incident).summary]). *)
Definition review_summary (r : record) : option value :=
  if truthy (stored_summary r) then Some (stored_summary r)
  else i ← as_incident r; Some (VStr (summary (buildAnalysisFromIncident i))).

(** The entries of a review for an audit record and for a decision. *)
Definition timeline_entry (l : record) : value :=
  VObj (obj [("at", get l "created_date"); ("action", get l "action_type");
             ("details", get l "details")]).
Definition decision_entry (d : record) : value :=
  VObj (obj [("action", get d "recommendation_action"); ("decision", get d "decision");
             ("reason", get d "decision_reason")]).

(** The fields of a time value: year, month, day, hours, minutes, seconds
    and milliseconds, as [toISOString] prints them. *)
Definition iso_fields (ms : Z) : list Z :=
  let '(y, m, d) := civil_from_days (ms / 86400000) in
  let tod := ms mod 86400000 in
  [y; m; d; tod / 3600000; tod / 60000 mod 60; tod / 1000 mod 60; tod mod 1000].

(** The order of two lists of numbers, first difference first. *)
Fixpoint lex_compare (xs ys : list Z) : comparison :=
  match xs, ys with
  | x :: xs', y :: ys' =>
      match x ?= y with Eq => lex_compare xs' ys' | c => c end
  | [], [] => Eq
  | [], _ => Lt
  | _, [] => Gt
  end.

(** The last millisecond of the year 9999, the last the four-digit form
    of [toISOString] prints. *)
Definition last_ms : Z := 253402300799999.

(** The date of day [d] is a month and a day of the month, and comes
    before the date of the next day. *)
Definition day_ascends (d : Z) : bool :=
  let '(y, m, dd) := civil_from_days d in
  let '(y', m', dd') := civil_from_days (d + 1) in
  (1 <=? m) && (m <=? 12) && (1 <=? dd) && (dd <=? 31) &&
  match lex_compare [y; m; dd] [y'; m'; dd'] with Lt => true | _ => false end.

Fixpoint days_ascend (n : nat) (d : Z) : bool :=
  match n with
  | O => true
  | S n' => if day_ascends d then days_ascend n' (d + 1) else false
  end.

(** The date of a day, as a list. *)
Definition date_of (d : Z) : list Z :=
  let '(y, m, dd) := civil_from_days d in [y; m; dd].

(** The field [field] of [r] holds a number other than NaN. *)
Definition has_num (field : string) (r : record) : Prop :=
  ∃ f, get r field = VNum f ∧ PrimFloat.is_nan f = false.

(** The rows all hold a string in [field], or all a number other than
    NaN: the keys on which the comparator of [sortByField] is an order. *)
Definition sortable (field : string) (items : list record) : Prop :=
  Forall (has_str field) items ∨ Forall (has_num field) items.

(** The order of two sort keys: strings by code units, numbers as
    [<=] and [<] order them. *)
Definition key_le (x y : value) : bool :=
  match x, y with
  | VStr a, VStr b => String.leb a b
  | VNum a, VNum b => PrimFloat.leb a b
  | _, _ => false
  end.

Definition key_lt (x y : value) : bool :=
  match x, y with
  | VStr a, VStr b => String.ltb a b
  | VNum a, VNum b => PrimFloat.ltb a b
  | _, _ => false
  end.

(** [a] may stand before [b] in a listing by [field], ascending, or
    descending with [desc]. *)
Definition ordered (field : string) (desc : bool) (a b : record) : Prop :=
  (if desc then key_le (get b field) (get a field)
   else key_le (get a field) (get b field)) = true.

(** The key of [a] is strictly below the key of [b]. *)
Definition rising (field : string) (a b : record) : Prop :=
  key_lt (get a field) (get b field) = true.

(** The elements of [items] whose key in [field] is [===] to [v]. *)
Definition tied (field : string) (v : value) (items : list record) : list record :=
  List.filter (λ r, default false (strict_eq (get r field) v)) items.

(** A number other than NaN as sign, exponent and mantissa: the order of
    these triples, first difference first, is the order of the numbers. *)
Definition sf_rank (f : spec_float) : list Z :=
  match f with
  | S754_zero _ => [0; 0; 0]
  | S754_infinity s => [if s then -2 else 2; 0; 0]
  | S754_nan => []
  | S754_finite s m e => if s then [-1; - e; Z.neg m] else [1; e; Z.pos m]
  end.

Definition num_compare (x y : float) : comparison :=
  lex_compare (sf_rank (Prim2SF x)) (sf_rank (Prim2SF y)).

(** [r] was created at the reading [c] of the clock. *)
Definition created_at (w : world) (c : nat) (r : record) : Prop :=
  get r "created_date" = VStr (toISOString (clock w c)).

(** The rows stand in the order of their creation: each was created at a
    reading of the clock made so far, later rows at later readings. *)
Definition in_creation_order (w : world) (rs : list record) : Prop :=
  ∃ cs : list nat,
    Forall2 (created_at w) cs rs ∧ StronglySorted lt cs ∧
    Forall (λ c, (c < ticks w)%nat) cs.

Definition chronological (w : world) : Prop :=
  ∀ table, in_creation_order w (rows w table).

(** Over the readings made so far the clock has not run backwards, and
    it has stayed within the years that [toISOString] prints with four
    digits.  Two readings may show the same millisecond. *)
Definition steady_clock (w : world) : Prop :=
  (∀ i, (i < ticks w)%nat → 0 <= clock w i <= last_ms) ∧
  (∀ i j, (i <= j < ticks w)%nat → clock w i <= clock w j).

(** The call leaves [created_date] to the store. *)
Definition keeps_created (o : op) : Prop :=
  match o with
  | Create _ data => data !! "created_date" = None
  | Update _ _ patch => patch !! "created_date" = None
  | Remove _ _ => True
  end.

(** The object [loadMeta] hands to [getMeta] and [setMeta] in state [s],
    if it is one. *)
Definition meta_object (s : Meta.state) : option object :=
  match (Meta.loadMeta s).1 with
  | Ok (VObj o) => Some o
  | _ => None
  end.

(** A text a label of the prompt reads back: not empty, not starting with
    white space, and on one line. *)
Definition one_line (t : string) : Prop :=
  match t with
  | EmptyString => False
  | String c _ => Llm.is_space c = false
  end ∧
  Forall (λ c, Llm.is_line_end c = false) (list_ascii_of_string t).

(** ** Facts about the embedded library functions *)

Section ArraySort.
Context {A : Type} (cmp : A → A → option comparison).

Lemma insert_sorted_perm x l l' :
  insert_sorted cmp x l = Some l' → l' ≡ₚ x :: l.
Proof.
  revert l'. induction l as [|y l IH]; intros l' H; simpl in H.
  - by inversion H.
  - destruct (cmp x y) as [c|]; simpl in H; [|done].
    destruct c; try (by inversion H).
    destruct (insert_sorted cmp x l) as [l''|]; simpl in H; [|done].
    inversion H; subst. rewrite (IH l'' eq_refl). apply perm_swap.
Qed.

Lemma array_sort_perm l l' : array_sort cmp l = Some l' → l' ≡ₚ l.
Proof.
  revert l'. induction l as [|x l IH]; intros l' H; simpl in H.
  - by inversion H.
  - destruct (array_sort cmp l) as [s|]; simpl in H; [|done].
    rewrite (insert_sorted_perm _ _ _ H). by rewrite (IH s eq_refl).
Qed.

Lemma array_sort_length l l' : array_sort cmp l = Some l' → length l' = length l.
Proof. intros H. by rewrite (array_sort_perm _ _ H). Qed.

(** The comparator answers on every pair of a class [P] of elements. *)
Context (P : A → Prop).
Hypothesis cmp_total : ∀ x y, P x → P y → is_Some (cmp x y).

Lemma insert_sorted_total x l :
  P x → Forall P l → is_Some (insert_sorted cmp x l).
Proof.
  intros Hx Hl. induction Hl as [|y l Hy Hl IH]; simpl; [done|].
  destruct (cmp_total x y Hx Hy) as [c ->]; simpl.
  destruct c; try done. destruct IH as [l'' ->]. done.
Qed.

Lemma array_sort_total l : Forall P l → is_Some (array_sort cmp l).
Proof.
  induction 1 as [|x l Hx Hl IH]; simpl; [done|].
  destruct IH as [s Hs]. rewrite Hs. simpl.
  apply insert_sorted_total; [done|].
  by rewrite (array_sort_perm _ _ Hs).
Qed.

Hypothesis precedes_trans :
  ∀ x y z, P x → P y → P z → precedes cmp x y → precedes cmp y z → precedes cmp x z.
Hypothesis gt_precedes : ∀ x y, P x → P y → cmp x y = Some Gt → precedes cmp y x.

Lemma insert_sorted_sorted x l l' :
  P x → Forall P l → StronglySorted (precedes cmp) l →
  insert_sorted cmp x l = Some l' → StronglySorted (precedes cmp) l'.
Proof.
  intros Hx Hl Hs. revert l'.
  induction Hs as [|y l Hs IH Hy]; intros l' H; simpl in H.
  - inversion H. repeat constructor.
  - apply Forall_cons in Hl as [HPy HPl].
    destruct (cmp x y) as [c|] eqn:Hc; simpl in H; [|done].
    assert (Hfront : precedes cmp x y → StronglySorted (precedes cmp) (x :: y :: l)).
    { intros Hxy. constructor; [by constructor|]. constructor; [done|].
      rewrite Forall_forall in Hy, HPl. apply Forall_forall. intros z Hz.
      apply (precedes_trans x y z); auto. }
    destruct c.
    + inversion H; subst. apply Hfront. by right.
    + inversion H; subst. apply Hfront. by left.
    + destruct (insert_sorted cmp x l) as [l''|] eqn:Hi; simpl in H; [|done].
      inversion H; subst. constructor; [by apply IH|].
      rewrite (insert_sorted_perm _ _ _ Hi). constructor; [|done].
      by apply gt_precedes.
Qed.

Lemma array_sort_sorted l l' :
  Forall P l → array_sort cmp l = Some l' → StronglySorted (precedes cmp) l'.
Proof.
  intros Hl. revert l'. induction Hl as [|x l Hx Hl IH]; intros l' H; simpl in H.
  - inversion H. constructor.
  - destruct (array_sort cmp l) as [s|] eqn:Hs; simpl in H; [|done].
    eapply insert_sorted_sorted; [done| |by apply IH|done].
    by rewrite (array_sort_perm _ _ Hs).
Qed.

End ArraySort.

Section ArraySortStable.
Context {A : Type} (cmp : A → A → option comparison).

(** Stability: the elements of a class [q] whose members the comparator
    calls equal keep their order. *)
Context (q : A → bool).
Hypothesis q_ties : ∀ x y, q x = true → q y = true → cmp x y = Some Eq.

Lemma insert_sorted_stable x l l' :
  insert_sorted cmp x l = Some l' →
  List.filter q l' = List.filter q (x :: l).
Proof.
  revert l'. induction l as [|y l IH]; intros l' H; simpl in H.
  - by inversion H.
  - destruct (cmp x y) as [c|] eqn:Hc; simpl in H; [|done].
    destruct c; try (by inversion H).
    destruct (insert_sorted cmp x l) as [l''|]; simpl in H; [|done].
    inversion H; subst. simpl. rewrite (IH l'' eq_refl). simpl.
    destruct (q x) eqn:Hx, (q y) eqn:Hy; try done.
    rewrite (q_ties x y Hx Hy) in Hc. done.
Qed.

Lemma array_sort_stable l l' :
  array_sort cmp l = Some l' → List.filter q l' = List.filter q l.
Proof.
  revert l'. induction l as [|x l IH]; intros l' H; simpl in H.
  - by inversion H.
  - destruct (array_sort cmp l) as [s|]; simpl in H; [|done].
    rewrite (insert_sorted_stable _ _ _ H). simpl. by rewrite (IH s eq_refl).
Qed.

End ArraySortStable.

(** *** The order of strings *)

Lemma str_leb_iff x y : String.leb x y = true ↔ x = y ∨ String_as_OT.lt x y.
Proof.
  unfold String.leb. destruct (String.compare x y) eqn:H.
  - apply String_as_OT.cmp_eq in H. split; auto.
  - apply String_as_OT.cmp_lt in H. split; auto.
  - split; [done|]. intros [->|Hlt].
    + assert (String_as_OT.cmp y y = Eq) as E by by apply String_as_OT.cmp_eq.
      unfold String_as_OT.cmp in E. congruence.
    + apply String_as_OT.cmp_lt in Hlt. unfold String_as_OT.cmp in Hlt. congruence.
Qed.

Lemma str_ltb_iff x y : String.ltb x y = true ↔ String_as_OT.lt x y.
Proof.
  unfold String.ltb. rewrite <- String_as_OT.cmp_lt. unfold String_as_OT.cmp.
  destruct (String.compare x y); split; congruence.
Qed.

Lemma str_leb_trans x y z :
  String.leb x y = true → String.leb y z = true → String.leb x z = true.
Proof.
  rewrite !str_leb_iff. intros [->|H1] [->|H2]; auto.
  right. eapply String_as_OT.lt_trans; eauto.
Qed.

Lemma str_ltb_irrefl x : String.ltb x x = false.
Proof.
  destruct (String.ltb x x) eqn:H; [|done].
  apply str_ltb_iff in H. by apply String_as_OT.lt_not_eq in H.
Qed.

Lemma str_ltb_leb x y : String.ltb x y = true → String.leb x y = true.
Proof. rewrite str_ltb_iff, str_leb_iff. auto. Qed.

Lemma str_ltb_false_leb x y : String.ltb x y = false → String.leb y x = true.
Proof.
  unfold String.ltb, String.leb. rewrite (String.compare_antisym y x).
  destruct (String.compare x y); simpl; congruence.
Qed.

Lemma str_ltb_neq x y : String.ltb x y = true → String.eqb x y = false.
Proof.
  intros H. destruct (String.eqb_spec x y) as [->|]; [|done].
  by rewrite str_ltb_irrefl in H.
Qed.

Lemma str_ltb_asym x y : String.ltb x y = true → String.ltb y x = false.
Proof.
  intros H. destruct (String.ltb y x) eqn:H'; [|done].
  apply str_ltb_iff in H, H'.
  pose proof (String_as_OT.lt_trans _ _ _ H H') as Hxx.
  by apply String_as_OT.lt_not_eq in Hxx.
Qed.

Lemma string_of_list_ascii_length l :
  String.length (string_of_list_ascii l) = length l.
Proof. induction l as [|c l IH]; simpl; [done|]. by rewrite IH. Qed.

Lemma string_append_length s t :
  String.length (s +:+ t) = (String.length s + String.length t)%nat.
Proof. induction s as [|c s IH]; simpl; [done|]. by rewrite IH. Qed.

(** *** ISO dates stand in the order of their times *)

Lemma days_ascend_era : days_ascend (Z.to_nat 146097) 0 = true.
Proof. vm_compute. reflexivity. Qed.

Lemma days_ascend_spec n d :
  days_ascend n d = true → ∀ k, 0 <= k < Z.of_nat n → day_ascends (d + k) = true.
Proof.
  revert d. induction n as [|n IH]; intros d H k Hk; [lia|].
  simpl in H. destruct (day_ascends d) eqn:Hd; [|done].
  destruct (decide (k = 0)) as [->|Hne]; [by rewrite Z.add_0_r|].
  replace (d + k) with ((d + 1) + (k - 1)) by lia. apply IH; [done|lia].
Qed.

Lemma civil_period d :
  civil_from_days (d + 146097) =
  let '(y, m, dd) := civil_from_days d in (y + 400, m, dd).
Proof.
  unfold civil_from_days.
  replace (d + 146097 + 719468) with (d + 719468 + 1 * 146097) by lia.
  rewrite Z.div_add by lia.
  set (z := d + 719468). set (era := z / 146097).
  replace (z + 1 * 146097 - (era + 1) * 146097) with (z - era * 146097) by lia.
  set (doe := z - era * 146097).
  set (yoe := (doe - doe / 1460 + doe / 36524 - doe / 146096) / 365).
  set (doy := doe - (365 * yoe + yoe / 4 - yoe / 100)).
  set (mp := (5 * doy + 2) / 153).
  cbv zeta. do 2 f_equal. lia.
Qed.

Lemma civil_periods q d :
  0 <= q →
  civil_from_days (d + 146097 * q) =
  let '(y, m, dd) := civil_from_days d in (y + 400 * q, m, dd).
Proof.
  intros Hq. revert d. pattern q. apply natlike_ind; [| |exact Hq].
  - intros d. rewrite Z.mul_0_r, Z.add_0_r. destruct (civil_from_days d) as [[y m] dd].
    f_equal. f_equal. lia.
  - intros x Hx IH d.
    replace (d + 146097 * Z.succ x) with ((d + 146097 * x) + 146097) by lia.
    rewrite civil_period, IH. destruct (civil_from_days d) as [[y m] dd].
    f_equal. f_equal. lia.
Qed.

Lemma day_ascends_all d : 0 <= d → day_ascends d = true.
Proof.
  intros Hd.
  pose proof (Z.div_mod d 146097 ltac:(lia)) as Hdm.
  pose proof (Z.mod_pos_bound d 146097 ltac:(lia)) as Hr.
  set (q := d / 146097) in *. set (r := d mod 146097) in *.
  assert (Hq : 0 <= q) by (apply Z.div_pos; lia).
  pose proof (days_ascend_spec _ _ days_ascend_era r ltac:(lia)) as Hera.
  rewrite Z.add_0_l in Hera. unfold day_ascends in *.
  replace d with (r + 146097 * q) by lia.
  replace (r + 146097 * q + 1) with ((r + 1) + 146097 * q) by lia.
  rewrite !civil_periods by done.
  destruct (civil_from_days r) as [[y m] dd], (civil_from_days (r + 1)) as [[y' m'] dd'].
  apply andb_true_iff in Hera as [Hrange Hlex]. rewrite Hrange. simpl in *.
  destruct (Z.compare_spec y y'); destruct (Z.compare_spec (y + 400 * q) (y' + 400 * q));
    try lia; done.
Qed.

Lemma lex_compare_trans xs ys zs :
  lex_compare xs ys = Lt → lex_compare ys zs = Lt → lex_compare xs zs = Lt.
Proof.
  revert ys zs. induction xs as [|x xs IH]; intros [|y ys] [|z zs]; simpl; try done.
  destruct (Z.compare_spec x y), (Z.compare_spec y z), (Z.compare_spec x z);
    try lia; try done. apply IH.
Qed.

Lemma lex_compare_refl xs : lex_compare xs xs = Eq.
Proof. induction xs as [|x xs IH]; simpl; [done|]. by rewrite Z.compare_refl. Qed.

Lemma date_next d : 0 <= d → lex_compare (date_of d) (date_of (d + 1)) = Lt.
Proof.
  intros Hd. pose proof (day_ascends_all d Hd) as H. unfold day_ascends, date_of in *.
  destruct (civil_from_days d) as [[y m] dd], (civil_from_days (d + 1)) as [[y' m'] dd'].
  apply andb_true_iff in H as [_ H]. by destruct (lex_compare _ _).
Qed.

Lemma date_monotone d1 d2 :
  0 <= d1 → d1 < d2 → lex_compare (date_of d1) (date_of d2) = Lt.
Proof.
  intros H1 H12.
  assert (H : ∀ n : nat, lex_compare (date_of d1) (date_of (d1 + 1 + Z.of_nat n)) = Lt).
  { induction n as [|n IH].
    - rewrite Z.add_0_r. by apply date_next.
    - eapply lex_compare_trans; [exact IH|].
      replace (d1 + 1 + Z.of_nat (S n)) with ((d1 + 1 + Z.of_nat n) + 1) by lia.
      apply date_next. lia. }
  specialize (H (Z.to_nat (d2 - d1 - 1))).
  by replace (d1 + 1 + Z.of_nat (Z.to_nat (d2 - d1 - 1))) with d2 in H by lia.
Qed.

Lemma date_range d y m dd :
  0 <= d → d <= 2932896 → civil_from_days d = (y, m, dd) →
  0 <= y <= 9999 ∧ 1 <= m <= 12 ∧ 1 <= dd <= 31.
Proof.
  intros H0 H1 Hc.
  pose proof (day_ascends_all d H0) as H. unfold day_ascends in H. rewrite Hc in H.
  destruct (civil_from_days (d + 1)) as [[y' m'] dd'].
  apply andb_true_iff in H as [H _]. rewrite !andb_true_iff in H.
  split; [|lia].
  assert (Hlo : 1970 <= y).
  { destruct (decide (d = 0)) as [->|Hne]; [vm_compute in Hc; injection Hc; lia|].
    pose proof (date_monotone 0 d ltac:(lia) ltac:(lia)) as Hm.
    unfold date_of in Hm. rewrite Hc in Hm.
    change (civil_from_days 0) with (1970, 1, 1) in Hm.
    cbn [lex_compare] in Hm. destruct (Z.compare_spec 1970 y); try lia; done. }
  assert (Hhi : y <= 9999).
  { destruct (decide (d = 2932896)) as [->|Hne]; [vm_compute in Hc; injection Hc; lia|].
    pose proof (date_monotone d 2932896 ltac:(lia) ltac:(lia)) as Hm.
    unfold date_of in Hm. rewrite Hc in Hm.
    change (civil_from_days 2932896) with (9999, 12, 31) in Hm.
    cbn [lex_compare] in Hm. destruct (Z.compare_spec y 9999); try lia; done. }
  lia.
Qed.

Lemma digits_length w n : String.length (digits w n) = w.
Proof.
  revert n. induction w as [|w IH]; intros n; simpl; [done|].
  rewrite string_append_length, IH. simpl. lia.
Qed.

Lemma compare_app a b x y :
  String.length a = String.length b →
  String.compare (a +:+ x) (b +:+ y) =
  match String.compare a b with Eq => String.compare x y | c => c end.
Proof.
  revert b. induction a as [|c a IH]; intros [|c' b] Hl; simpl in *; try done.
  destruct (Ascii.compare c c'); try done. apply IH. lia.
Qed.

Lemma digit_compare a b :
  0 <= a <= 9 → 0 <= b <= 9 →
  Ascii.compare (ascii_of_nat (48 + Z.to_nat a)) (ascii_of_nat (48 + Z.to_nat b)) = (a ?= b).
Proof.
  intros Ha Hb.
  assert (Hcases : ∀ x, 0 <= x <= 9 →
            x = 0 ∨ x = 1 ∨ x = 2 ∨ x = 3 ∨ x = 4 ∨ x = 5 ∨ x = 6 ∨ x = 7 ∨ x = 8 ∨ x = 9)
    by (intros; lia).
  destruct (Hcases a Ha) as [->|[->|[->|[->|[->|[->|[->|[->|[->| ->]]]]]]]]];
  destruct (Hcases b Hb) as [->|[->|[->|[->|[->|[->|[->|[->|[->| ->]]]]]]]]];
  reflexivity.
Qed.

Lemma compare_single c c' :
  String.compare (String c "") (String c' "") = Ascii.compare c c'.
Proof. unfold String.compare. by destruct (Ascii.compare c c'). Qed.

Lemma digits_compare w a b :
  0 <= a < 10 ^ Z.of_nat w → 0 <= b < 10 ^ Z.of_nat w →
  String.compare (digits w a) (digits w b) = (a ?= b).
Proof.
  revert a b. induction w as [|w IH]; intros a b Ha Hb.
  - simpl in *. assert (a = 0) as -> by lia. assert (b = 0) as -> by lia. done.
  - rewrite Nat2Z.inj_succ, Z.pow_succ_r in Ha, Hb by lia.
    change (digits (S w) a) with
      (digits w (a / 10) +:+ String (ascii_of_nat (48 + Z.to_nat (a mod 10))) "").
    change (digits (S w) b) with
      (digits w (b / 10) +:+ String (ascii_of_nat (48 + Z.to_nat (b mod 10))) "").
    rewrite compare_app by (by rewrite !digits_length).
    rewrite IH by (split; [apply Z.div_pos; lia|apply Z.div_lt_upper_bound; lia]).
    pose proof (Z.div_mod a 10 ltac:(lia)) as Ea.
    pose proof (Z.div_mod b 10 ltac:(lia)) as Eb.
    pose proof (Z.mod_pos_bound a 10 ltac:(lia)) as Ra.
    pose proof (Z.mod_pos_bound b 10 ltac:(lia)) as Rb.
    rewrite compare_single, digit_compare by lia.
    destruct (Z.compare_spec (a / 10) (b / 10)), (Z.compare_spec (a mod 10) (b mod 10)),
             (Z.compare_spec a b); try lia; done.
Qed.

Lemma compare_digits_field w a b R1 R2 :
  0 <= a < 10 ^ Z.of_nat w → 0 <= b < 10 ^ Z.of_nat w →
  String.compare (digits w a +:+ R1) (digits w b +:+ R2) =
  match a ?= b with Eq => String.compare R1 R2 | c => c end.
Proof.
  intros Ha Hb. rewrite compare_app by (by rewrite !digits_length).
  by rewrite digits_compare.
Qed.

Lemma compare_sep c x y :
  String.compare (String c "" +:+ x) (String c "" +:+ y) = String.compare x y.
Proof.
  change (String c "" +:+ x) with (String c x). change (String c "" +:+ y) with (String c y).
  unfold String.compare at 1. fold String.compare.
  assert (H : Ascii.compare c c = Eq) by (unfold Ascii.compare; apply N.compare_refl).
  by rewrite H.
Qed.

Lemma lex_compare_cons x y xs ys :
  lex_compare (x :: xs) (y :: ys) =
  match x ?= y with Eq => lex_compare xs ys | c => c end.
Proof. reflexivity. Qed.

Lemma toISOString_compare a b :
  0 <= a <= last_ms → 0 <= b <= last_ms →
  String.compare (toISOString a) (toISOString b) = lex_compare (iso_fields a) (iso_fields b).
Proof.
  unfold last_ms. intros Ha Hb. unfold toISOString, iso_fields.
  assert (Hda : 0 <= a / 86400000 <= 2932896).
  { split; [apply Z.div_pos; lia|].
    assert (a / 86400000 < 2932897) by (apply Z.div_lt_upper_bound; lia). lia. }
  assert (Hdb : 0 <= b / 86400000 <= 2932896).
  { split; [apply Z.div_pos; lia|].
    assert (b / 86400000 < 2932897) by (apply Z.div_lt_upper_bound; lia). lia. }
  destruct (civil_from_days (a / 86400000)) as [[y m] d] eqn:Ca.
  destruct (civil_from_days (b / 86400000)) as [[y' m'] d'] eqn:Cb.
  destruct (date_range _ _ _ _ (proj1 Hda) (proj2 Hda) Ca) as (Hy & Hm & Hd).
  destruct (date_range _ _ _ _ (proj1 Hdb) (proj2 Hdb) Cb) as (Hy' & Hm' & Hd').
  replace ((0 <=? y) && (y <=? 9999)) with true by (symmetry; apply andb_true_iff; lia).
  replace ((0 <=? y') && (y' <=? 9999)) with true by (symmetry; apply andb_true_iff; lia).
  pose proof (Z.mod_pos_bound a 86400000 ltac:(lia)) as Ta.
  pose proof (Z.mod_pos_bound b 86400000 ltac:(lia)) as Tb.
  set (ta := a mod 86400000) in *. set (tb := b mod 86400000) in *.
  assert (Hh : ∀ t, 0 <= t < 86400000 → 0 <= t / 3600000 < 10 ^ Z.of_nat 2).
  { intros t Ht. split; [apply Z.div_pos; lia|]. apply Z.div_lt_upper_bound; lia. }
  assert (H60 : ∀ t, 0 <= t mod 60 < 10 ^ Z.of_nat 2).
  { intros t. pose proof (Z.mod_pos_bound t 60 ltac:(lia)). simpl. lia. }
  assert (H1000 : ∀ t, 0 <= t mod 1000 < 10 ^ Z.of_nat 3).
  { intros t. pose proof (Z.mod_pos_bound t 1000 ltac:(lia)). simpl. lia. }
  rewrite !lex_compare_cons.
  rewrite (compare_digits_field 4) by (simpl; lia).
  destruct (y ?= y'); try done. rewrite compare_sep.
  rewrite (compare_digits_field 2) by (simpl; lia).
  destruct (m ?= m'); try done. rewrite compare_sep.
  rewrite (compare_digits_field 2) by (simpl; lia).
  destruct (d ?= d'); try done. rewrite compare_sep.
  rewrite (compare_digits_field 2) by (by apply Hh).
  destruct (ta / 3600000 ?= tb / 3600000); try done. rewrite compare_sep.
  rewrite (compare_digits_field 2) by apply H60.
  destruct (ta / 60000 mod 60 ?= tb / 60000 mod 60); try done. rewrite compare_sep.
  rewrite (compare_digits_field 2) by apply H60.
  destruct (ta / 1000 mod 60 ?= tb / 1000 mod 60); try done. rewrite compare_sep.
  rewrite (compare_digits_field 3) by apply H1000.
  destruct (ta mod 1000 ?= tb mod 1000); done.
Qed.

Lemma compare_div_mod k a b :
  0 < k →
  (a ?= b) = match a / k ?= b / k with Eq => a mod k ?= b mod k | c => c end.
Proof.
  intros Hk.
  pose proof (Z.div_mod a k ltac:(lia)) as Ea. pose proof (Z.div_mod b k ltac:(lia)) as Eb.
  pose proof (Z.mod_pos_bound a k Hk) as Ra. pose proof (Z.mod_pos_bound b k Hk) as Rb.
  destruct (Z.compare_spec (a / k) (b / k)) as [E|L|G].
  - rewrite Ea, Eb, E at 1. destruct (Z.compare_spec (a mod k) (b mod k));
      destruct (Z.compare_spec (k * (b / k) + a mod k) (k * (b / k) + b mod k)); try lia; done.
  - apply Z.compare_lt_iff. nia.
  - apply Z.compare_gt_iff. nia.
Qed.

Lemma time_fields_compare t1 t2 :
  0 <= t1 → 0 <= t2 →
  lex_compare [t1 / 3600000; t1 / 60000 mod 60; t1 / 1000 mod 60; t1 mod 1000]
              [t2 / 3600000; t2 / 60000 mod 60; t2 / 1000 mod 60; t2 mod 1000]
  = (t1 ?= t2).
Proof.
  intros H1 H2.
  assert (Hm : ∀ t, t / 60000 mod 60 = t mod 3600000 / 60000).
  { intros t. change 3600000 with (60000 * 60). rewrite Z.rem_mul_r by lia.
    rewrite Z.mul_comm, Z.div_add by lia.
    rewrite (Z.div_small (t mod 60000)) by (apply Z.mod_pos_bound; lia). lia. }
  assert (Hs : ∀ t, t / 1000 mod 60 = t mod 60000 / 1000).
  { intros t. change 60000 with (1000 * 60). rewrite Z.rem_mul_r by lia.
    rewrite Z.mul_comm, Z.div_add by lia.
    rewrite (Z.div_small (t mod 1000)) by (apply Z.mod_pos_bound; lia). lia. }
  assert (Hmm : ∀ t, t mod 3600000 mod 60000 = t mod 60000).
  { intros t. change 3600000 with (60000 * 60).
    rewrite Z.rem_mul_r by lia. rewrite Z.mul_comm, Z.mod_add by lia.
    apply Z.mod_mod. lia. }
  assert (Hms : ∀ t, t mod 60000 mod 1000 = t mod 1000).
  { intros t. change 60000 with (1000 * 60).
    rewrite Z.rem_mul_r by lia. rewrite Z.mul_comm, Z.mod_add by lia.
    apply Z.mod_mod. lia. }
  cbn [lex_compare]. rewrite !Hm, !Hs.
  rewrite (compare_div_mod 3600000 t1 t2) by lia.
  destruct (t1 / 3600000 ?= t2 / 3600000); try done.
  rewrite (compare_div_mod 60000 (t1 mod 3600000) (t2 mod 3600000)) by lia.
  destruct (t1 mod 3600000 / 60000 ?= t2 mod 3600000 / 60000); try done.
  rewrite !Hmm.
  rewrite (compare_div_mod 1000 (t1 mod 60000) (t2 mod 60000)) by lia.
  destruct (t1 mod 60000 / 1000 ?= t2 mod 60000 / 1000); try done.
  rewrite !Hms. by destruct (t1 mod 1000 ?= t2 mod 1000).
Qed.

Lemma lex_compare_antisym xs ys : lex_compare ys xs = CompOpp (lex_compare xs ys).
Proof.
  revert ys. induction xs as [|x xs IH]; intros [|y ys]; simpl; try done.
  rewrite (Z.compare_antisym x y). destruct (x ?= y); simpl; done.
Qed.

Lemma iso_fields_compare a b :
  0 <= a → 0 <= b → lex_compare (iso_fields a) (iso_fields b) = (a ?= b).
Proof.
  intros Ha Hb.
  assert (Hlt : ∀ x y, 0 <= x → 0 <= y → x / 86400000 < y / 86400000 →
                       lex_compare (iso_fields x) (iso_fields y) = Lt ∧ x < y).
  { intros x y Hx Hy Hd. split.
    - pose proof (date_monotone _ _ (Z.div_pos x 86400000 Hx ltac:(lia)) Hd) as Hm.
      unfold iso_fields, date_of in *.
      destruct (civil_from_days (x / 86400000)) as [[y1 m1] d1].
      destruct (civil_from_days (y / 86400000)) as [[y2 m2] d2].
      cbn [lex_compare] in *.
      destruct (y1 ?= y2); try done. destruct (m1 ?= m2); try done.
      by destruct (d1 ?= d2).
    - pose proof (Z.div_mod x 86400000 ltac:(lia)). pose proof (Z.div_mod y 86400000 ltac:(lia)).
      pose proof (Z.mod_pos_bound x 86400000 ltac:(lia)).
      pose proof (Z.mod_pos_bound y 86400000 ltac:(lia)). nia. }
  destruct (Z.lt_trichotomy (a / 86400000) (b / 86400000)) as [L|[E|G]].
  - destruct (Hlt a b Ha Hb L) as [-> Hab]. symmetry. by apply Z.compare_lt_iff.
  - rewrite (compare_div_mod 86400000 a b) by lia. rewrite E, Z.compare_refl.
    unfold iso_fields. rewrite E.
    destruct (civil_from_days (b / 86400000)) as [[y m] d].
    cbn [lex_compare]. rewrite !Z.compare_refl.
    apply time_fields_compare; apply Z.mod_pos_bound; lia.
  - destruct (Hlt b a Hb Ha G) as [Hl Hba].
    rewrite lex_compare_antisym, Hl. symmetry. apply Z.compare_gt_iff. lia.
Qed.

(** Between 1970 and the end of the year 9999 the strings of
    [toISOString] stand in the order of the times they print. *)
Lemma toISOString_order a b :
  0 <= a <= last_ms → 0 <= b <= last_ms →
  String.compare (toISOString a) (toISOString b) = (a ?= b).
Proof.
  intros Ha Hb. rewrite toISOString_compare by done. apply iso_fields_compare; lia.
Qed.

(** *** Sorting records on a field that holds strings *)

Lemma compareField_str field desc a b x y :
  get a field = VStr x → get b field = VStr y →
  compareField field desc a b =
    Some (if String.eqb x y then Eq
          else if xorb (String.ltb y x) desc then Gt else Lt).
Proof.
  intros Ha Hb. unfold compareField. rewrite Ha, Hb. simpl.
  destruct (String.eqb x y); [done|]. simpl.
  by destruct (String.ltb y x), desc.
Qed.

Lemma compareField_total field desc a b :
  has_str field a → has_str field b → is_Some (compareField field desc a b).
Proof.
  intros [x Hx] [y Hy]. rewrite (compareField_str _ _ _ _ _ _ Hx Hy). done.
Qed.

Lemma precedes_field_le field desc a b :
  has_str field a → has_str field b →
  precedes (compareField field desc) a b ↔ field_le field desc a b.
Proof.
  intros [x Hx] [y Hy]. unfold precedes, field_le.
  rewrite (compareField_str _ _ _ _ _ _ Hx Hy).
  assert (Hle : (if desc then String.leb y x else String.leb x y) = true ↔
                String.eqb x y = true ∨ xorb (String.ltb y x) desc = false).
  { destruct (String.eqb_spec x y) as [->|Hne].
    - split; [auto|]. intros _. destruct desc; apply str_leb_iff; auto.
    - destruct desc; simpl.
      + destruct (String.ltb y x) eqn:Hlt; simpl.
        * split; [auto|]. intros _. by apply str_ltb_leb.
        * split; [|intros [?|?]; done]. intros Hl. apply str_leb_iff in Hl as [->|Hl]; [done|].
          apply str_ltb_iff in Hl. congruence.
      + destruct (String.ltb y x) eqn:Hlt; simpl.
        * split; [|intros [?|?]; done]. intros Hl. apply str_leb_iff in Hl as [->|Hl]; [done|].
          apply str_ltb_iff in Hl. apply str_ltb_asym in Hl. congruence.
        * split; [auto|]. intros _. by apply str_ltb_false_leb. }
  split.
  - intros H. exists x, y. split; [done|]. split; [done|]. apply Hle.
    destruct (String.eqb x y); [by left|right].
    destruct (xorb (String.ltb y x) desc); [|done].
    destruct H as [H|H]; inversion H.
  - intros (x' & y' & Hx' & Hy' & H). rewrite Hx in Hx'. rewrite Hy in Hy'.
    inversion Hx'; inversion Hy'; subst x' y'. apply Hle in H.
    destruct (String.eqb x y); [by right|]. destruct H as [H|H]; [done|].
    rewrite H. by left.
Qed.

Lemma field_le_trans field desc a b c :
  field_le field desc a b → field_le field desc b c → field_le field desc a c.
Proof.
  intros (x & y & Hx & Hy & H1) (y' & z & Hy' & Hz & H2).
  rewrite Hy in Hy'. inversion Hy'; subst y'.
  exists x, z. split; [done|]. split; [done|].
  destruct desc; eauto using str_leb_trans.
Qed.

Lemma compareField_gt_flip field desc a b :
  has_str field a → has_str field b →
  compareField field desc a b = Some Gt → precedes (compareField field desc) b a.
Proof.
  intros Ha Hb H. apply precedes_field_le; [done..|].
  destruct Ha as [x Hx], Hb as [y Hy].
  rewrite (compareField_str _ _ _ _ _ _ Hx Hy) in H.
  exists y, x. split; [done|]. split; [done|].
  destruct (String.eqb x y); [done|].
  destruct (String.ltb y x) eqn:Hlt, desc; simpl in H; try done.
  - by apply str_ltb_leb.
  - by apply str_ltb_false_leb.
Qed.

Lemma sortByField_strings items sort :
  sort ≠ "" →
  Forall (has_str (sort_field sort)) items →
  ∃ l, sortByField items sort = Some l ∧
       l ≡ₚ items ∧
       StronglySorted (field_le (sort_field sort) (sort_desc sort)) l ∧
       ∀ k, with_key (sort_field sort) k l = with_key (sort_field sort) k items.
Proof.
  intros Hne Hstr. unfold sortByField.
  destruct (String.eqb_spec sort "") as [|_]; [done|].
  set (field := sort_field sort). set (desc := sort_desc sort).
  destruct (array_sort_total (compareField field desc) (has_str field)
              (compareField_total field desc) items Hstr) as [l Hl].
  exists l. split; [done|].
  pose proof (array_sort_perm _ _ _ Hl) as Hperm. split; [done|]. split.
  - assert (Hs : StronglySorted (precedes (compareField field desc)) l).
    { eapply (array_sort_sorted (compareField field desc) (has_str field));
        [| |exact Hstr|exact Hl].
      - intros x y z Hx Hy Hz H1 H2. apply precedes_field_le; [done..|].
        apply precedes_field_le in H1, H2; [|done..].
        eapply field_le_trans; eauto.
      - intros x y Hx Hy. by apply compareField_gt_flip. }
    assert (Hall : Forall (has_str field) l) by by rewrite Hperm.
    clear Hl Hperm. induction Hs as [|a l Hs IH Ha]; [constructor|].
    apply Forall_cons in Hall as [HPa HPl]. constructor; [by apply IH|].
    rewrite Forall_forall in Ha, HPl. apply Forall_forall. intros b Hb.
    apply precedes_field_le; auto.
  - intros k. apply (array_sort_stable (compareField field desc)); [|done].
    intros x y Hx Hy. unfold is_str in Hx, Hy.
    destruct (get x field) as [| | | |sx| |] eqn:Ex; try done.
    destruct (get y field) as [| | | |sy| |] eqn:Ey; try done.
    rewrite (compareField_str _ _ _ _ _ _ Ex Ey).
    apply String.eqb_eq in Hx, Hy. subst. by rewrite String.eqb_refl.
Qed.

(** *** The store operations, step by step *)

Lemma same_store_refl w : same_store w w.
Proof. by repeat split. Qed.

Lemma same_store_trans w1 w2 w3 :
  same_store w1 w2 → same_store w2 w3 → same_store w1 w3.
Proof.
  intros (R1 & C1 & T1 & U1 & D1) (R2 & C2 & T2 & U2 & D2).
  split; [intros t; by rewrite R2, R1|]. repeat split; congruence.
Qed.

Lemma rows_with_table w table rs t d table' :
  rows (with_table w table rs t d) table' =
  if decide (table = table') then rs else rows w table'.
Proof.
  unfold rows, with_table; simpl. case_decide as H.
  - subst. by rewrite lookup_insert_eq.
  - by rewrite lookup_insert_ne.
Qed.

(** *** The order of numbers *)

Lemma lex_compare_le_trans xs ys zs :
  lex_compare xs ys ≠ Gt → lex_compare ys zs ≠ Gt → lex_compare xs zs ≠ Gt.
Proof.
  revert ys zs. induction xs as [|x xs IH]; intros [|y ys] [|z zs]; simpl; try done.
  destruct (Z.compare_spec x y), (Z.compare_spec y z), (Z.compare_spec x z);
    try lia; try done. apply IH.
Qed.

Lemma lex_compare_eq_trans xs ys zs :
  lex_compare xs ys = Eq → lex_compare ys zs = Eq → lex_compare xs zs = Eq.
Proof.
  revert ys zs. induction xs as [|x xs IH]; intros [|y ys] [|z zs]; simpl; try done.
  destruct (Z.compare_spec x y), (Z.compare_spec y z), (Z.compare_spec x z);
    try lia; try done. apply IH.
Qed.

Lemma SFcompare_rank x y :
  x ≠ S754_nan → y ≠ S754_nan →
  SFcompare x y = Some (lex_compare (sf_rank x) (sf_rank y)).
Proof.
  intros Hx Hy.
  destruct x as [sx|sx| |sx mx ex], y as [sy|sy| |sy my ey]; try done;
    try (by destruct sx); try (by destruct sy); try (by destruct sx, sy).
  destruct sx, sy; simpl; try done.
  - rewrite Z.compare_opp. rewrite (Z.compare_antisym ex ey).
    destruct (ex ?= ey); simpl; try done.
    change (PosDef.Pos.compare_cont Eq mx my) with (mx ?= my)%positive.
    by destruct (mx ?= my)%positive.
  - destruct (ex ?= ey); simpl; try done.
    change (PosDef.Pos.compare_cont Eq mx my) with (mx ?= my)%positive.
    by destruct (mx ?= my)%positive.
Qed.

Lemma not_nan_spec x : PrimFloat.is_nan x = false ↔ Prim2SF x ≠ S754_nan.
Proof.
  unfold PrimFloat.is_nan. rewrite FloatAxioms.eqb_spec. unfold SFeqb. split.
  - intros H E. rewrite E in H. done.
  - intros H. by rewrite SFcompare_rank, lex_compare_refl.
Qed.

Lemma num_eqb x y :
  PrimFloat.is_nan x = false → PrimFloat.is_nan y = false →
  PrimFloat.eqb x y = match num_compare x y with Eq => true | _ => false end.
Proof.
  intros Hx%not_nan_spec Hy%not_nan_spec.
  rewrite FloatAxioms.eqb_spec. unfold SFeqb. by rewrite SFcompare_rank.
Qed.

Lemma num_ltb x y :
  PrimFloat.is_nan x = false → PrimFloat.is_nan y = false →
  PrimFloat.ltb x y = match num_compare x y with Lt => true | _ => false end.
Proof.
  intros Hx%not_nan_spec Hy%not_nan_spec.
  rewrite FloatAxioms.ltb_spec. unfold SFltb. by rewrite SFcompare_rank.
Qed.

Lemma num_leb x y :
  PrimFloat.is_nan x = false → PrimFloat.is_nan y = false →
  PrimFloat.leb x y = match num_compare x y with Gt => false | _ => true end.
Proof.
  intros Hx%not_nan_spec Hy%not_nan_spec.
  rewrite FloatAxioms.leb_spec. unfold SFleb. rewrite SFcompare_rank by done.
  unfold num_compare. by destruct (lex_compare _ _).
Qed.

Lemma num_compare_antisym x y : num_compare y x = CompOpp (num_compare x y).
Proof. apply lex_compare_antisym. Qed.

(** A comparison with NaN is false. *)
Lemma ltb_not_nan x y :
  PrimFloat.ltb x y = true → PrimFloat.is_nan x = false ∧ PrimFloat.is_nan y = false.
Proof.
  rewrite FloatAxioms.ltb_spec, !not_nan_spec. unfold SFltb.
  intros H. split; intros E; rewrite E in H; [done|].
  by destruct (Prim2SF x).
Qed.

Lemma eqb_not_nan x y :
  PrimFloat.eqb x y = true → PrimFloat.is_nan x = false ∧ PrimFloat.is_nan y = false.
Proof.
  rewrite FloatAxioms.eqb_spec, !not_nan_spec. unfold SFeqb.
  intros H. split; intros E; rewrite E in H; [done|].
  by destruct (Prim2SF x).
Qed.

Lemma num_eqb_trans x y v :
  PrimFloat.eqb x v = true → PrimFloat.eqb y v = true → PrimFloat.eqb x y = true.
Proof.
  intros Hx Hy.
  destruct (eqb_not_nan _ _ Hx) as [Nx Nv], (eqb_not_nan _ _ Hy) as [Ny _].
  rewrite num_eqb in Hx, Hy |- * by done.
  assert (num_compare x v = Eq) as E1 by by destruct (num_compare x v).
  assert (num_compare v y = Eq) as E2.
  { rewrite num_compare_antisym. by destruct (num_compare y v). }
  unfold num_compare in *. by rewrite (lex_compare_eq_trans _ _ _ E1 E2).
Qed.

Lemma num_leb_trans x y z :
  PrimFloat.is_nan x = false → PrimFloat.is_nan y = false → PrimFloat.is_nan z = false →
  PrimFloat.leb x y = true → PrimFloat.leb y z = true → PrimFloat.leb x z = true.
Proof.
  intros Nx Ny Nz. rewrite !num_leb by done. intros H1 H2.
  assert (num_compare x z ≠ Gt) as H.
  { apply (lex_compare_le_trans _ (sf_rank (Prim2SF y))).
    - fold (num_compare x y). by destruct (num_compare x y).
    - fold (num_compare y z). by destruct (num_compare y z). }
  by destruct (num_compare x z).
Qed.

(** *** Sorting records on a field that holds numbers *)

Lemma compareField_num field desc a b x y :
  get a field = VNum x → get b field = VNum y →
  PrimFloat.is_nan x = false → PrimFloat.is_nan y = false →
  compareField field desc a b =
    Some (if desc then CompOpp (num_compare x y) else num_compare x y).
Proof.
  intros Ha Hb Nx Ny. unfold compareField. rewrite Ha, Hb. simpl.
  rewrite num_eqb, num_ltb by done. rewrite (num_compare_antisym x y).
  by destruct (num_compare x y), desc.
Qed.

Lemma precedes_ordered_num field desc a b :
  has_num field a → has_num field b →
  precedes (compareField field desc) a b ↔ ordered field desc a b.
Proof.
  intros (x & Hx & Nx) (y & Hy & Ny). unfold precedes, ordered.
  rewrite (compareField_num _ _ _ _ _ _ Hx Hy Nx Ny), Hx, Hy. simpl.
  rewrite !num_leb by done. rewrite (num_compare_antisym x y).
  destruct (num_compare x y), desc; simpl; naive_solver.
Qed.

Lemma ordered_trans_num field desc a b c :
  has_num field a → has_num field b → has_num field c →
  ordered field desc a b → ordered field desc b c → ordered field desc a c.
Proof.
  intros (x & Hx & Nx) (y & Hy & Ny) (z & Hz & Nz). unfold ordered.
  rewrite Hx, Hy, Hz. simpl. destruct desc; eauto using num_leb_trans.
Qed.

Lemma compareField_gt_flip_num field desc a b :
  has_num field a → has_num field b →
  compareField field desc a b = Some Gt → precedes (compareField field desc) b a.
Proof.
  intros (x & Hx & Nx) (y & Hy & Ny).
  unfold precedes.
  rewrite (compareField_num _ _ _ _ _ _ Hx Hy Nx Ny),
          (compareField_num _ _ _ _ _ _ Hy Hx Ny Nx), (num_compare_antisym x y).
  destruct (num_compare x y), desc; simpl; naive_solver.
Qed.

(** *** Sorting records on a field of strings or of numbers *)

Lemma field_le_ordered field desc a b : field_le field desc a b → ordered field desc a b.
Proof.
  intros (x & y & Hx & Hy & H). unfold ordered. rewrite Hx, Hy. by destruct desc.
Qed.

(** Rows whose keys are [===] to one value are ties for the comparator,
    whatever the value. *)
Lemma tied_ties field desc v a b :
  strict_eq (get a field) v = Some true → strict_eq (get b field) v = Some true →
  compareField field desc a b = Some Eq.
Proof.
  unfold compareField.
  destruct (get a field) as [| |x|x|x|x|x], v as [| |z|z|z|z|z]; simpl; try done;
    destruct (get b field) as [| |y|y|y|y|y]; simpl; try done; intros [= Hx] [= Hy].
  - apply Bool.eqb_prop in Hx, Hy. subst. by rewrite Bool.eqb_reflx.
  - by rewrite (num_eqb_trans _ _ _ Hx Hy).
  - apply String.eqb_eq in Hx, Hy. subst. by rewrite String.eqb_refl.
Qed.

Lemma sortByField_tied items sort l v :
  sort ≠ "" → sortByField items sort = Some l →
  tied (sort_field sort) v l = tied (sort_field sort) v items.
Proof.
  intros Hne. unfold sortByField. destruct (String.eqb_spec sort "") as [|_]; [done|].
  intros Hl. unfold tied.
  apply (array_sort_stable (compareField (sort_field sort) (sort_desc sort))); [|done].
  intros x y Hx Hy. apply (tied_ties _ _ v).
  - by destruct (strict_eq (get x _) v) as [[|]|].
  - by destruct (strict_eq (get y _) v) as [[|]|].
Qed.

Lemma StronglySorted_weaken {A} (R S : A → A → Prop) (P : A → Prop) l :
  (∀ x y, P x → P y → R x y → S x y) → Forall P l →
  StronglySorted R l → StronglySorted S l.
Proof.
  intros HRS HP Hs. induction Hs as [|a l Hs IH Ha]; [constructor|].
  apply Forall_cons in HP as [HPa HPl]. constructor; [by apply IH|].
  rewrite Forall_forall in Ha, HPl. apply Forall_forall. intros b Hb.
  apply HRS; auto.
Qed.

Lemma sortByField_numbers items sort :
  sort ≠ "" →
  Forall (has_num (sort_field sort)) items →
  ∃ l, sortByField items sort = Some l ∧ l ≡ₚ items ∧
       StronglySorted (ordered (sort_field sort) (sort_desc sort)) l.
Proof.
  intros Hne Hnum. unfold sortByField.
  destruct (String.eqb_spec sort "") as [|_]; [done|].
  set (field := sort_field sort). set (desc := sort_desc sort).
  assert (Htotal : ∀ x y, has_num field x → has_num field y →
                           is_Some (compareField field desc x y)).
  { intros x y (fx & Hx & Nx) (fy & Hy & Ny).
    by rewrite (compareField_num _ _ _ _ _ _ Hx Hy Nx Ny). }
  destruct (array_sort_total (compareField field desc) (has_num field) Htotal items Hnum)
    as [l Hl].
  exists l. split; [done|].
  pose proof (array_sort_perm _ _ _ Hl) as Hperm. split; [done|].
  assert (Hs : StronglySorted (precedes (compareField field desc)) l).
  { eapply (array_sort_sorted (compareField field desc) (has_num field));
      [| |exact Hnum|exact Hl].
    - intros x y z Hx Hy Hz H1 H2. apply precedes_ordered_num; [done..|].
      apply precedes_ordered_num in H1, H2; [|done..].
      by eapply (ordered_trans_num _ _ x y z).
    - intros x y Hx Hy. by apply compareField_gt_flip_num. }
  eapply (StronglySorted_weaken _ _ (has_num field)); [| |exact Hs].
  - intros x y Hx Hy. by apply precedes_ordered_num.
  - by rewrite Hperm.
Qed.

Lemma sortByField_sortable items sort :
  sort ≠ "" →
  sortable (sort_field sort) items →
  ∃ l, sortByField items sort = Some l ∧ l ≡ₚ items ∧
       StronglySorted (ordered (sort_field sort) (sort_desc sort)) l ∧
       ∀ v, tied (sort_field sort) v l = tied (sort_field sort) v items.
Proof.
  intros Hne [Hstr|Hnum].
  - destruct (sortByField_strings items sort Hne Hstr) as (l & Hl & Hp & Hs & _).
    exists l. split; [done|]. split; [done|]. split.
    + eapply (StronglySorted_weaken _ _ (λ _, True)); [| |exact Hs].
      * intros x y _ _. apply field_le_ordered.
      * by apply Forall_forall.
    + intros v. by apply sortByField_tied.
  - destruct (sortByField_numbers items sort Hne Hnum) as (l & Hl & Hp & Hs).
    exists l. split; [done|]. split; [done|]. split; [done|].
    intros v. by apply sortByField_tied.
Qed.

(** *** Tables that are there, or can be made *)

Lemma is_table_plain w table : inherited table = false → is_table w table.
Proof. unfold is_table, shadowed. intros ->. by destruct (tables w !! table). Qed.

Lemma is_table_own w table t : tables w !! table = Some t → is_table w table.
Proof. unfold is_table, shadowed. by intros ->. Qed.

Lemma not_is_table w table :
  ¬ is_table w table ↔ tables w !! table = None ∧ inherited table = true.
Proof.
  unfold is_table, shadowed. destruct (tables w !! table); [naive_solver|].
  destruct (inherited table); naive_solver.
Qed.

#[local] Instance is_table_dec w table : Decision (is_table w table).
Proof. unfold is_table. apply _. Defined.

#[local] Instance is_table_with_table_same w table rs t d :
  is_table (with_table w table rs t d) table.
Proof. eapply is_table_own. unfold with_table. simpl. apply lookup_insert_eq. Qed.

#[local] Instance is_table_with_table w table rs t d table' :
  is_table w table' → is_table (with_table w table rs t d) table' | 10.
Proof.
  unfold is_table, shadowed, with_table. simpl. intros H.
  destruct (decide (table = table')) as [->|Hne].
  - by rewrite lookup_insert_eq.
  - by rewrite lookup_insert_ne.
Qed.

#[local] Instance is_table_advanced w t d table :
  is_table w table → is_table (advanced w t d) table.
Proof. done. Qed.

#[local] Hint Extern 1 (is_table _ _) =>
  (apply is_table_plain; reflexivity) : typeclass_instances.

Lemma ensureTable_run w table `{Htable : !is_table w table} :
  ∃ w', ensureTable table w = (Ok (Rows (rows w table)), w') ∧ same_store w w' ∧
        tables w' !! table = Some (rows w table) ∧
        <[table := rows w table]> (tables w) = tables w'.
Proof.
  unfold ensureTable, rows.
  destruct (tables w !! table) as [t|] eqn:E; simpl.
  - exists w. split; [done|]. split; [apply same_store_refl|]. split; [done|].
    by apply insert_id.
  - assert (inherited table = false) as ->.
    { pose proof Htable as Ht. unfold is_table, shadowed in Ht. by rewrite E in Ht. }
    eexists. split; [done|]. split; [|split; [simpl; by rewrite lookup_insert_eq|done]].
    repeat split; simpl. intros t'. unfold rows; simpl.
    destruct (decide (table = t')) as [->|Hne].
    + by rewrite lookup_insert_eq, E.
    + by rewrite lookup_insert_ne.
Qed.

Lemma ensureTable_shadowed w table :
  ¬ is_table w table → ensureTable table w = (Ok Inherited, w).
Proof.
  intros H. apply not_is_table in H as [E Hi]. unfold ensureTable. by rewrite E, Hi.
Qed.

Lemma setTable_after_ensure w w' table rs t d :
  same_store w w' → <[table := rows w table]> (tables w) = tables w' →
  World (<[table := rs]> (tables w')) (clock w') (t + ticks w') (uuids w') (d + draws w')
  = with_table w table rs t d.
Proof.
  intros (_ & -> & -> & -> & ->) <-. unfold with_table. f_equal. apply insert_insert_eq.
Qed.

Lemma db_create_run w table data `{!is_table w table} :
  db_create table data w =
  (Ok (new_record w data),
   with_table w table (rows w table ++ [new_record w data]) 2 1).
Proof.
  destruct (ensureTable_run w table) as (w' & He & Hs & _ & Ht).
  unfold db_create, bind. rewrite He.
  unfold uuid, nowIso, bind, newDate, ret, array, setTable; simpl.
  pose proof Hs as (_ & Hc & Hti & Hu & Hd).
  f_equal.
  - unfold new_record. by rewrite Hc, Hti, Hu, Hd.
  - rewrite <- (setTable_after_ensure w w' table _ 2 1 Hs Ht). simpl.
    unfold new_record. by rewrite Hc, Hti, Hu, Hd.
Qed.

(** On a table that is missing under an inherited name [create] draws
    its identifier and reads the clock twice, and then fails on
    [t.push]. *)
Lemma db_create_shadowed w table data :
  ¬ is_table w table →
  db_create table data w = (Throw TypeError, advanced w 2 1).
Proof.
  intros H. unfold db_create, bind. by rewrite (ensureTable_shadowed _ _ H).
Qed.

Lemma findIndex_none {A} (p : A → option bool) l :
  findIndex p l = Some None ↔ Forall (λ x, p x = Some false) l.
Proof.
  induction l as [|x l IH]; simpl.
  - split; [constructor|done].
  - rewrite Forall_cons, <- IH.
    destruct (p x) as [[|]|] eqn:Hp; simpl; [naive_solver congruence| |naive_solver congruence].
    destruct (findIndex p l) as [[i|]|]; simpl; naive_solver congruence.
Qed.

Lemma findIndex_some {A} (p : A → option bool) l i :
  findIndex p l = Some (Some i) ↔
  ∃ x, l !! i = Some x ∧ p x = Some true ∧
       ∀ j y, (j < i)%nat → l !! j = Some y → p y = Some false.
Proof.
  revert i. induction l as [|x l IH]; intros i; simpl.
  - split; [done|]. by intros (y & H & _).
  - destruct (p x) as [[|]|] eqn:Hp; simpl.
    + split.
      * intros H. inversion H; subst. exists x. split; [done|]. split; [done|]. lia.
      * intros (y & Hy & Hpy & Hlt). destruct i as [|i]; [done|].
        specialize (Hlt O x ltac:(lia) eq_refl). congruence.
    + split.
      * destruct (findIndex p l) as [[i'|]|] eqn:Hf; simpl; intros H; inversion H; subst.
        destruct (proj1 (IH i') eq_refl) as (y & Hy & Hpy & Hlt).
        exists y. split; [done|]. split; [done|].
        intros [|j] z Hj Hz; simpl in Hz; [congruence|]. apply (Hlt j); [lia|done].
      * intros (y & Hy & Hpy & Hlt). destruct i as [|i]; simpl in Hy; [congruence|].
        assert (Hf : findIndex p l = Some (Some i)).
        { apply IH. exists y. split; [done|]. split; [done|].
          intros j z Hj Hz. apply (Hlt (S j)); [lia|done]. }
        by rewrite Hf.
    + split; [done|]. intros (y & Hy & Hpy & Hlt). destruct i as [|i].
      * simpl in Hy. congruence.
      * specialize (Hlt O x ltac:(lia) eq_refl). congruence.
Qed.

Lemma db_update_missing w table id patch `{!is_table w table} :
  Forall (λ r, has_id id r = Some false) (rows w table) →
  ∃ w', db_update table id patch w = (Throw (RecordNotFound table id), w') ∧
        same_store w w'.
Proof.
  intros H. destruct (ensureTable_run w table) as (w' & He & Hs & _).
  exists w'. split; [|done].
  unfold db_update, bind. rewrite He.
  apply findIndex_none in H. unfold has_id in *. unfold lift, array, ret. rewrite H. done.
Qed.

Lemma db_update_found w table id patch i old `{!is_table w table} :
  rows w table !! i = Some old →
  has_id id old = Some true →
  (∀ j r, (j < i)%nat → rows w table !! j = Some r → has_id id r = Some false) →
  db_update table id patch w =
  (Ok (patched w old patch),
   with_table w table (<[i := patched w old patch]> (rows w table)) 1 0).
Proof.
  intros Hi Hold Hbefore.
  destruct (ensureTable_run w table) as (w' & He & Hs & _ & Ht).
  assert (Hf : findIndex (λ r, strict_eq (get r "id") id) (rows w table) = Some (Some i)).
  { apply findIndex_some. exists old. done. }
  unfold db_update, bind. rewrite He. unfold lift, array, ret. rewrite Hf.
  unfold nowIso, bind, newDate, ret, setTable; simpl. rewrite Hi. simpl.
  pose proof Hs as (_ & Hc & Hti & Hu & Hd).
  f_equal.
  - unfold patched. by rewrite Hc, Hti.
  - rewrite <- (setTable_after_ensure w w' table _ 1 0 Hs Ht). simpl.
    unfold patched. by rewrite Hc, Hti.
Qed.

Lemma ensured_same_store w table : same_store w (ensured w table).
Proof.
  unfold ensured. destruct (decide (is_table w table)) as [Ht|Ht].
  - destruct (ensureTable_run w table) as (w' & -> & Hs & _). done.
  - rewrite (ensureTable_shadowed _ _ Ht). apply same_store_refl.
Qed.

Lemma ensured_shadowed w table : ¬ is_table w table → ensured w table = w.
Proof. intros Ht. unfold ensured. by rewrite (ensureTable_shadowed _ _ Ht). Qed.

#[local] Instance is_table_ensured w table table' :
  is_table w table' → is_table (ensured w table) table' | 10.
Proof.
  intros H. destruct (decide (is_table w table)) as [Ht|Ht].
  - unfold ensured. destruct (ensureTable_run w table) as (w' & -> & _ & _ & Hw'). simpl.
    unfold is_table, shadowed in *. rewrite <- Hw'.
    destruct (decide (table = table')) as [->|Hne].
    + by rewrite lookup_insert_eq.
    + by rewrite lookup_insert_ne.
  - by rewrite ensured_shadowed.
Qed.

Lemma ensureTable_eq w table `{!is_table w table} :
  ensureTable table w = (Ok (Rows (rows w table)), ensured w table).
Proof.
  unfold ensured. destruct (ensureTable_run w table) as (w' & -> & _). done.
Qed.

(** The calls on a table that is missing under an inherited name: each
    fails with a type error where it first uses the inherited value as an
    array, and the store is as it was. *)
Lemma db_update_shadowed w table id patch :
  ¬ is_table w table → db_update table id patch w = (Throw TypeError, w).
Proof.
  intros H. unfold db_update, bind. by rewrite (ensureTable_shadowed _ _ H).
Qed.

Lemma db_remove_shadowed w table id :
  ¬ is_table w table → db_remove table id w = (Throw TypeError, w).
Proof.
  intros H. unfold db_remove, bind. by rewrite (ensureTable_shadowed _ _ H).
Qed.

Lemma db_list_shadowed w table sort limit :
  ¬ is_table w table → db_list table sort limit w = (Throw TypeError, w).
Proof.
  intros H. unfold db_list, bind. by rewrite (ensureTable_shadowed _ _ H).
Qed.

Lemma db_filter_shadowed w table where_ sort limit :
  ¬ is_table w table → db_filter table where_ sort limit w = (Throw TypeError, w).
Proof.
  intros H. unfold db_filter, bind. by rewrite (ensureTable_shadowed _ _ H).
Qed.

(** So a call that returns worked on a table. *)
Lemma db_list_ok w table sort limit l w' :
  db_list table sort limit w = (Ok l, w') → is_table w table.
Proof.
  intros H. destruct (decide (is_table w table)) as [|Hn]; [done|].
  by rewrite db_list_shadowed in H.
Qed.

Lemma db_filter_ok w table where_ sort limit l w' :
  db_filter table where_ sort limit w = (Ok l, w') → is_table w table.
Proof.
  intros H. destruct (decide (is_table w table)) as [|Hn]; [done|].
  by rewrite db_filter_shadowed in H.
Qed.

Lemma db_create_ok w table data rec w' :
  db_create table data w = (Ok rec, w') → is_table w table.
Proof.
  intros H. destruct (decide (is_table w table)) as [|Hn]; [done|].
  by rewrite db_create_shadowed in H.
Qed.

Lemma db_update_ok w table id patch rec w' :
  db_update table id patch w = (Ok rec, w') → is_table w table.
Proof.
  intros H. destruct (decide (is_table w table)) as [|Hn]; [done|].
  by rewrite db_update_shadowed in H.
Qed.

Lemma db_remove_ok w table id o w' :
  db_remove table id w = (Ok o, w') → is_table w table.
Proof.
  intros H. destruct (decide (is_table w table)) as [|Hn]; [done|].
  by rewrite db_remove_shadowed in H.
Qed.

Lemma db_list_eq w table sort limit `{!is_table w table} :
  db_list table sort limit w =
  (match sortByField (rows w table) (default "-created_date" sort) with
   | Some l => Ok (slice0 (default 100 limit) l)
   | None => Beyond
   end, ensured w table).
Proof.
  unfold db_list, bind. rewrite ensureTable_eq by apply _. unfold lift, array, ret.
  by destruct (sortByField _ _).
Qed.

Lemma db_filter_eq w table where_ sort limit `{!is_table w table} :
  db_filter table where_ sort limit w =
  (match filter_by (λ r, matchesWhere r where_) (rows w table) with
   | Some f =>
       match sortByField f (default "-created_date" sort) with
       | Some l => Ok (slice0 (default 1000 limit) l)
       | None => Beyond
       end
   | None => Beyond
   end, ensured w table).
Proof.
  unfold db_filter, bind. rewrite ensureTable_eq by apply _. unfold lift, array, ret.
  destruct (filter_by _ _); [|done]. by destruct (sortByField _ _).
Qed.

Lemma db_remove_missing w table id `{!is_table w table} :
  Forall (λ r, has_id id r = Some false) (rows w table) →
  db_remove table id w = (Ok {["ok" := VBool true]}, ensured w table).
Proof.
  intros H. unfold db_remove, bind. rewrite ensureTable_eq by apply _.
  apply findIndex_none in H. unfold has_id in *. unfold lift, array, ret. by rewrite H.
Qed.

Lemma db_remove_found w table id i old `{!is_table w table} :
  rows w table !! i = Some old →
  has_id id old = Some true →
  (∀ j r, (j < i)%nat → rows w table !! j = Some r → has_id id r = Some false) →
  db_remove table id w =
  (Ok {["ok" := VBool true]}, with_table w table (delete i (rows w table)) 0 0).
Proof.
  intros Hi Hold Hbefore.
  destruct (ensureTable_run w table) as (w' & He & Hs & _ & Ht).
  assert (Hf : findIndex (λ r, strict_eq (get r "id") id) (rows w table) = Some (Some i)).
  { apply findIndex_some. exists old. done. }
  unfold db_remove, bind. rewrite He. unfold lift, array, ret. rewrite Hf.
  unfold ret, setTable; simpl. f_equal.
  by rewrite <- (setTable_after_ensure w w' table _ 0 0 Hs Ht).
Qed.

(** *** Reading records *)

Lemma get_spread_l (a b : object) k v : b !! k = Some v → get (spread a b) k = v.
Proof. intros H. unfold get, spread. by rewrite (lookup_union_Some_l _ _ _ _ H). Qed.

Lemma get_spread_r (a b : object) k : b !! k = None → get (spread a b) k = get a k.
Proof. intros H. unfold get, spread. by rewrite (lookup_union_r _ _ _ H). Qed.

Lemma lookup_spread_l (a b : object) k v : b !! k = Some v → spread a b !! k = Some v.
Proof. intros H. unfold spread. by rewrite (lookup_union_Some_l _ _ _ _ H). Qed.

Lemma lookup_spread_r (a b : object) k : b !! k = None → spread a b !! k = a !! k.
Proof. intros H. unfold spread. by rewrite (lookup_union_r _ _ _ H). Qed.

Lemma slice0_all {A} (n : Z) (l : list A) :
  (Z.of_nat (length l) <= n)%Z → slice0 n l = l.
Proof.
  intros H. unfold slice0. destruct (0 <=? n)%Z eqn:E; [|lia].
  apply take_ge. lia.
Qed.

Lemma slice0_length {A} (n : Z) (l : list A) :
  (0 <= n)%Z → (Z.of_nat (length (slice0 n l)) <= n)%Z.
Proof.
  intros H. unfold slice0. destruct (0 <=? n)%Z eqn:E; [|lia].
  rewrite length_take. lia.
Qed.

Lemma filter_by_spec {A} (p : A → option bool) l l' :
  filter_by p l = Some l' →
  l' = List.filter (λ x, default false (p x)) l ∧ Forall (λ x, is_Some (p x)) l.
Proof.
  revert l'. induction l as [|x l IH]; intros l' H; simpl in H.
  - inversion H. split; [done|constructor].
  - destruct (p x) as [b|] eqn:Hp; simpl in H; [|done].
    destruct (filter_by p l) as [r|]; simpl in H; [|done].
    destruct (IH r eq_refl) as [-> Hall]. inversion H; subst. simpl. rewrite Hp. simpl.
    split; [by destruct b|]. constructor; [by rewrite Hp|done].
Qed.

Lemma filter_by_elem {A} (p : A → option bool) l l' x :
  filter_by p l = Some l' → x ∈ l → p x = Some true → x ∈ l'.
Proof.
  intros H Hx Hp. apply filter_by_spec in H as [-> _].
  apply list_elem_of_In, filter_In. split; [by apply list_elem_of_In|].
  by rewrite Hp.
Qed.

Lemma filter_by_total {A} (p : A → option bool) l :
  Forall (λ x, is_Some (p x)) l → is_Some (filter_by p l).
Proof.
  induction 1 as [|x l [b Hb] Hl [r IH]]; simpl; [done|].
  rewrite Hb, IH. done.
Qed.

Lemma sortByField_perm items sort l : sortByField items sort = Some l → l ≡ₚ items.
Proof.
  unfold sortByField. destruct (String.eqb sort ""); [by intros [= ->]|].
  apply array_sort_perm.
Qed.

Lemma db_list_elem w table sort limit l w' r :
  db_list table sort limit w = (Ok l, w') →
  (Z.of_nat (length (rows w table)) <= default 100 limit)%Z →
  r ∈ rows w table → r ∈ l.
Proof.
  intros H. pose proof (db_list_ok _ _ _ _ _ _ H) as Ht. revert H.
  rewrite db_list_eq by apply _. intros H Hn Hr.
  destruct (sortByField _ _) as [l0|] eqn:Hs; [|done].
  inversion H; subst. pose proof (sortByField_perm _ _ _ Hs) as Hp.
  rewrite slice0_all; [by rewrite Hp|]. by rewrite Hp.
Qed.

Lemma db_filter_elem w table where_ sort limit l w' r :
  db_filter table where_ sort limit w = (Ok l, w') →
  (Z.of_nat (length (rows w table)) <= default 1000 limit)%Z →
  r ∈ rows w table → matchesWhere r where_ = Some true → r ∈ l.
Proof.
  intros H. pose proof (db_filter_ok _ _ _ _ _ _ _ H) as Ht. revert H.
  rewrite db_filter_eq by apply _. intros H Hn Hr Hm.
  destruct (filter_by _ _) as [f|] eqn:Hf; [|done].
  destruct (sortByField _ _) as [l0|] eqn:Hs; [|done].
  inversion H; subst. pose proof (sortByField_perm _ _ _ Hs) as Hp.
  pose proof (filter_by_elem _ _ _ _ Hf Hr Hm) as Hrf.
  apply filter_by_spec in Hf as [Hf _].
  rewrite slice0_all; [by rewrite Hp|]. rewrite Hp, Hf.
  etransitivity; [|exact Hn]. apply Nat2Z.inj_le, List.filter_length_le.
Qed.

(** ** The record store: [create] *)




(** ** The record store: [update] *)

Lemma patched_fields w old patch :
  get (patched w old patch) "updated_date" = VStr (toISOString (clock w (ticks w))) ∧
  (∀ k v, k ≠ "updated_date" → patch !! k = Some v → patched w old patch !! k = Some v) ∧
  (∀ k, k ≠ "updated_date" → patch !! k = None → patched w old patch !! k = old !! k).
Proof.
  unfold patched. split; [|split].
  - unfold get. by rewrite lookup_insert_eq.
  - intros k v Hk Hp. rewrite lookup_insert_ne by done. by apply lookup_spread_l.
  - intros k Hk Hp. rewrite lookup_insert_ne by done. by apply lookup_spread_r.
Qed.




(** ** The record store: [list] *)

Lemma insert_sorted_last {A} (cmp : A → A → option comparison) x l :
  Forall (λ y, cmp x y = Some Gt) l → insert_sorted cmp x l = Some (l ++ [x]).
Proof.
  induction 1 as [|y l Hy Hl IH]; simpl; [done|].
  rewrite Hy. simpl. by rewrite IH.
Qed.

Lemma compareField_lt_desc field a b :
  field_lt field a b → compareField field true a b = Some Gt.
Proof.
  intros (x & y & Hx & Hy & Hlt). rewrite (compareField_str _ _ _ _ _ _ Hx Hy).
  by rewrite (str_ltb_neq _ _ Hlt), (str_ltb_asym _ _ Hlt).
Qed.

Lemma array_sort_increasing_desc field items :
  StronglySorted (field_lt field) items →
  array_sort (compareField field true) items = Some (rev items).
Proof.
  induction 1 as [|a l Hs IH Ha]; simpl; [done|].
  rewrite IH. simpl. apply insert_sorted_last.
  apply Forall_forall. intros b Hb. apply compareField_lt_desc.
  rewrite Forall_forall in Ha. apply Ha.
  by apply list_elem_of_In, in_rev, list_elem_of_In.
Qed.

Lemma str_ltb_trans x y z :
  String.ltb x y = true → String.ltb y z = true → String.ltb x z = true.
Proof. rewrite !str_ltb_iff. apply String_as_OT.lt_trans. Qed.

Lemma compareField_rising_desc field a b :
  rising field a b → compareField field true a b = Some Gt.
Proof.
  unfold rising, key_lt.
  destruct (get a field) as [| |x|x|x|x|x] eqn:Ha; try done;
    destruct (get b field) as [| |y|y|y|y|y] eqn:Hb; try done; intros Hlt.
  - destruct (ltb_not_nan _ _ Hlt) as [Nx Ny].
    rewrite (compareField_num _ _ _ _ _ _ Ha Hb Nx Ny).
    rewrite num_ltb in Hlt by done. by destruct (num_compare x y).
  - rewrite (compareField_str _ _ _ _ _ _ Ha Hb).
    by rewrite (str_ltb_neq _ _ Hlt), (str_ltb_asym _ _ Hlt).
Qed.

Lemma array_sort_rising_desc field items :
  StronglySorted (rising field) items →
  array_sort (compareField field true) items = Some (rev items).
Proof.
  induction 1 as [|a l Hs IH Ha]; simpl; [done|].
  rewrite IH. simpl. apply insert_sorted_last.
  apply Forall_forall. intros b Hb. apply compareField_rising_desc.
  rewrite Forall_forall in Ha. apply Ha.
  by apply list_elem_of_In, in_rev, list_elem_of_In.
Qed.

Lemma new_record_created w data :
  data !! "created_date" = None →
  get (new_record w data) "created_date" = VStr (toISOString (clock w (ticks w))).
Proof. intros H. unfold new_record. by rewrite get_spread_r. Qed.




(** ** The record store: the stamps along a run of calls *)

Lemma continues_refl w : continues w w.
Proof. by repeat split. Qed.

Lemma continues_trans w1 w2 w3 : continues w1 w2 → continues w2 w3 → continues w1 w3.
Proof.
  intros (C1 & U1 & T1 & D1) (C2 & U2 & T2 & D2).
  repeat split; [congruence|congruence|lia|lia].
Qed.

Lemma continues_with_table w table rs t d : continues w (with_table w table rs t d).
Proof. repeat split; simpl; lia. Qed.

Lemma continues_advanced w t d : continues w (advanced w t d).
Proof. repeat split; simpl; lia. Qed.

Lemma continues_same_store w w' : same_store w w' → continues w w'.
Proof. intros (_ & Hc & Ht & Hu & Hd). repeat split; try done; lia. Qed.

Lemma stamped_continues w w' r : continues w w' → stamped w r → stamped w' r.
Proof.
  intros (Hc & Hu & Ht & Hd) (d & c & u & Hd' & Hcu & Hu' & Hid & Hcr & Hup).
  exists d, c, u. rewrite Hc, Hu. repeat split; try done; lia.
Qed.

Lemma well_stamped_same_store w w' : same_store w w' → well_stamped w → well_stamped w'.
Proof.
  intros Hs Hw table. pose proof Hs as (Hr & _). rewrite Hr.
  destruct (Hw table) as [Hf Hn]. split; [|done].
  eapply Forall_impl; [exact Hf|]. intros r. apply stamped_continues.
  by apply continues_same_store.
Qed.

Lemma stamped_has_id w id r :
  stamped w r → ∃ b, has_id id r = Some b.
Proof.
  intros (d & c & u & _ & _ & _ & Hid & _). unfold has_id. rewrite Hid.
  destruct id; simpl; eauto.
Qed.

(** Under the invariant the search for an [id] always answers. *)
Lemma findIndex_stamped w id rs :
  Forall (stamped w) rs →
  Forall (λ r, has_id id r = Some false) rs ∨
  ∃ i old, rs !! i = Some old ∧ has_id id old = Some true ∧
           ∀ j r, (j < i)%nat → rs !! j = Some r → has_id id r = Some false.
Proof.
  induction 1 as [|x rs Hx Hrs IH]; [left; constructor|].
  destruct (stamped_has_id w id x Hx) as [[|] Hb].
  - right. exists O, x. split; [done|]. split; [done|]. lia.
  - destruct IH as [IH|(i & old & Hi & Hold & Hbefore)].
    + left. by constructor.
    + right. exists (S i), old. split; [done|]. split; [done|].
      intros [|j] r Hj Hr; simpl in Hr; [congruence|]. apply (Hbefore j); [lia|done].
Qed.

Lemma NoDup_fmap_eq {A B} (f : A → B) (l : list A) x y :
  NoDup (f <$> l) → x ∈ l → y ∈ l → f x = f y → x = y.
Proof.
  intros Hn Hx Hy Hf.
  apply list_elem_of_lookup in Hx as [i Hi]. apply list_elem_of_lookup in Hy as [j Hj].
  assert (i = j) as ->.
  { eapply NoDup_lookup; [exact Hn| |].
    - rewrite list_lookup_fmap, Hi. reflexivity.
    - rewrite list_lookup_fmap, Hj. simpl. by rewrite Hf. }
  congruence.
Qed.

Lemma elem_of_list_insert_inv {A} (l : list A) i x y :
  y ∈ <[i := x]> l → y = x ∨ y ∈ l.
Proof.
  intros H. apply list_elem_of_lookup in H as [j Hj].
  destruct (decide (i = j)) as [->|Hne].
  - destruct (decide (j < length l)%nat) as [Hlt|Hge].
    + rewrite list_lookup_insert_eq in Hj by done. left. congruence.
    + rewrite list_insert_ge in Hj by lia. right. by eapply list_elem_of_lookup_2.
  - rewrite list_lookup_insert_ne in Hj by done. right. by eapply list_elem_of_lookup_2.
Qed.

Lemma patched_keeps w old patch k :
  k ≠ "updated_date" → patch !! k = None →
  get (patched w old patch) k = get old k.
Proof.
  intros Hk Hp. destruct (patched_fields w old patch) as (_ & _ & Ho).
  unfold get. by rewrite Ho.
Qed.

(** One call: the invariant is kept, and every row of the table after the
    call either continues a row of the table before it, with the same
    [id] and [created_date], or carries the identifier the call drew. *)
Lemma run_op_step w o :
  well_stamped w → distinct_uuids w → keeps_stamps o →
  well_stamped (run_op o w) ∧ continues w (run_op o w) ∧
  ∀ table r', r' ∈ rows (run_op o w) table →
    (∃ r, r ∈ rows w table ∧ get r "id" = get r' "id" ∧
          get r "created_date" = get r' "created_date") ∨
    get r' "id" = VStr (uuids w (draws w)).
Proof.
  intros Hw Hinj Hk.
  assert (Hsame : ∀ w', (∀ table, rows w' table = rows w table) → continues w w' →
            well_stamped w' ∧ continues w w' ∧
            ∀ table r', r' ∈ rows w' table →
              (∃ r, r ∈ rows w table ∧ get r "id" = get r' "id" ∧
                    get r "created_date" = get r' "created_date") ∨
              get r' "id" = VStr (uuids w (draws w))).
  { intros w' Hrows Hcont. split; [|split; [done|]].
    - intros table. rewrite Hrows. destruct (Hw table) as [Hf Hn]. split; [|done].
      eapply Forall_impl; [exact Hf|]. intros r. by apply stamped_continues.
    - intros table r' Hr. rewrite Hrows in Hr. left. by exists r'. }
  assert (Hother : ∀ table rs t d table', table ≠ table' →
            Forall (stamped (with_table w table rs t d))
                   (rows (with_table w table rs t d) table') ∧
            NoDup ((λ r, get r "id") <$> rows (with_table w table rs t d) table')).
  { intros table rs t d table' Hne. rewrite rows_with_table. case_decide; [done|].
    destruct (Hw table') as [Hf Hn]. split; [|done].
    eapply Forall_impl; [exact Hf|]. intros r. apply stamped_continues.
    apply continues_with_table. }
  destruct o as [table data|table id patch|table id]; simpl in *.
  - (* create *)
    destruct (decide (is_table w table)) as [Ht|Ht].
    2:{ rewrite (db_create_shadowed _ _ _ Ht). simpl.
        apply Hsame; [done|apply continues_advanced]. }
    destruct Hk as (Hid & Hc & Hu). rewrite db_create_run by apply _. simpl.
    set (rec := new_record w data).
    assert (Gid : get rec "id" = VStr (uuids w (draws w))).
    { unfold rec, new_record. by rewrite get_spread_r. }
    split; [|split; [apply continues_with_table|]].
    + intros table'. destruct (decide (table = table')) as [<-|Hne]; [|by apply Hother].
      rewrite rows_with_table. case_decide; [|done].
      destruct (Hw table) as [Hf Hn]. split.
      * apply Forall_app. split.
        -- eapply Forall_impl; [exact Hf|]. intros r. apply stamped_continues.
           apply continues_with_table.
        -- constructor; [|constructor].
           exists (draws w), (ticks w), (S (ticks w)). simpl.
           split; [lia|]. split; [lia|]. split; [lia|]. split; [done|].
           unfold rec, new_record. by rewrite !get_spread_r.
      * rewrite fmap_app. apply NoDup_app. split; [done|]. split.
        -- intros v Hv Hv'. apply list_elem_of_fmap in Hv as (r & -> & Hr).
           simpl in Hv'. apply list_elem_of_singleton in Hv'. rewrite Gid in Hv'.
           rewrite Forall_forall in Hf.
           destruct (Hf r Hr) as (d & _ & _ & Hd & _ & _ & Hrid & _).
           rewrite Hrid in Hv'. injection Hv' as Hv'. apply Hinj in Hv'. lia.
        -- simpl. apply NoDup_singleton.
    + intros table' r' Hr. rewrite rows_with_table in Hr. case_decide.
      * apply elem_of_app in Hr as [Hr|Hr].
        -- subst. left. by exists r'.
        -- apply list_elem_of_singleton in Hr. subst. by right.
      * left. by exists r'.
  - (* update *)
    destruct (decide (is_table w table)) as [Ht|Ht].
    2:{ rewrite (db_update_shadowed _ _ _ _ Ht). simpl.
        apply Hsame; [done|apply continues_refl]. }
    destruct Hk as (Hid & Hc).
    destruct (findIndex_stamped w id (rows w table) (proj1 (Hw table)))
      as [Hnone|(i & old & Hi & Hold & Hbefore)].
    + destruct (db_update_missing w table id patch Hnone) as (w' & -> & Hs).
      apply Hsame; [apply Hs|by apply continues_same_store].
    + rewrite (db_update_found w table id patch i old Hi Hold Hbefore). simpl.
      set (rec := patched w old patch).
      assert (Gid : get rec "id" = get old "id") by by apply patched_keeps.
      assert (Gc : get rec "created_date" = get old "created_date")
        by by apply patched_keeps.
      assert (Hin : old ∈ rows w table) by by eapply list_elem_of_lookup_2.
      split; [|split; [apply continues_with_table|]].
      * intros table'. destruct (decide (table = table')) as [<-|Hne]; [|by apply Hother].
        rewrite rows_with_table. case_decide; [|done].
        destruct (Hw table) as [Hf Hn]. split.
        -- apply Forall_insert.
           ++ eapply Forall_impl; [exact Hf|]. intros r. apply stamped_continues.
              apply continues_with_table.
           ++ rewrite Forall_forall in Hf.
              destruct (Hf old Hin) as (d & c & u & Hd & Hcu & Hu & Hoid & Hoc & _).
              exists d, c, (ticks w). simpl.
              split; [lia|]. split; [lia|]. split; [lia|].
              split; [congruence|]. split; [congruence|].
              apply (patched_fields w old patch).
        -- rewrite list_fmap_insert. rewrite list_insert_id; [done|].
           rewrite list_lookup_fmap, Hi. simpl. by rewrite Gid.
      * intros table' r' Hr. rewrite rows_with_table in Hr. case_decide.
        -- subst. apply elem_of_list_insert_inv in Hr as [->|Hr].
           ++ left. by exists old.
           ++ left. by exists r'.
        -- left. by exists r'.
  - (* remove *)
    destruct (decide (is_table w table)) as [Ht|Ht].
    2:{ rewrite (db_remove_shadowed _ _ _ Ht). simpl.
        apply Hsame; [done|apply continues_refl]. }
    destruct (findIndex_stamped w id (rows w table) (proj1 (Hw table)))
      as [Hnone|(i & old & Hi & Hold & Hbefore)].
    + rewrite (db_remove_missing w table id Hnone). simpl.
      apply Hsame; [apply ensured_same_store|apply continues_same_store, ensured_same_store].
    + rewrite (db_remove_found w table id i old Hi Hold Hbefore). simpl.
      split; [|split; [apply continues_with_table|]].
      * intros table'. destruct (decide (table = table')) as [<-|Hne]; [|by apply Hother].
        rewrite rows_with_table. case_decide; [|done].
        destruct (Hw table) as [Hf Hn]. split.
        -- apply Forall_delete. eapply Forall_impl; [exact Hf|].
           intros r. apply stamped_continues. apply continues_with_table.
        -- rewrite list_fmap_delete. eapply sublist_NoDup; [exact Hn|apply sublist_delete].
      * intros table' r' Hr. rewrite rows_with_table in Hr. case_decide.
        -- subst. left. exists r'. split; [|done].
           eapply elem_of_sublist; [exact Hr|apply sublist_delete].
        -- left. by exists r'.
Qed.

Lemma run_ops_step ops w :
  well_stamped w → distinct_uuids w → Forall keeps_stamps ops →
  well_stamped (run_ops ops w) ∧ continues w (run_ops ops w) ∧
  ∀ table r', r' ∈ rows (run_ops ops w) table →
    (∃ r, r ∈ rows w table ∧ get r "id" = get r' "id" ∧
          get r "created_date" = get r' "created_date") ∨
    (∃ d, (draws w <= d)%nat ∧ get r' "id" = VStr (uuids w d)).
Proof.
  revert w. induction ops as [|o ops IH]; intros w Hw Hinj Hk; simpl.
  - split; [done|]. split; [apply continues_refl|].
    intros table r' Hr. left. by exists r'.
  - apply Forall_cons in Hk as [Ho Hops].
    destruct (run_op_step w o Hw Hinj Ho) as (Hw1 & Hc1 & Hstep).
    pose proof Hc1 as (Hclk & Huu & Ht & Hd).
    assert (Hinj1 : distinct_uuids (run_op o w)).
    { intros a b. rewrite Huu. apply Hinj. }
    destruct (IH (run_op o w) Hw1 Hinj1 Hops) as (Hw' & Hc' & Hrest).
    split; [done|]. split; [by eapply continues_trans|].
    intros table r' Hr. destruct (Hrest table r' Hr) as [(r1 & Hr1 & Hid & Hcr)|(d & Hd' & Hid)].
    + destruct (Hstep table r1 Hr1) as [(r & Hr0 & Hid0 & Hcr0)|Hnew].
      * left. exists r. split; [done|]. split; congruence.
      * right. exists (draws w). split; [lia|]. congruence.
    + right. exists d. split; [lia|]. by rewrite <- Huu.
Qed.

Lemma db_update_ok_inv w table id patch rec w' :
  db_update table id patch w = (Ok rec, w') →
  ∃ i old, rows w table !! i = Some old ∧ has_id id old = Some true ∧
           rec = patched w old patch ∧
           rows w' table = <[i := rec]> (rows w table).
Proof.
  intros H. pose proof (db_update_ok _ _ _ _ _ _ H) as Ht.
  destruct (findIndex (λ r, strict_eq (get r "id") id) (rows w table))
    as [[i|]|] eqn:Hf.
  - apply findIndex_some in Hf as (old & Hi & Hold & Hbefore).
    rewrite (db_update_found w table id patch i old Hi Hold Hbefore) in H.
    inversion H; subst. exists i, old. split; [done|]. split; [done|]. split; [done|].
    rewrite rows_with_table. by case_decide.
  - apply findIndex_none in Hf.
    destruct (db_update_missing w table id patch Hf) as (w1 & Hrun & _). congruence.
  - unfold db_update, bind in H. rewrite ensureTable_eq in H by apply _.
    unfold lift, array, ret in H. rewrite Hf in H. discriminate.
Qed.

(** C4 (as amended).  Take a store whose stamps were set by the store
    itself, a supply of pairwise distinct identifiers and a clock that does
    not run backwards, and run any sequence of create, update and delete
    calls whose data and patches leave [id] and [created_date] (and, for a
    create, [updated_date]) to the store.  Then a record that is still in
    its table, recognised by its [id], has the [created_date] it had; in
    every record [created_date] and [updated_date] are ISO strings of clock
    readings, the first not after the second; and an update that succeeds
    sets [updated_date] to the reading of the clock made by that call. *)
Theorem run_ops_stamps w ops :
  well_stamped w → distinct_uuids w → monotone_clock w →
  Forall keeps_stamps ops →
  (∀ table r r',
     r ∈ rows w table → r' ∈ rows (run_ops ops w) table →
     get r' "id" = get r "id" →
     get r' "created_date" = get r "created_date") ∧
  (∀ table r',
     r' ∈ rows (run_ops ops w) table →
     ∃ c u : Z,
       get r' "created_date" = VStr (toISOString c) ∧
       get r' "updated_date" = VStr (toISOString u) ∧ (c <= u)%Z) ∧
  (∀ table id patch rec w'',
     db_update table id patch (run_ops ops w) = (Ok rec, w'') →
     get rec "updated_date" =
       VStr (toISOString (clock (run_ops ops w) (ticks (run_ops ops w)))) ∧
     rec ∈ rows w'' table).
Proof.
  intros Hw Hinj Hmono Hk.
  destruct (run_ops_step ops w Hw Hinj Hk) as (Hw' & Hc' & Horigin).
  split; [|split].
  - intros table r r' Hr Hr' Hid.
    destruct (Hw table) as [Hf Hn]. rewrite Forall_forall in Hf.
    destruct (Horigin table r' Hr') as [(r0 & Hr0 & Hid0 & Hcr0)|(d & Hd & Hnew)].
    + assert (r0 = r) as ->.
      { eapply (NoDup_fmap_eq (λ r, get r "id")); [exact Hn|done|done|]. congruence. }
      done.
    + destruct (Hf r Hr) as (d0 & _ & _ & Hd0 & _ & _ & Hrid & _).
      rewrite Hid, Hrid in Hnew. injection Hnew as Hnew. apply Hinj in Hnew. lia.
  - intros table r' Hr'. destruct (Hw' table) as [Hf _]. rewrite Forall_forall in Hf.
    destruct (Hf r' Hr') as (d & c & u & _ & Hcu & _ & _ & Hcr & Hup).
    destruct Hc' as (Hclk & _). rewrite Hclk in Hcr, Hup.
    exists (clock w c), (clock w u). split; [done|]. split; [done|]. by apply Hmono.
  - intros table id patch rec w'' Hrun.
    apply db_update_ok_inv in Hrun as (i & old & Hi & _ & -> & Hrows). split.
    + apply patched_fields.
    + rewrite Hrows. apply list_elem_of_insert. by eapply lookup_lt_Some.
Qed.

Lemma demo_uuids_distinct a b : demo_uuids a = demo_uuids b → a = b.
Proof.
  intros H. apply (f_equal String.length) in H. unfold demo_uuids in H.
  rewrite !string_append_length, !string_of_list_ascii_length, !length_replicate in H.
  lia.
Qed.

Lemma well_stamped_empty clk : well_stamped (world_of [] clk).
Proof.
  intros table. unfold rows, world_of. simpl. rewrite lookup_empty. simpl.
  split; constructor.
Qed.

Lemma run_ops_stamps_witness :
  let w := world_of [] ticking_clock in
  let ops := [Create "Incident" (obj [("title", VStr "DB outage")]);
              Update "Incident" (VStr "uuid-") (obj [("status", VStr "resolved")]);
              Remove "Decision" (VStr "uuid-I")] in
  well_stamped w ∧ distinct_uuids w ∧ monotone_clock w ∧ Forall keeps_stamps ops ∧
  ∀ table r',
    r' ∈ rows (run_ops ops w) table →
    ∃ c u : Z,
      get r' "created_date" = VStr (toISOString c) ∧
      get r' "updated_date" = VStr (toISOString u) ∧ (c <= u)%Z.
Proof.
  intros w ops.
  assert (H1 : well_stamped w) by apply well_stamped_empty.
  assert (H2 : distinct_uuids w) by (intros a b; apply demo_uuids_distinct).
  assert (H3 : monotone_clock w).
  { intros a b Hab. unfold w, world_of, ticking_clock. simpl. lia. }
  assert (H4 : Forall keeps_stamps ops).
  { repeat constructor; vm_compute; reflexivity. }
  split; [exact H1|]. split; [exact H2|]. split; [exact H3|]. split; [exact H4|].
  exact (proj1 (proj2 (run_ops_stamps w ops H1 H2 H3 H4))).
Defined.

(** A patch that carries [created_date] replaces the stored one: after a
    create and such an update the record, still under the same [id], has
    another [created_date], and it is later than its [updated_date]. *)
Lemma db_update_overwrites_created_date :
  let w := world_of [] ticking_clock in
  let data := obj [("title", VStr "DB outage")] in
  let patch := obj [("created_date", VStr "2999-01-01T00:00:00.000Z")] in
  ∃ r1 w1 r2 w2,
    db_create "Incident" data w = (Ok r1, w1) ∧
    db_update "Incident" (get r1 "id") patch w1 = (Ok r2, w2) ∧
    rows w2 "Incident" = [r2] ∧
    get r2 "id" = get r1 "id" ∧
    get r1 "created_date" = VStr "2023-11-14T22:13:20.000Z" ∧
    get r2 "created_date" = VStr "2999-01-01T00:00:00.000Z" ∧
    get r2 "updated_date" = VStr "2023-11-14T22:13:20.002Z" ∧
    String.ltb "2023-11-14T22:13:20.002Z" "2999-01-01T00:00:00.000Z" = true.
Proof.
  intros w data patch.
  set (r1 := new_record w data).
  set (w1 := with_table w "Incident" (rows w "Incident" ++ [r1]) 2 1).
  exists r1, w1, (patched w1 r1 patch), (with_table w1 "Incident"
                   (<[0%nat := patched w1 r1 patch]> (rows w1 "Incident")) 1 0).
  split; [eapply (db_create_run _ _ _)|]. split.
  - eapply (db_update_found _ _ _ _ _ _).
    + vm_compute; reflexivity.
    + vm_compute; reflexivity.
    + intros j r Hj. lia.
  - repeat split; vm_compute; reflexivity.
Qed.

(** ** The heuristic analyzer *)

#[local] Open Scope float_scope.

(** C5.  For the incident with title "DB outage", description "Postgres
    connection timeouts across checkout" and severity "critical" (whatever
    its other fields), the analyzer finds the database signal, starts from
    the base confidence 0.78, applies no penalty because the description
    has more than 40 characters, and gives its first root cause the
    probability clamp01(0.45 + 0.15), which is 0.6.  The base confidence is
    0.78, 0.72, 0.66, 0.6 for critical, high, medium, low, and 0.66 for a
    missing severity and for every other name that an object literal does
    not inherit. *)
Theorem analysis_db_outage logs systems source ai :
  let i := Incident (Some "DB outage")
                    (Some "Postgres connection timeouts across checkout")
                    logs (Some "critical") systems source ai in
  (isDb i = true ∧
   baseConf (sev_of i) = 0.78 ∧
   (40 < String.length (desc_of i))%nat ∧
   dataQualityPenalty (desc_of i) = 0 ∧
   confidence_score (buildAnalysisFromIncident i) = 0.78 ∧
   probability <$> head (root_causes (buildAnalysisFromIncident i))
     = Some (clamp01 (0.45 + 0.15)) ∧
   clamp01 (0.45 + 0.15) = 0.6) ∧
  (baseConf "critical" = 0.78 ∧ baseConf "high" = 0.72 ∧
   baseConf "medium" = 0.66 ∧ baseConf "low" = 0.6 ∧
   (∀ t d l a o v, baseConf (sev_of (Incident t d l None a o v)) = 0.66) ∧
   (∀ sev, sev ∉ ["critical"; "high"; "medium"; "low"; "constructor"; "__proto__"] →
           baseConf sev = 0.66)).
Proof.
  intros i. split.
  - repeat split; try (vm_compute; reflexivity). vm_compute. lia.
  - repeat split; try (vm_compute; reflexivity).
    intros sev Hsev. unfold baseConf.
    destruct (String.eqb_spec sev "critical") as [->|_]; [set_solver|].
    destruct (String.eqb_spec sev "high") as [->|_]; [set_solver|].
    destruct (String.eqb_spec sev "medium") as [->|_]; [set_solver|].
    destruct (String.eqb_spec sev "low") as [->|_]; [set_solver|].
    destruct (String.eqb_spec sev "constructor") as [->|_]; [set_solver|].
    destruct (String.eqb_spec sev "__proto__") as [->|_]; [set_solver|].
    reflexivity.
Qed.

Lemma analysis_db_outage_witness :
  ("sev1" ∉ ["critical"; "high"; "medium"; "low"; "constructor"; "__proto__"]) ∧
  baseConf "sev1" = 0.66.
Proof.
  assert (H : "sev1" ∉ ["critical"; "high"; "medium"; "low"; "constructor"; "__proto__"]).
  { rewrite !not_elem_of_cons. repeat split; try discriminate. apply not_elem_of_nil. }
  split; [exact H|].
  exact (proj2 (proj2 (proj2 (proj2 (proj2 (proj2
           (analysis_db_outage None None None VUndef)))))) "sev1" H).
Defined.

(** C6.  The analyzer is a function of the title, the description, the
    logs, the severity and the affected systems of its argument and of
    nothing else: two payloads that agree on these fields, whatever else
    they carry, and so in particular two identical payloads, receive the
    same analysis, field for field. *)
Theorem buildAnalysis_deterministic i1 i2 :
  i_title i1 = i_title i2 →
  i_description i1 = i_description i2 →
  i_logs i1 = i_logs i2 →
  i_severity i1 = i_severity i2 →
  i_affected_systems i1 = i_affected_systems i2 →
  buildAnalysisFromIncident i1 = buildAnalysisFromIncident i2.
Proof.
  destruct i1 as [t1 d1 l1 s1 a1 o1 v1], i2 as [t2 d2 l2 s2 a2 o2 v2]. simpl.
  intros -> -> -> -> ->. reflexivity.
Qed.

Lemma buildAnalysis_deterministic_witness :
  let i1 := Incident (Some "SSO login failures") (Some "Token validation fails") None
                     (Some "high") (Some ["Auth Service"]) (Some "Datadog") VUndef in
  let i2 := Incident (Some "SSO login failures") (Some "Token validation fails") None
                     (Some "high") (Some ["Auth Service"]) (Some "CloudWatch")
                     (VStr "stale") in
  i_title i1 = i_title i2 ∧ i_description i1 = i_description i2 ∧
  i_logs i1 = i_logs i2 ∧ i_severity i1 = i_severity i2 ∧
  i_affected_systems i1 = i_affected_systems i2 ∧
  buildAnalysisFromIncident i1 = buildAnalysisFromIncident i2.
Proof.
  intros i1 i2. repeat (split; [reflexivity|]).
  apply buildAnalysis_deterministic; reflexivity.
Defined.

(** ** The automation generator *)

Lemma prefix_spec n h : String.prefix n h = true ↔ ∃ post, h = n +:+ post.
Proof.
  revert h. induction n as [|a n IH]; intros h.
  - split; [by exists h|by destruct h].
  - destruct h as [|b h]; simpl.
    + split; [done|]. by intros [post H].
    + destruct (ascii_dec a b) as [->|Hne].
      * rewrite IH. split; intros [post H]; exists post; [by rewrite H|by injection H].
      * split; [done|]. intros [post H]. injection H as H _. congruence.
Qed.

Lemma includes_spec h n :
  includes h n = true ↔ ∃ pre post, h = pre +:+ n +:+ post.
Proof.
  induction h as [|c h IH].
  - change (includes "" n) with (String.prefix n "" || false).
    rewrite orb_false_r, prefix_spec. split.
    + intros [post H]. by exists "", post.
    + intros (pre & post & H). destruct pre; [|done]. by exists post.
  - change (includes (String c h) n) with (String.prefix n (String c h) || includes h n).
    rewrite orb_true_iff, prefix_spec, IH. split.
    + intros [[post H]|(pre & post & H)].
      * by exists "", post.
      * exists (String c pre), post. simpl. by rewrite H.
    + intros (pre & post & H). destruct pre as [|c' pre]; simpl in H.
      * left. by exists post.
      * right. injection H as _ H. by exists pre, post.
Qed.

Lemma includes_contains_ci s kw :
  includes (toLowerCase s) kw = true ↔ contains_ci s kw.
Proof. apply includes_spec. Qed.

Lemma existsb_contains_ci (p : string → bool) (P : string → Prop) systems :
  (∀ s, p s = true ↔ P s) →
  existsb p systems = true ↔ ∃ s, s ∈ systems ∧ P s.
Proof.
  intros Hp. rewrite existsb_exists. split; intros (s & Hs & H); exists s.
  - split; [by apply list_elem_of_In|by apply Hp].
  - split; [by apply list_elem_of_In|by apply Hp].
Qed.

(** *** [clamp01] *)

Lemma num_compare_trans x y z :
  num_compare x y = Lt → num_compare y z = Lt → num_compare x z = Lt.
Proof. apply lex_compare_trans. Qed.

Lemma leb_not_nan x y :
  PrimFloat.leb x y = true → PrimFloat.is_nan x = false ∧ PrimFloat.is_nan y = false.
Proof.
  rewrite FloatAxioms.leb_spec, !not_nan_spec. unfold SFleb.
  intros H. split; intros E; rewrite E in H; [done|].
  by destruct (Prim2SF x).
Qed.

Lemma ltb_false_of_leb x y :
  PrimFloat.leb x y = true → PrimFloat.ltb y x = false.
Proof.
  intros H. destruct (leb_not_nan _ _ H) as [Nx Ny].
  rewrite num_leb in H by done. rewrite num_ltb, (num_compare_antisym x y) by done.
  by destruct (num_compare x y).
Qed.

Lemma clamp01_spec x : clamped x (clamp01 x).
Proof.
  assert (N0 : PrimFloat.is_nan 0 = false) by reflexivity.
  assert (N1 : PrimFloat.is_nan 1 = false) by reflexivity.
  assert (C01 : num_compare 0 1 = Lt) by (vm_compute; reflexivity).
  assert (Z1 : is_neg_zero 1 = false) by reflexivity.
  assert (Z0 : is_neg_zero 0 = false) by reflexivity.
  unfold clamped, clamp01. split; [|split; [|split]].
  - intros Hn. unfold math_max, math_min. by rewrite Hn, N1, N0.
  - intros Hlt. destruct (ltb_not_nan _ _ Hlt) as [Nx _].
    assert (Cx0 : num_compare x 0 = Lt).
    { rewrite num_ltb in Hlt by done. by destruct (num_compare x 0). }
    pose proof (num_compare_trans _ _ _ Cx0 C01) as Cx1.
    assert (Hmin : math_min 1 x = x).
    { unfold math_min. rewrite N1, Nx. simpl.
      rewrite (num_ltb 1 x), (num_ltb x 1) by done.
      by rewrite (num_compare_antisym x 1), Cx1. }
    rewrite Hmin. unfold math_max. by rewrite N0, Nx, Hlt.
  - intros Hlt. destruct (ltb_not_nan _ _ Hlt) as [_ Nx].
    assert (Hmin : math_min 1 x = 1).
    { unfold math_min. by rewrite N1, Nx, Hlt. }
    rewrite Hmin. reflexivity.
  - intros H0 H1. destruct (leb_not_nan _ _ H0) as [_ Nx].
    assert (Hmin : math_min 1 x = x).
    { unfold math_min. rewrite N1, Nx, (ltb_false_of_leb _ _ H1), Z1. simpl.
      by destruct (PrimFloat.ltb x 1). }
    rewrite Hmin. unfold math_max. rewrite N0, Nx, (ltb_false_of_leb _ _ H0), Z0. simpl.
    destruct (PrimFloat.ltb 0 x) eqn:E.
    + split; [|by left]. rewrite num_eqb by done.
      assert (num_compare x x = Eq) as -> by apply lex_compare_refl. done.
    + split; [|by right]. rewrite num_eqb by done.
      rewrite num_leb in H0 by done. rewrite num_ltb in E by done.
      by destruct (num_compare 0 x).
Qed.

Lemma or_str_empty x : or_str x "" = default "" x.
Proof. destruct x as [s|]; simpl; [|done]. by destruct (String.eqb_spec s "") as [->|]. Qed.

(** C7 (as amended).  For every incident, and every analysis whose
    confidence score is no string, array or object, the automation
    generator answers.  It assigns the team down the chain: the source of
    the incident (the empty text when it has none) contains "network", in
    any case of letters, else some affected system contains "db", else
    some affected system contains "auth" or "iam", else Site Reliability
    Engineering; so an incident whose affected systems are
    ["Auth Service"] and whose source does not contain "network" goes to
    Identity & Access.  For a numeric confidence score [c] the automation
    confidence is [c + 0.1] clamped to the interval from 0 to 1: 0 below
    it, 1 above it, the sum itself inside it.  When the analysis is no
    object, or carries no score or [null] for it, 0.7 stands in for the
    score; a boolean score counts as 1 or 0. *)
Theorem buildAutomation_spec i analysis :
  let source := default "" (i_source i) in
  let systems := default [] (i_affected_systems i) in
  let score := match analysis with VObj o => get o "confidence_score" | _ => VUndef end in
  let network := contains_ci source "network" in
  let db := ∃ s, s ∈ systems ∧ contains_ci s "db" in
  let auth := ∃ s, s ∈ systems ∧ (contains_ci s "auth" ∨ contains_ci s "iam") in
  match score with VStr _ | VArr _ | VObj _ => False | _ => True end →
  ∃ a,
    buildAutomationForIncident i analysis = Some a ∧
    (network → assigned_team a = "Network Operations") ∧
    (¬ network → db → assigned_team a = "Database Reliability") ∧
    (¬ network → ¬ db → auth → assigned_team a = "Identity & Access") ∧
    (¬ network → ¬ db → ¬ auth → assigned_team a = "Site Reliability Engineering") ∧
    (i_affected_systems i = Some ["Auth Service"] → ¬ network →
     assigned_team a = "Identity & Access") ∧
    (∀ c, score = VNum c → clamped (c + 0.1) (automation_confidence a)) ∧
    (score = VUndef ∨ score = VNull → automation_confidence a = 0.7 + 0.1) ∧
    (∀ b, score = VBool b → automation_confidence a = if b then 1 else 0.1).
Proof.
  intros source systems score network db auth Hscore.
  assert (Hnet : ∀ src, includes (toLowerCase src) "network" = true ↔
                        contains_ci src "network")
    by (intros src; apply includes_contains_ci).
  assert (Hdb : ∀ l, existsb (λ s, includes (toLowerCase s) "db") l = true ↔
                     ∃ s, s ∈ l ∧ contains_ci s "db").
  { intros l. apply existsb_contains_ci. intros s. apply includes_contains_ci. }
  assert (Hauth : ∀ l, existsb (λ s, includes (toLowerCase s) "auth" ||
                                     includes (toLowerCase s) "iam") l = true ↔
                       ∃ s, s ∈ l ∧ (contains_ci s "auth" ∨ contains_ci s "iam")).
  { intros l. apply existsb_contains_ci. intros s.
    by rewrite orb_true_iff, !includes_contains_ci. }
  assert (Hchain :
    (network → team_of i = "Network Operations") ∧
    (¬ network → db → team_of i = "Database Reliability") ∧
    (¬ network → ¬ db → auth → team_of i = "Identity & Access") ∧
    (¬ network → ¬ db → ¬ auth → team_of i = "Site Reliability Engineering")).
  { unfold team_of, systems_of. rewrite or_str_empty.
    fold source. fold systems. unfold network, db, auth.
    destruct (includes (toLowerCase source) "network") eqn:En.
    { apply Hnet in En. repeat split; tauto. }
    assert (¬ contains_ci source "network") as Nn by (rewrite <- Hnet; congruence).
    destruct (existsb (λ s, includes (toLowerCase s) "db") systems) eqn:Ed.
    { apply Hdb in Ed. repeat split; tauto. }
    assert (¬ ∃ s, s ∈ systems ∧ contains_ci s "db") as Nd
      by (rewrite <- Hdb; congruence).
    destruct (existsb (λ s, includes (toLowerCase s) "auth" ||
                            includes (toLowerCase s) "iam") systems) eqn:Ea.
    { apply Hauth in Ea. repeat split; tauto. }
    assert (¬ ∃ s, s ∈ systems ∧ (contains_ci s "auth" ∨ contains_ci s "iam")) as Na
      by (rewrite <- Hauth; congruence).
    repeat split; tauto. }
  destruct Hchain as (C1 & C2 & C3 & C4).
  assert (Hplus : ∃ x, confidence_plus analysis = Some x ∧
            (∀ c, score = VNum c → x = c + 0.1) ∧
            (score = VUndef ∨ score = VNull → x = 0.7 + 0.1) ∧
            (∀ b, score = VBool b → x = (if b then 1 else 0) + 0.1)).
  { unfold confidence_plus. fold score.
    destruct score as [| |b|c| | |]; try done; eexists; (split; [reflexivity|]);
      (split; [|split]); try (intros ? [=]); try (intros [[=]|[=]]); try done;
      by subst. }
  destruct Hplus as (x & Hx & Hnum & Hmissing & Hbool).
  unfold buildAutomationForIncident. rewrite Hx. simpl.
  eexists. split; [reflexivity|]. simpl.
  split; [exact C1|]. split; [exact C2|]. split; [exact C3|]. split; [exact C4|].
  split.
  { intros Hsys Hn. apply C3; [done| |].
    - intros (s & Hs & Hc'). unfold systems in Hs. rewrite Hsys in Hs. simpl in Hs.
      apply list_elem_of_singleton in Hs as ->.
      apply includes_contains_ci in Hc'. vm_compute in Hc'. discriminate.
    - exists "Auth Service". split.
      + unfold systems. rewrite Hsys. simpl. set_solver.
      + left. apply includes_contains_ci. vm_compute. reflexivity. }
  split; [intros c Hc; rewrite (Hnum c Hc); apply clamp01_spec|].
  split; [intros Hm; rewrite (Hmissing Hm); vm_compute; reflexivity|].
  intros b Hb. rewrite (Hbool b Hb). destruct b; vm_compute; reflexivity.
Qed.

Lemma buildAutomation_spec_witness :
  let i := Incident (Some "Login failures") None None (Some "high")
                    (Some ["Auth Service"]) (Some "Datadog") VUndef in
  let o := obj [("confidence_score", VNum 0.76); ("summary", VStr "Token expiry")] in
  match get o "confidence_score" with VStr _ | VArr _ | VObj _ => False | _ => True end ∧
  i_affected_systems i = Some ["Auth Service"] ∧
  ¬ contains_ci (default "" (i_source i)) "network" ∧
  ∃ a, buildAutomationForIncident i (VObj o) = Some a ∧
       assigned_team a = "Identity & Access" ∧
       (automation_confidence a =? 0.76 + 0.1) = true.
Proof.
  intros i o.
  assert (Hget : get o "confidence_score" = VNum 0.76) by (vm_compute; reflexivity).
  assert (H1 : match get o "confidence_score" with
               | VStr _ | VArr _ | VObj _ => False | _ => True end)
    by (rewrite Hget; exact I).
  assert (H3 : i_affected_systems i = Some ["Auth Service"]) by reflexivity.
  assert (H4 : ¬ contains_ci (default "" (i_source i)) "network").
  { intros H. apply includes_contains_ci in H. vm_compute in H. discriminate. }
  split; [exact H1|]. split; [exact H3|]. split; [exact H4|].
  destruct (buildAutomation_spec i (VObj o) H1)
    as (a & Hrun & _ & _ & _ & _ & Hauth & Hconf & _).
  exists a. split; [exact Hrun|]. split; [exact (Hauth H3 H4)|].
  destruct (Hconf 0.76 Hget) as (_ & _ & _ & Hin).
  apply Hin; vm_compute; reflexivity.
Defined.

(** An analysis that carries no confidence score.  The sum
    [analysis.confidence_score + 0.1] of the claim is [undefined + 0.1],
    which is NaN, and clamping leaves it NaN; the generator puts 0.7 in
    the place of the missing score and answers with a number. *)
Lemma buildAutomation_without_score :
  let i := Incident (Some "Login failures") None None (Some "high")
                    (Some ["Auth Service"]) (Some "Datadog") VUndef in
  let o := obj [("summary", VStr "Token expiry")] in
  ∃ a missing,
    buildAutomationForIncident i (VObj o) = Some a ∧
    automation_confidence a = 0.7 + 0.1 ∧
    PrimFloat.is_nan (automation_confidence a) = false ∧
    to_number (get o "confidence_score") = Some missing ∧
    PrimFloat.is_nan (clamp01 (missing + 0.1)) = true.
Proof.
  intros i o. eexists _, _.
  split; [vm_compute; reflexivity|]. split; [vm_compute; reflexivity|].
  split; [vm_compute; reflexivity|]. split; [vm_compute; reflexivity|].
  vm_compute. reflexivity.
Qed.

(** ** Knowledge-article suggestion *)

Lemma token_score_le hay toks : (token_score hay toks <= length toks)%nat.
Proof.
  unfold token_score.
  assert (H : ∀ acc, (fold_left (λ score token,
                        if (String.length token <? 4)%nat then score
                        else if includes hay token then S score else score)
                      toks acc <= acc + length toks)%nat).
  { induction toks as [|t toks IH]; intros acc; simpl; [lia|].
    etransitivity; [apply IH|].
    destruct (String.length t <? 4)%nat; [lia|]. destruct (includes hay t); lia. }
  apply (H O).
Qed.

Lemma tokens_length text : (length (tokens text) <= 25)%nat.
Proof. unfold tokens. rewrite length_take. lia. Qed.

(** The thresholds of the relevance, on the scores that 25 tokens allow. *)
Lemma relevance_thresholds n :
  (n <= 25)%nat →
  ((0.25 <=? relevance_of n) = true ↔ (3 <= n)%nat) ∧
  (reason_of (relevance_of n) = "Weak match" ↔ (n < 5)%nat) ∧
  (reason_of (relevance_of n) = "Strong tag/title overlap" ↔ (8 <= n)%nat).
Proof.
  intros Hn.
  do 26 (destruct n as [|n];
         [vm_compute; repeat split; intros; try lia; try discriminate; try reflexivity|]).
  lia.
Qed.

Lemma rank_elem ss l s :
  rank ss = Some l → s ∈ l → s ∈ ss ∧ (0.25 <=? relevance_score s) = true.
Proof.
  unfold rank. intros H Hs.
  destruct (array_sort _ _) as [sorted|] eqn:Hsort; simpl in H; [|done].
  inversion H; subst. unfold slice0 in Hs. simpl in Hs.
  apply subseteq_take in Hs. rewrite (array_sort_perm _ _ _ Hsort) in Hs.
  apply list_elem_of_In, filter_In in Hs as [Hs Hrel].
  split; [by apply list_elem_of_In|done].
Qed.

Lemma rank_length ss l : rank ss = Some l → (length l <= 6)%nat.
Proof.
  unfold rank. intros H.
  destruct (array_sort _ _) as [sorted|]; simpl in H; [|done].
  inversion H; subst. unfold slice0. simpl. rewrite length_take. lia.
Qed.

Lemma rank_none_relevant ss :
  Forall (λ s, (0.25 <=? relevance_score s) = false) ss → rank ss = Some [].
Proof.
  intros H. unfold rank.
  assert (List.filter (λ s, 0.25 <=? relevance_score s) ss = []) as ->.
  { induction H as [|s ss Hs Hss IH]; simpl; [done|]. by rewrite Hs. }
  reflexivity.
Qed.

(** C8 (as amended).  A suggestion is returned only for an article in
    whose title, summary and tags at least 3 of the first 25 tokens of the
    incident text, counting only tokens of 4 characters or more, occur;
    its relevance is clamp01(score / 10), its reason is better than "Weak
    match" only from 5 such tokens and "Strong tag/title overlap" only from
    8, and at most 6 suggestions are returned.  For an incident whose text
    is the title "SSO callback failure" alone, the token "sso" is ignored
    and at most the 2 tokens "callback" and "failure" can count: the
    relevance of every article is at most 0.2 and no article at all is
    suggested, whatever its tags. *)
Theorem suggestions_spec i :
  (∀ articles l,
     suggestions_for i articles = Some l →
     (length l <= 6)%nat ∧
     ∀ s, s ∈ l →
       ∃ a, s_article s ∈ articles ∧ as_article (s_article s) = Some a ∧
            let score := token_score (article_hay a) (tokens (incident_text i)) in
            (3 <= score)%nat ∧
            relevance_score s = relevance_of score ∧
            (reason s = "Weak match" ↔ (score < 5)%nat) ∧
            (reason s = "Strong tag/title overlap" ↔ (8 <= score)%nat)) ∧
  (i_title i = Some "SSO callback failure" →
   i_description i = None → i_affected_systems i = None →
   (∀ a, (token_score (article_hay a) (tokens (incident_text i)) <= 2)%nat) ∧
   ∀ articles,
     is_Some (mapM as_article articles) →
     suggestions_for i articles = Some []).
Proof.
  split.
  - intros articles l H. unfold suggestions_for in H.
    destruct (mapM _ articles) as [scored|] eqn:Hm; simpl in H; [|done].
    split; [by eapply rank_length|].
    intros s Hs. destruct (rank_elem _ _ _ H Hs) as [Hin Hrel].
    apply mapM_Some_1 in Hm. apply list_elem_of_lookup in Hin as [k Hk].
    destruct (Forall2_lookup_r _ _ _ _ _ Hm Hk) as (r & Hr & Hf).
    destruct (as_article r) as [a|] eqn:Ha; simpl in Hf; [|done].
    inversion Hf; subst s. simpl in *. exists a.
    split; [by eapply list_elem_of_lookup_2|]. split; [done|].
    assert (Hle : (token_score (article_hay a) (tokens (incident_text i)) <= 25)%nat).
    { etransitivity; [apply token_score_le|apply tokens_length]. }
    destruct (relevance_thresholds _ Hle) as (T1 & T2 & T3).
    split; [by apply T1|]. split; [done|]. split; [exact T2|exact T3].
  - intros Ht Hd Hs.
    assert (Htext : incident_text i = "sso callback failure  ").
    { unfold incident_text, systems_of. by rewrite Ht, Hd, Hs. }
    assert (Hscore : ∀ a, (token_score (article_hay a) (tokens (incident_text i)) <= 2)%nat).
    { intros a. rewrite Htext.
      change (tokens "sso callback failure  ") with ["sso"; "callback"; "failure"].
      apply (token_score_le (article_hay a) ["callback"; "failure"]). }
    split; [exact Hscore|].
    intros articles [views Hviews]. unfold suggestions_for.
    assert (Hm : ∃ scored,
               mapM (λ r, a ← as_article r; Some (suggest_one (incident_text i) r a))
                    articles = Some scored ∧
               Forall (λ s, (0.25 <=? relevance_score s) = false) scored).
    { apply mapM_Some_1 in Hviews.
      induction Hviews as [|r a articles views Hra Hrest IH].
      - exists []. split; [done|constructor].
      - destruct IH as (scored & Hsc & Hall).
        exists (suggest_one (incident_text i) r a :: scored). split.
        + simpl. rewrite Hra. simpl. by rewrite Hsc.
        + constructor; [|done]. simpl.
          pose proof (Hscore a) as Hle.
          destruct (relevance_thresholds
                      (token_score (article_hay a) (tokens (incident_text i)))
                      ltac:(lia)) as (T1 & _).
          apply not_true_is_false. intros E. apply T1 in E. lia. }
    destruct Hm as (scored & -> & Hall). simpl. by apply rank_none_relevant.
Qed.

Lemma suggestions_spec_witness :
  let i := Incident (Some "SSO callback failure") None None None None None VUndef in
  let art := obj [("id", VStr "kb_1"); ("title", VStr "SSO login troubleshooting");
                  ("tags", strs ["auth"; "sso"; "identity"])] in
  let j := Incident (Some "Postgres connection timeouts across checkout") None None
                    None None None VUndef in
  let runbook := obj [("id", VStr "kb_2");
                      ("title", VStr "Postgres connection pool timeouts in checkout")] in
  (i_title i = Some "SSO callback failure" ∧ i_description i = None ∧
   i_affected_systems i = None ∧ is_Some (mapM as_article [art]) ∧
   suggestions_for i [art] = Some []) ∧
  (suggestions_for j [runbook] = Some [Suggestion runbook (relevance_of 4) "Weak match"] ∧
   ∃ a, as_article runbook = Some a ∧
        (3 <= token_score (article_hay a) (tokens (incident_text j)))%nat).
Proof.
  intros i art j runbook. split.
  - assert (H1 : i_title i = Some "SSO callback failure") by reflexivity.
    assert (H2 : i_description i = None) by reflexivity.
    assert (H3 : i_affected_systems i = None) by reflexivity.
    assert (H4 : is_Some (mapM as_article [art])) by (vm_compute; eexists; reflexivity).
    split; [exact H1|]. split; [exact H2|]. split; [exact H3|]. split; [exact H4|].
    exact (proj2 (proj2 (suggestions_spec i) H1 H2 H3) [art] H4).
  - assert (H : suggestions_for j [runbook] =
                Some [Suggestion runbook (relevance_of 4) "Weak match"])
      by (vm_compute; reflexivity).
    split; [exact H|].
    destruct (proj2 (proj1 (suggestions_spec j) [runbook] _ H)
                    (Suggestion runbook (relevance_of 4) "Weak match"))
      as (a & _ & Ha & Hscore & _).
    + apply list_elem_of_here.
    + exists a. split; [exact Ha|exact Hscore].
Defined.

(** The article tagged auth, sso, identity is not suggested for the incident
    titled "SSO callback failure": no token of four characters or more of
    the title occurs in the article, its relevance is 0, and the dispatch
    answers with an empty list of suggestions. *)
Lemma suggest_sso_article_left_out :
  let inc := obj [("id", VStr "inc_1"); ("title", VStr "SSO callback failure");
                  ("created_date", VStr "2023-11-14T22:13:20.000Z")] in
  let art := obj [("id", VStr "kb_1"); ("title", VStr "SSO login troubleshooting");
                  ("summary", VStr "Steps to restore single sign-on");
                  ("tags", strs ["auth"; "sso"; "identity"]);
                  ("created_date", VStr "2023-11-14T22:13:20.000Z")] in
  let w := world_of [("Incident", [inc]); ("KnowledgeBaseArticle", [art])] ticking_clock in
  (∃ i a, as_incident inc = Some i ∧ as_article art = Some a ∧
          a_tags a = Some ["auth"; "sso"; "identity"] ∧
          relevance_score (suggest_one (incident_text i) art a) = 0 ∧
          (0.25 <=? 0) = false) ∧
  (invoke "suggestKnowledgeArticles" (obj [("incident_id", VStr "inc_1")]) w).1 =
    Ok (obj [("data", VObj (obj [("suggestions", VArr [])]))]).
Proof.
  intros inc art w. split.
  - exists (Incident (Some "SSO callback failure") None None None None None VUndef),
           (Article (Some "SSO login troubleshooting")
                    (Some "Steps to restore single sign-on")
                    (Some ["auth"; "sso"; "identity"])).
    split; [vm_compute; reflexivity|]. split; [vm_compute; reflexivity|].
    split; [reflexivity|]. split; vm_compute; reflexivity.
  - vm_compute. reflexivity.
Qed.

(** ** The generator dispatch on an unknown incident *)

Lemma bind_ok {A B} (m : M A) (f : A → M B) w a w' :
  m w = (Ok a, w') → bind m f w = f a w'.
Proof. intros H. unfold bind. by rewrite H. Qed.

Lemma filter_by_none {A} (p : A → option bool) l :
  Forall (λ x, p x = Some false) l → filter_by p l = Some [].
Proof.
  induction 1 as [|x l Hx Hl IH]; simpl; [done|]. by rewrite Hx, IH.
Qed.

Lemma find_incident_none w payload :
  Forall (λ r, matchesWhere r [("id", get payload "incident_id")] = Some false)
         (rows w "Incident") →
  find_incident payload w = (Ok None, ensured w "Incident").
Proof.
  intros H. unfold find_incident.
  rewrite (bind_ok _ _ w [] (ensured w "Incident")); [reflexivity|].
  rewrite db_filter_eq, (filter_by_none _ _ H) by apply _. reflexivity.
Qed.

(** C10 (as amended).  When the clause [{ id: payload.incident_id }]
    matches no Incident record, which needs an [incident_id] that is not
    [undefined] unless the table is empty, the dispatch of
    automateIncidentResponse, generatePostIncidentReview and
    generateArticleFromIncident returns normally with the data payload
    [{ ok: false }], and afterwards every table holds the records it held
    and no reading of the clock or draw of an identifier has been made. *)
Theorem invoke_unknown_incident w name payload :
  name ∈ ["automateIncidentResponse"; "generatePostIncidentReview";
          "generateArticleFromIncident"] →
  Forall (λ r, matchesWhere r [("id", get payload "incident_id")] = Some false)
         (rows w "Incident") →
  ∃ res w',
    invoke name payload w = (Ok res, w') ∧
    get res "data" = VObj {["ok" := VBool false]} ∧
    (∀ table, rows w' table = rows w table) ∧
    same_store w w'.
Proof.
  intros Hname Hnone.
  pose proof (find_incident_none w payload Hnone) as Hfind.
  exists not_ok, (ensured w "Incident").
  split; [|split; [reflexivity|split; [apply ensured_same_store|apply ensured_same_store]]].
  rewrite !elem_of_cons in Hname.
  destruct Hname as [->|[->|[->|Hname]]]; [| | |by apply elem_of_nil in Hname].
  - change (invoke "automateIncidentResponse" payload)
      with (automateIncidentResponse payload).
    unfold automateIncidentResponse. by erewrite bind_ok; [|exact Hfind].
  - change (invoke "generatePostIncidentReview" payload)
      with (generatePostIncidentReview payload).
    unfold generatePostIncidentReview. by erewrite bind_ok; [|exact Hfind].
  - change (invoke "generateArticleFromIncident" payload)
      with (generateArticleFromIncident payload).
    unfold generateArticleFromIncident. by erewrite bind_ok; [|exact Hfind].
Qed.

Lemma invoke_unknown_incident_witness :
  let inc := obj [("id", VStr "inc_001"); ("title", VStr "DB outage")] in
  let w := world_of [("Incident", [inc])] ticking_clock in
  let payload := obj [("incident_id", VStr "inc_404")] in
  ("generatePostIncidentReview" ∈
     ["automateIncidentResponse"; "generatePostIncidentReview";
      "generateArticleFromIncident"]) ∧
  Forall (λ r, matchesWhere r [("id", get payload "incident_id")] = Some false)
         (rows w "Incident") ∧
  ∃ res w',
    invoke "generatePostIncidentReview" payload w = (Ok res, w') ∧
    get res "data" = VObj {["ok" := VBool false]} ∧
    rows w' "Incident" = [inc] ∧ rows w' "PostIncidentReview" = [] ∧
    rows w' "AuditLog" = [].
Proof.
  intros inc w payload.
  assert (H1 : "generatePostIncidentReview" ∈
                 ["automateIncidentResponse"; "generatePostIncidentReview";
                  "generateArticleFromIncident"]).
  { apply list_elem_of_further, list_elem_of_here. }
  assert (Hrows : rows w "Incident" = [inc]) by (vm_compute; reflexivity).
  assert (H2 : Forall (λ r, matchesWhere r [("id", get payload "incident_id")] = Some false)
                      (rows w "Incident")).
  { rewrite Hrows. constructor; [vm_compute; reflexivity|constructor]. }
  split; [exact H1|]. split; [exact H2|].
  destruct (invoke_unknown_incident w "generatePostIncidentReview" payload H1 H2)
    as (res & w' & Hrun & Hdata & Hsame & _).
  exists res, w'. split; [exact Hrun|]. split; [exact Hdata|].
  rewrite !Hsame. repeat split; vm_compute; reflexivity.
Defined.

(** A payload without [incident_id] is no unknown incident for the code:
    the clause [{ id: undefined }] constrains nothing, the newest Incident
    is taken, and the dispatch goes on to store an automation record and an
    audit record, although no record has the id [undefined]. *)
Lemma invoke_without_incident_id_automates :
  let inc := obj [("id", VStr "inc_001"); ("title", VStr "Login failures");
                  ("severity", VStr "high");
                  ("affected_systems", strs ["Auth Service"]);
                  ("created_date", VStr "2023-11-14T22:13:20.000Z")] in
  let w := world_of [("Incident", [inc])] ticking_clock in
  let payload : object := ∅ in
  let out := invoke "automateIncidentResponse" payload w in
  Forall (λ r, has_id (get payload "incident_id") r = Some false) (rows w "Incident") ∧
  returned out.1 = true ∧
  data_field out.1 "ok" = VUndef ∧
  is_composite (data_field out.1 "automation") = true ∧
  rows w "IncidentAutomation" = [] ∧
  (λ r, get r "assigned_team") <$> rows out.2 "IncidentAutomation"
    = [VStr "Identity & Access"] ∧
  (λ r, get r "action_type") <$> rows out.2 "AuditLog"
    = [VStr "automation_generated"].
Proof.
  intros inc w payload out. split.
  - assert (Hrows : rows w "Incident" = [inc]) by (vm_compute; reflexivity).
    rewrite Hrows. constructor; [vm_compute; reflexivity|constructor].
  - repeat split; vm_compute; reflexivity.
Qed.

(** ** Predictions *)

Lemma slice0_subseteq {A} n (l : list A) : slice0 n l ⊆ l.
Proof. unfold slice0. destruct (0 <=? n)%Z; apply subseteq_take. Qed.

Lemma commonSystems_elem incidents v :
  v ∈ commonSystems incidents →
  ∃ r, r ∈ incidents ∧ v ∈ systems_seen r.
Proof.
  unfold commonSystems. intros H.
  apply list_elem_of_In, filter_In in H as [H _].
  apply in_concat in H as (vs & Hvs & Hv).
  apply list_elem_of_In, list_elem_of_fmap in Hvs as (r & -> & Hr).
  exists r. split; [done|by apply list_elem_of_In].
Qed.

Lemma commonSystems_none incidents :
  Forall (λ r, systems_seen r = []) incidents → commonSystems incidents = [].
Proof.
  unfold commonSystems. induction 1 as [|r l Hr Hl IH]; simpl; [done|].
  by rewrite Hr.
Qed.

Lemma sample_alert_stamps now i s :
  sample_alert now i s !! "status" = Some (VStr "active") ∧
  sample_alert now i s !! "created_date" = Some (VStr (hours_before now (Z.of_nat i))) ∧
  sample_alert now i s !! "updated_date" = Some (VStr (hours_before now (Z.of_nat i))).
Proof. repeat split; apply lookup_spread_l; reflexivity. Qed.

Lemma sample_alert_canned now i s k :
  k ∈ ["severity"; "predicted_issue"] → sample_alert now i s !! k = s !! k.
Proof.
  intros Hk. unfold sample_alert. apply lookup_spread_r.
  rewrite !elem_of_cons in Hk.
  destruct Hk as [->|[->|Hk]]; [reflexivity|reflexivity|by apply elem_of_nil in Hk].
Qed.

Lemma new_record_data w data k v :
  data !! k = Some v → get (new_record w data) k = v.
Proof. intros H. unfold new_record. by apply get_spread_l. Qed.

Lemma for_each_cons {A B} (f : A → M B) x l w y w1 ys w2 :
  f x w = (Ok y, w1) → for_each f l w1 = (Ok ys, w2) →
  for_each f (x :: l) w = (Ok (y :: ys), w2).
Proof.
  intros Hx Hl. simpl. rewrite (bind_ok _ _ w y w1 Hx).
  by rewrite (bind_ok _ _ w1 ys w2 Hl).
Qed.



(** ** The record store: what a call leaves alone *)

Lemma strict_eq_primitive a b : is_composite b = false → is_Some (strict_eq a b).
Proof. destruct a, b; simpl; intros H; try done; eauto. Qed.

Lemma db_update_world w table id patch :
  same_store w (db_update table id patch w).2 ∨
  ∃ rs, (db_update table id patch w).2 = with_table w table rs 1 0.
Proof.
  destruct (decide (is_table w table)) as [Ht|Ht].
  2:{ left. rewrite (db_update_shadowed _ _ _ _ Ht). apply same_store_refl. }
  destruct (findIndex (λ r, strict_eq (get r "id") id) (rows w table))
    as [[i|]|] eqn:Hf.
  - apply findIndex_some in Hf as (old & Hi & Hold & Hbefore).
    right. rewrite (db_update_found w table id patch i old Hi Hold Hbefore).
    by eexists.
  - apply findIndex_none in Hf.
    destruct (db_update_missing w table id patch Hf) as (w' & -> & Hs). by left.
  - left. unfold db_update, bind. rewrite ensureTable_eq by apply _.
    unfold lift, array, ret. rewrite Hf. apply ensured_same_store.
Qed.

Lemma db_remove_world w table id :
  same_store w (db_remove table id w).2 ∨
  ∃ rs, (db_remove table id w).2 = with_table w table rs 0 0.
Proof.
  destruct (decide (is_table w table)) as [Ht|Ht].
  2:{ left. rewrite (db_remove_shadowed _ _ _ Ht). apply same_store_refl. }
  destruct (findIndex (λ r, strict_eq (get r "id") id) (rows w table))
    as [[i|]|] eqn:Hf.
  - apply findIndex_some in Hf as (old & Hi & Hold & Hbefore).
    right. rewrite (db_remove_found w table id i old Hi Hold Hbefore). by eexists.
  - apply findIndex_none in Hf. rewrite (db_remove_missing w table id Hf).
    left. apply ensured_same_store.
  - left. unfold db_remove, bind. rewrite ensureTable_eq by apply _.
    unfold lift, array, ret. rewrite Hf. apply ensured_same_store.
Qed.

(** The world after a call: the same store, or the table of the call
    rewritten, or, for a create on a table missing under an inherited
    name, nothing but the identifier drawn and the clock read twice. *)
Lemma run_op_world o w :
  same_store w (run_op o w) ∨
  (∃ rs t d, run_op o w = with_table w (op_table o) rs t d) ∨
  run_op o w = advanced w 2 1.
Proof.
  destruct o as [table data|table id patch|table id]; simpl.
  - destruct (decide (is_table w table)) as [Ht|Ht].
    + right. left. rewrite db_create_run by apply _. by eexists _, _, _.
    + right. right. by rewrite (db_create_shadowed _ _ _ Ht).
  - destruct (db_update_world w table id patch) as [H|[rs H]]; [by left|].
    right. left. by eexists _, _, _.
  - destruct (db_remove_world w table id) as [H|[rs H]]; [by left|].
    right. left. by eexists _, _, _.
Qed.

(** X1.  Calls on other tables, whatever their arguments and however they end,
    leave the rows of a table as they are, and they never take back a
    reading of the clock or a draw of an identifier. *)
Theorem run_ops_frame ops w table :
  Forall (λ o, op_table o ≠ table) ops →
  rows (run_ops ops w) table = rows w table ∧ continues w (run_ops ops w).
Proof.
  revert w. induction ops as [|o ops IH]; intros w Hops; simpl.
  - split; [done|apply continues_refl].
  - apply Forall_cons in Hops as [Ho Hops].
    destruct (IH (run_op o w) Hops) as [Hrows Hcont]. rewrite Hrows.
    destruct (run_op_world o w) as [Hs|[(rs & t & d & E)|E]].
    + split; [apply Hs|]. eapply continues_trans; [|exact Hcont].
      by apply continues_same_store.
    + assert (Hc1 : continues w (run_op o w))
        by (rewrite E; apply continues_with_table).
      split; [|by eapply continues_trans].
      rewrite E, rows_with_table. by case_decide.
    + assert (Hc1 : continues w (run_op o w))
        by (rewrite E; apply continues_advanced).
      split; [by rewrite E|by eapply continues_trans].
Qed.

Lemma run_ops_frame_witness :
  let inc := obj [("id", VStr "inc_001"); ("title", VStr "DB outage")] in
  let w := world_of [("Incident", [inc]); ("AuditLog", [obj [("id", VStr "log_1")]])]
                    ticking_clock in
  let ops := [Create "AuditLog" (obj [("incident_id", VStr "inc_001")]);
              Update "Decision" (VStr "dec_1") (obj [("decision", VStr "approved")]);
              Remove "AuditLog" (VStr "log_1")] in
  Forall (λ o, op_table o ≠ "Incident") ops ∧
  rows (run_ops ops w) "Incident" = [inc].
Proof.
  intros inc w ops.
  assert (H : Forall (λ o, op_table o ≠ "Incident") ops).
  { repeat constructor; discriminate. }
  split; [exact H|].
  rewrite (proj1 (run_ops_frame ops w "Incident" H)). vm_compute; reflexivity.
Defined.

(** ** The record store: identifiers stay unique *)

Lemma run_op_draws o w :
  draws (run_op o w) =
  ((match o with Create _ _ => 1 | _ => 0 end) + draws w)%nat.
Proof.
  destruct o as [table data|table id patch|table id]; simpl.
  - destruct (decide (is_table w table)) as [Ht|Ht].
    + by rewrite db_create_run by apply _.
    + by rewrite (db_create_shadowed _ _ _ Ht).
  - destruct (db_update_world w table id patch) as [H|[rs ->]]; [|done].
    by destruct H as (_ & _ & _ & _ & ->).
  - destruct (db_remove_world w table id) as [H|[rs ->]]; [|done].
    by destruct H as (_ & _ & _ & _ & ->).
Qed.

Lemma findIndex_ids id rs :
  Forall (λ r, ∃ s, get r "id" = VStr s) rs →
  Forall (λ r, has_id id r = Some false) rs ∨
  ∃ i old, rs !! i = Some old ∧ has_id id old = Some true ∧
           ∀ j r, (j < i)%nat → rs !! j = Some r → has_id id r = Some false.
Proof.
  induction 1 as [|x rs [sx Hx] Hrs IH]; [left; constructor|].
  assert (∃ b, has_id id x = Some b) as [[|] Hb].
  { unfold has_id. rewrite Hx. destruct id; simpl; eauto. }
  - right. exists O, x. split; [done|]. split; [done|]. lia.
  - destruct IH as [IH|(i & old & Hi & Hold & Hbefore)].
    + left. by constructor.
    + right. exists (S i), old. split; [done|]. split; [done|].
      intros [|j] r Hj Hr; simpl in Hr; [congruence|]. apply (Hbefore j); [lia|done].
Qed.

Lemma store_ids_rows w w' :
  (∀ table, rows w' table = rows w table) → continues w w' →
  store_ids w → store_ids w'.
Proof.
  intros Hrows (_ & Hu & _ & Hd) Hw table. rewrite Hrows.
  destruct (Hw table) as [Hf Hn]. split; [|done].
  eapply Forall_impl; [exact Hf|]. intros r (d & Hlt & Hid).
  exists d. rewrite Hu. split; [lia|done].
Qed.

Lemma store_ids_with_table w table rs t d :
  store_ids w →
  Forall (λ r, ∃ n, (n < d + draws w)%nat ∧ get r "id" = VStr (uuids w n)) rs →
  NoDup ((λ r, get r "id") <$> rs) →
  store_ids (with_table w table rs t d).
Proof.
  intros Hw Hf Hn table'. rewrite rows_with_table. case_decide; [done|].
  destruct (Hw table') as [Hf' Hn']. split; [|done].
  eapply Forall_impl; [exact Hf'|]. intros r (n & Hlt & Hid).
  exists n. simpl. split; [lia|done].
Qed.

Lemma store_ids_step o w :
  store_ids w → distinct_uuids w → keeps_id o → store_ids (run_op o w).
Proof.
  intros Hw Hinj Hk.
  assert (Hsame : ∀ w', same_store w w' → store_ids w').
  { intros w' Hs. apply (store_ids_rows w); [apply Hs|by apply continues_same_store|done]. }
  assert (Hstr : ∀ table, Forall (λ r, ∃ s, get r "id" = VStr s) (rows w table)).
  { intros table. destruct (Hw table) as [Hf _].
    eapply Forall_impl; [exact Hf|]. intros r (d & _ & Hid). eauto. }
  destruct o as [table data|table id patch|table id]; simpl in *.
  - destruct (decide (is_table w table)) as [Ht|Ht].
    2:{ rewrite (db_create_shadowed _ _ _ Ht). simpl.
        apply (store_ids_rows w); [done|apply continues_advanced|done]. }
    rewrite db_create_run by apply _. simpl.
    set (rec := new_record w data).
    assert (Gid : get rec "id" = VStr (uuids w (draws w))).
    { unfold rec, new_record. by rewrite get_spread_r. }
    destruct (Hw table) as [Hf Hn].
    apply store_ids_with_table; [done| |].
    + apply Forall_app. split.
      * eapply Forall_impl; [exact Hf|]. intros r (d & Hlt & Hid).
        exists d. split; [lia|done].
      * constructor; [|constructor]. exists (draws w). split; [lia|done].
    + rewrite fmap_app. apply NoDup_app. split; [done|]. split.
      * intros v Hv Hv'. apply list_elem_of_fmap in Hv as (r & -> & Hr).
        simpl in Hv'. apply list_elem_of_singleton in Hv'. rewrite Gid in Hv'.
        rewrite Forall_forall in Hf. destruct (Hf r Hr) as (d & Hd & Hrid).
        rewrite Hrid in Hv'. injection Hv' as Hv'. apply Hinj in Hv'. lia.
      * simpl. apply NoDup_singleton.
  - destruct (decide (is_table w table)) as [Ht|Ht].
    2:{ rewrite (db_update_shadowed _ _ _ _ Ht). simpl. apply Hsame, same_store_refl. }
    destruct (findIndex_ids id (rows w table) (Hstr table))
      as [Hnone|(i & old & Hi & Hold & Hbefore)].
    + destruct (db_update_missing w table id patch Hnone) as (w' & -> & Hs).
      by apply Hsame.
    + rewrite (db_update_found w table id patch i old Hi Hold Hbefore). simpl.
      assert (Gid : get (patched w old patch) "id" = get old "id")
        by by apply patched_keeps.
      assert (Hin : old ∈ rows w table) by by eapply list_elem_of_lookup_2.
      destruct (Hw table) as [Hf Hn].
      apply store_ids_with_table; [done| |].
      * apply Forall_insert; [done|]. rewrite Forall_forall in Hf.
        destruct (Hf old Hin) as (d & Hd & Hoid). exists d. split; [lia|congruence].
      * rewrite list_fmap_insert. rewrite list_insert_id; [done|].
        rewrite list_lookup_fmap, Hi. simpl. by rewrite Gid.
  - destruct (decide (is_table w table)) as [Ht|Ht].
    2:{ rewrite (db_remove_shadowed _ _ _ Ht). simpl. apply Hsame, same_store_refl. }
    destruct (findIndex_ids id (rows w table) (Hstr table))
      as [Hnone|(i & old & Hi & Hold & Hbefore)].
    + rewrite (db_remove_missing w table id Hnone). simpl.
      apply Hsame, ensured_same_store.
    + rewrite (db_remove_found w table id i old Hi Hold Hbefore). simpl.
      destruct (Hw table) as [Hf Hn].
      apply store_ids_with_table; [done| |].
      * by apply Forall_delete.
      * rewrite list_fmap_delete. eapply sublist_NoDup; [exact Hn|apply sublist_delete].
Qed.

Lemma run_op_uuids o w : uuids (run_op o w) = uuids w.
Proof.
  destruct (run_op_world o w) as [Hs|[(rs & t & d & ->)| ->]]; [apply Hs|done..].
Qed.

Lemma store_ids_run ops w :
  store_ids w → distinct_uuids w → Forall keeps_id ops →
  store_ids (run_ops ops w) ∧ uuids (run_ops ops w) = uuids w.
Proof.
  revert w. induction ops as [|o ops IH]; intros w Hw Hinj Hk; simpl; [done|].
  apply Forall_cons in Hk as [Ho Hk].
  assert (Hinj1 : distinct_uuids (run_op o w)).
  { intros a b. rewrite run_op_uuids. apply Hinj. }
  destruct (IH (run_op o w) (store_ids_step o w Hw Hinj Ho) Hinj1 Hk) as [H1 H2].
  split; [done|]. by rewrite H2, run_op_uuids.
Qed.

Lemma store_ids_empty clk : store_ids (world_of [] clk).
Proof.
  intros table. unfold rows, world_of. simpl. rewrite lookup_empty. simpl.
  split; constructor.
Qed.

(** X2.  Start from a store whose ids were assigned by the store (an
    empty one, say; the dates of its rows do not matter), with a supply of
    pairwise distinct identifiers, and run any calls that leave the [id]
    to the store.  Then no two rows of a table share an [id], every [id]
    is one of the identifiers drawn so far, and exactly one identifier is
    drawn per create. *)
Theorem run_ops_unique_ids w ops :
  store_ids w → distinct_uuids w → Forall keeps_id ops →
  (∀ table i j r1 r2,
     rows (run_ops ops w) table !! i = Some r1 →
     rows (run_ops ops w) table !! j = Some r2 →
     get r1 "id" = get r2 "id" → i = j) ∧
  (∀ table r, r ∈ rows (run_ops ops w) table →
     ∃ d, (d < draws (run_ops ops w))%nat ∧ get r "id" = VStr (uuids w d)) ∧
  draws (run_ops ops w) = (creates ops + draws w)%nat.
Proof.
  intros Hw Hinj Hk.
  destruct (store_ids_run ops w Hw Hinj Hk) as (Hw' & Huu).
  split; [|split].
  - intros table i j r1 r2 Hi Hj Hid. destruct (Hw' table) as [_ Hn].
    eapply NoDup_lookup; [exact Hn| |].
    + rewrite list_lookup_fmap, Hi. reflexivity.
    + rewrite list_lookup_fmap, Hj. simpl. by rewrite Hid.
  - intros table r Hr. destruct (Hw' table) as [Hf _]. rewrite Forall_forall in Hf.
    destruct (Hf r Hr) as (d & Hd & Hid).
    exists d. split; [done|]. by rewrite <- Huu.
  - clear. revert w. induction ops as [|o ops IH]; intros w; simpl; [done|].
    change (fold_left (λ w o, run_op o w) ops (run_op o w))
      with (run_ops ops (run_op o w)).
    rewrite IH, run_op_draws. unfold creates. simpl.
    destruct o; simpl; lia.
Qed.

Lemma run_ops_unique_ids_witness :
  let w := world_of [] ticking_clock in
  let ops := [Create "Incident" (obj [("title", VStr "DB outage")]);
              Create "Incident" (obj [("title", VStr "Login failures");
                                      ("created_date", VStr "2020-01-01T00:00:00.000Z")]);
              Update "Incident" (VStr "uuid-") (obj [("status", VStr "resolved")]);
              Create "AuditLog" (obj [("action_type", VStr "incident_created")])] in
  store_ids w ∧ distinct_uuids w ∧ Forall keeps_id ops ∧
  draws (run_ops ops w) = 3%nat ∧
  ∀ i j r1 r2,
    rows (run_ops ops w) "Incident" !! i = Some r1 →
    rows (run_ops ops w) "Incident" !! j = Some r2 →
    get r1 "id" = get r2 "id" → i = j.
Proof.
  intros w ops.
  assert (H1 : store_ids w) by apply store_ids_empty.
  assert (H2 : distinct_uuids w) by (intros a b; apply demo_uuids_distinct).
  assert (H3 : Forall keeps_id ops).
  { repeat constructor; vm_compute; reflexivity. }
  split; [exact H1|]. split; [exact H2|]. split; [exact H3|].
  destruct (run_ops_unique_ids w ops H1 H2 H3) as (Huniq & _ & Hdraws).
  split; [exact Hdraws|]. exact (Huniq "Incident").
Defined.

(** ** The record store: [remove] *)

Lemma findIndex_remove_first {A} (p : A → option bool) (l : list A) :
  Forall (λ x, is_Some (p x)) l →
  match findIndex p l with
  | Some (Some i) => delete i l = remove_first (λ x, default false (p x)) l
  | Some None => remove_first (λ x, default false (p x)) l = l
  | None => False
  end.
Proof.
  induction 1 as [|x l [b Hb] Hl IH]; simpl; [done|].
  rewrite Hb. simpl. destruct b; [done|].
  destruct (findIndex p l) as [[i|]|]; simpl; [by rewrite IH|by rewrite IH|done].
Qed.

(** X3.  On a table that is there, or whose name is none that a plain
    object inherits, [remove(table, id)] for an [id] that is no array or
    object answers [{ ok: true }].  It takes out the first row whose [id]
    is strictly equal to [id] and keeps the other rows in their order;
    when there is no such row the table is as it was.  Other tables are
    not touched, the clock is not read and no identifier is drawn. *)
Theorem db_remove_spec w table id :
  is_table w table →
  is_composite id = false →
  ∃ w',
    db_remove table id w = (Ok {["ok" := VBool true]}, w') ∧
    rows w' table = remove_first (λ r, default false (has_id id r)) (rows w table) ∧
    (Forall (λ r, has_id id r = Some false) (rows w table) →
     rows w' table = rows w table) ∧
    (∀ table', table' ≠ table → rows w' table' = rows w table') ∧
    ticks w' = ticks w ∧ draws w' = draws w.
Proof.
  intros Htable Hid.
  assert (Hall : Forall (λ r, is_Some (has_id id r)) (rows w table)).
  { apply Forall_forall. intros r _. by apply strict_eq_primitive. }
  pose proof (findIndex_remove_first _ _ Hall) as Hfind.
  assert (Hnone : Forall (λ r, has_id id r = Some false) (rows w table) →
                  remove_first (λ r, default false (has_id id r)) (rows w table)
                  = rows w table).
  { clear. induction 1 as [|r rs Hr Hrs IH]; simpl; [done|]. by rewrite Hr, IH. }
  destruct (findIndex (has_id id) (rows w table)) as [[i|]|] eqn:Hf; [| |done].
  - apply findIndex_some in Hf as (old & Hi & Hold & Hbefore).
    eexists. split; [by apply (db_remove_found w table id i old)|].
    split; [rewrite rows_with_table; by case_decide|].
    split; [intros Hn; rewrite rows_with_table; case_decide; [|done];
            by rewrite Hfind, Hnone|].
    split; [intros t' Hne; rewrite rows_with_table; by case_decide|]. done.
  - apply findIndex_none in Hf.
    exists (ensured w table). split; [by eapply (db_remove_missing _ _ _)|].
    destruct (ensured_same_store w table) as (Hrows & _ & Ht & _ & Hd).
    split; [by rewrite Hrows, Hfind|]. split; [intros _; apply Hrows|].
    split; [intros t' _; apply Hrows|]. done.
Qed.

Lemma db_remove_spec_witness :
  let a := obj [("id", VStr "a"); ("n", VStr "first")] in
  let b := obj [("id", VStr "b")] in
  let a' := obj [("id", VStr "a"); ("n", VStr "second")] in
  let w := world_of [("Decision", [a; b; a'])] ticking_clock in
  is_table w "Decision" ∧
  is_composite (VStr "a") = false ∧
  ∃ w', db_remove "Decision" (VStr "a") w = (Ok {["ok" := VBool true]}, w') ∧
        rows w' "Decision" = [b; a'].
Proof.
  intros a b a' w.
  assert (H0 : is_table w "Decision") by reflexivity.
  assert (H : is_composite (VStr "a") = false) by reflexivity.
  split; [exact H0|]. split; [exact H|].
  destruct (db_remove_spec w "Decision" (VStr "a") H0 H) as (w' & Hrun & Hrows & _).
  exists w'. split; [exact Hrun|]. rewrite Hrows. vm_compute; reflexivity.
Defined.

(** The world a remove leaves, and its rows. *)
Lemma db_remove_rows w table id `{!is_table w table} :
  is_composite id = false →
  db_remove table id w = (Ok {["ok" := VBool true]}, (db_remove table id w).2) ∧
  is_table (db_remove table id w).2 table ∧
  rows (db_remove table id w).2 table =
    remove_first (λ r, default false (has_id id r)) (rows w table).
Proof.
  intros Hid.
  assert (Hall : Forall (λ r, is_Some (has_id id r)) (rows w table)).
  { apply Forall_forall. intros r _. by apply strict_eq_primitive. }
  pose proof (findIndex_remove_first _ _ Hall) as Hfind.
  destruct (findIndex (has_id id) (rows w table)) as [[i|]|] eqn:Hf; [| |done].
  - apply findIndex_some in Hf as (old & Hi & Hold & Hbefore).
    rewrite (db_remove_found w table id i old Hi Hold Hbefore). simpl.
    split; [done|]. split; [apply _|].
    rewrite rows_with_table. by case_decide.
  - apply findIndex_none in Hf. rewrite (db_remove_missing w table id Hf). simpl.
    split; [done|]. split; [apply _|].
    destruct (ensured_same_store w table) as (Hrows & _). by rewrite Hrows.
Qed.

Lemma keyed_cons r rs : keyed (r :: rs) → keyed rs.
Proof.
  intros [Hf Hn]. apply Forall_cons in Hf as [_ Hf]. simpl in Hn.
  apply NoDup_cons in Hn as [_ Hn]. by split.
Qed.

Lemma has_id_str s r x : get r "id" = VStr x → has_id (VStr s) r = Some (String.eqb x s).
Proof. intros H. unfold has_id. by rewrite H. Qed.

Lemma remove_first_keyed s rs :
  keyed rs →
  Forall (λ r, has_id (VStr s) r = Some false)
         (remove_first (λ r, default false (has_id (VStr s) r)) rs) ∧
  keyed (remove_first (λ r, default false (has_id (VStr s) r)) rs).
Proof.
  induction rs as [|r rs IH]; intros Hk; simpl; [by split|].
  pose proof (keyed_cons _ _ Hk) as Hk'. destruct (IH Hk') as [IH1 IH2].
  destruct Hk as [Hf Hn]. apply Forall_cons in Hf as [[x Hx] Hf].
  simpl in Hn. apply NoDup_cons in Hn as [Hnotin Hn].
  rewrite (has_id_str s r x Hx). simpl.
  destruct (String.eqb_spec x s) as [->|Hne].
  - split; [|done]. apply Forall_forall. intros r' Hr'.
    rewrite Forall_forall in Hf. destruct (Hf r' Hr') as [y Hy].
    rewrite (has_id_str s r' y Hy). f_equal. apply String.eqb_neq. intros ->.
    apply Hnotin. apply list_elem_of_fmap. exists r'. split; [congruence|done].
  - split.
    + constructor; [|done]. rewrite (has_id_str s r x Hx). f_equal.
      by apply String.eqb_neq.
    + split.
      * constructor; [by exists x|]. apply IH2.
      * simpl. apply NoDup_cons. split; [|apply IH2].
        intros Hin. apply Hnotin.
        apply list_elem_of_fmap in Hin as (r' & Hr' & Hin).
        apply list_elem_of_fmap. exists r'. split; [done|]. clear -Hin.
        induction rs as [|a rs IHrs]; simpl in Hin; [done|].
        destruct (default false (has_id (VStr s) a)).
        -- by apply list_elem_of_further.
        -- apply elem_of_cons in Hin as [->|Hin]; [apply list_elem_of_here|].
           apply list_elem_of_further. by apply IHrs.
Qed.

(** X4.  On a table that is there, or whose name is none that a plain
    object inherits, and whose rows carry pairwise distinct string ids,
    after [remove(table, id)] of a string [id] no row has that [id] any
    more: a following
    update of the [id] fails with NotFound and a second remove changes
    nothing, while the rows that are left still carry pairwise distinct
    ids. *)
Theorem db_remove_then_gone w table s patch :
  is_table w table →
  keyed (rows w table) →
  let w' := (db_remove table (VStr s) w).2 in
  Forall (λ r, has_id (VStr s) r = Some false) (rows w' table) ∧
  keyed (rows w' table) ∧
  (db_update table (VStr s) patch w').1 = Throw (RecordNotFound table (VStr s)) ∧
  ∃ w'', db_remove table (VStr s) w' = (Ok {["ok" := VBool true]}, w'') ∧
         rows w'' table = rows w' table.
Proof.
  intros Htable Hk w'.
  destruct (db_remove_rows w table (VStr s) eq_refl) as (_ & Htable' & Hrows).
  fold w' in Htable', Hrows.
  destruct (remove_first_keyed s _ Hk) as [Hgone Hkeyed]. rewrite <- Hrows in *.
  split; [done|]. split; [done|]. split.
  - destruct (db_update_missing w' table (VStr s) patch Hgone) as (w2 & -> & _). done.
  - exists (ensured w' table). split; [by eapply (db_remove_missing _ _ _)|].
    apply ensured_same_store.
Qed.

Lemma db_remove_then_gone_witness :
  let a := obj [("id", VStr "dec_1"); ("decision", VStr "approved")] in
  let b := obj [("id", VStr "dec_2"); ("decision", VStr "rejected")] in
  let w := world_of [("Decision", [a; b])] ticking_clock in
  let w' := (db_remove "Decision" (VStr "dec_1") w).2 in
  is_table w "Decision" ∧
  keyed (rows w "Decision") ∧
  (db_update "Decision" (VStr "dec_1") (obj [("decision", VStr "modified")]) w').1
    = Throw (RecordNotFound "Decision" (VStr "dec_1")).
Proof.
  intros a b w w'.
  assert (H0 : is_table w "Decision") by reflexivity.
  assert (Hrows : rows w "Decision" = [a; b]) by (vm_compute; reflexivity).
  assert (Ga : get a "id" = VStr "dec_1") by (vm_compute; reflexivity).
  assert (Gb : get b "id" = VStr "dec_2") by (vm_compute; reflexivity).
  assert (H : keyed (rows w "Decision")).
  { rewrite Hrows. split.
    - repeat constructor; eexists; eassumption.
    - simpl. rewrite Ga, Gb. apply NoDup_cons. split.
      + rewrite list_elem_of_singleton. discriminate.
      + apply NoDup_singleton. }
  split; [exact H0|]. split; [exact H|].
  exact (proj1 (proj2 (proj2
           (db_remove_then_gone w "Decision" "dec_1"
              (obj [("decision", VStr "modified")]) H0 H)))).
Defined.

(** ** The record store: [filter] *)

Lemma every_app {A} (p : A → option bool) l1 l2 :
  every p (l1 ++ l2) = b ← every p l1; if b : bool then every p l2 else Some false.
Proof.
  induction l1 as [|x l1 IH]; simpl; [done|].
  destruct (p x) as [[|]|]; simpl; [apply IH|done|done].
Qed.

Lemma some_existsb {A} (p : A → option bool) (q : A → bool) l :
  (∀ x, p x = Some (q x)) → some p l = Some (existsb q l).
Proof.
  intros H. induction l as [|x l IH]; simpl; [done|].
  rewrite H. simpl. destruct (q x); [done|exact IH].
Qed.

Lemma same_value_zero_str y x : same_value_zero y (VStr x) = Some (is_str y x).
Proof. by destruct y. Qed.

Lemma matchesEntry_strs r k vs :
  matchesEntry r (k, strs vs) =
  Some (match get r k with
        | VArr rv => existsb (λ x, existsb (λ y, is_str y x) rv) vs
        | _ => false
        end).
Proof.
  unfold matchesEntry, strs. destruct (get r k) as [| | | | |rv|]; try done.
  assert (H : ∀ l : list string,
            some (λ x, some (λ y, same_value_zero y x) rv) (VStr <$> l) =
            Some (existsb (λ x, existsb (λ y, is_str y x) rv) l)).
  { induction l as [|x l IH]; simpl; [done|].
    rewrite (some_existsb (λ y, same_value_zero y (VStr x)) (λ y, is_str y x) rv);
      [|intros y; apply same_value_zero_str].
    simpl. destruct (existsb _ rv); [done|exact IH]. }
  apply H.
Qed.

(** X5.  The clause of [filter].  An empty clause matches every record; an
    entry whose value is [undefined] constrains nothing; the entries are
    joined by "and", read from left to right; a string matches by strict
    equality with the field; an array of strings matches a field that is an
    array sharing at least one string with it, and no other field. *)
Theorem matchesWhere_spec r :
  matchesWhere r [] = Some true ∧
  (∀ k c, matchesWhere r ((k, VUndef) :: c) = matchesWhere r c) ∧
  (∀ c1 c2, matchesWhere r (c1 ++ c2) =
            b ← matchesWhere r c1; if b : bool then matchesWhere r c2 else Some false) ∧
  (∀ k v, matchesWhere r [(k, VStr v)] = Some (is_str (get r k) v)) ∧
  (∀ k vs, is_Some (matchesWhere r [(k, strs vs)]) ∧
           (matchesWhere r [(k, strs vs)] = Some true ↔
            ∃ rv x, get r k = VArr rv ∧ x ∈ vs ∧ VStr x ∈ rv)).
Proof.
  split; [done|]. split; [done|]. split; [intros c1 c2; apply every_app|]. split.
  - intros k v. unfold matchesWhere. simpl.
    destruct (get r k) as [| | | |x| |]; simpl; try done. by destruct (String.eqb x v).
  - intros k vs. unfold matchesWhere.
    change (every (matchesEntry r) [(k, strs vs)])
      with (b ← matchesEntry r (k, strs vs); if b : bool then Some true else Some false).
    rewrite matchesEntry_strs. simpl.
    split.
    { by destruct (match get r k with VArr rv => _ | _ => false end). }
    destruct (get r k) as [| | | | |rv|] eqn:Hg;
      try (split; [done|by intros (rv' & x & ? & _)]).
    destruct (existsb (λ x, existsb (λ y, is_str y x) rv) vs) eqn:He.
    + split; [|done]. intros _. apply existsb_exists in He as (x & Hx & He).
      apply existsb_exists in He as (y & Hy & He).
      destruct y as [| | | |s| |]; simpl in He; try done.
      apply String.eqb_eq in He as ->.
      exists rv, x. split; [done|]. split; by apply list_elem_of_In.
    + split; [done|]. intros (rv' & x & Hrv & Hx & Hin). injection Hrv as <-.
      assert (existsb (λ x, existsb (λ y, is_str y x) rv) vs = true); [|congruence].
      apply existsb_exists. exists x. split; [by apply list_elem_of_In|].
      apply existsb_exists. exists (VStr x). split; [by apply list_elem_of_In|].
      simpl. apply String.eqb_refl.
Qed.

(** X6.  [filter(table, where, sort, limit)] with a limit that is not
    negative, on a table that is there or whose name is none that a plain
    object inherits, where the clause answers on every row: the result is
    the first [limit] of the accepted rows, and the accepted rows are
    exactly the rows of the table on which the clause is true.  With the
    empty sort name they stand in the order of the table; with any other,
    when they all hold a string in the sort field, or all a number other
    than NaN, they are arranged by that field, rows whose keys are [===]
    in the order of the table.  The call changes no table. *)
Theorem db_filter_spec w table where_ sort limit :
  let s := default "-created_date" sort in
  let n := default 1000%Z limit in
  let accepted := List.filter (λ r, default false (matchesWhere r where_)) (rows w table) in
  is_table w table →
  (0 <= n)%Z →
  Forall (λ r, is_Some (matchesWhere r where_)) (rows w table) →
  (s ≠ "" → sortable (sort_field s) accepted) →
  ∃ l w',
    db_filter table where_ sort limit w = (Ok (take (Z.to_nat n) l), w') ∧
    same_store w w' ∧
    l ≡ₚ accepted ∧
    (∀ r, r ∈ l ↔ r ∈ rows w table ∧ matchesWhere r where_ = Some true) ∧
    (s = "" → l = accepted) ∧
    (s ≠ "" →
     StronglySorted (ordered (sort_field s) (sort_desc s)) l ∧
     (∀ v, tied (sort_field s) v l = tied (sort_field s) v accepted)).
Proof.
  intros s n accepted Htable Hn Hall Hkeys.
  destruct (filter_by_total _ _ Hall) as [f Hf].
  pose proof (filter_by_spec _ _ _ Hf) as [Hfeq _]. fold accepted in Hfeq. subst f.
  assert (Hrun : ∀ l, sortByField accepted s = Some l →
                      db_filter table where_ sort limit w =
                      (Ok (take (Z.to_nat n) l), ensured w table)).
  { intros l Hl. rewrite db_filter_eq, Hf by apply _. fold s. rewrite Hl. fold n.
    unfold slice0. by destruct (Z.leb_spec 0 n); [|lia]. }
  assert (Hmem : ∀ l, l ≡ₚ accepted →
                      ∀ r, r ∈ l ↔ r ∈ rows w table ∧ matchesWhere r where_ = Some true).
  { intros l Hp r. rewrite Hp. unfold accepted.
    rewrite list_elem_of_In, filter_In, <- list_elem_of_In.
    split; intros [Hr Hm]; (split; [done|]).
    - destruct (matchesWhere r where_) as [[|]|]; done.
    - by rewrite Hm. }
  destruct (String.eqb_spec s "") as [Hs|Hs].
  - exists accepted, (ensured w table).
    split; [apply Hrun; unfold sortByField; by rewrite Hs|].
    split; [apply ensured_same_store|]. split; [done|].
    split; [by apply Hmem|]. split; done.
  - destruct (sortByField_sortable accepted s Hs (Hkeys Hs))
      as (l & Hl & Hp & Hsorted & Hstable).
    exists l, (ensured w table). split; [by apply Hrun|].
    split; [apply ensured_same_store|]. split; [done|].
    split; [by apply Hmem|]. split; [done|]. intros _. by split.
Qed.

Lemma db_filter_spec_witness :
  let a := obj [("id", VStr "a"); ("status", VStr "active");
                ("created_date", VStr "2024-01-01T00:00:00.000Z")] in
  let b := obj [("id", VStr "b"); ("status", VStr "dismissed")] in
  let c := obj [("id", VStr "c"); ("status", VStr "active");
                ("created_date", VStr "2024-01-02T00:00:00.000Z")] in
  let w := world_of [("PredictiveAlert", [a; b; c])] ticking_clock in
  let where_ := [("status", VStr "active")] in
  is_table w "PredictiveAlert" ∧ (0 <= 1000)%Z ∧
  Forall (λ r, is_Some (matchesWhere r where_)) (rows w "PredictiveAlert") ∧
  sortable "created_date"
         (List.filter (λ r, default false (matchesWhere r where_))
                      (rows w "PredictiveAlert")) ∧
  ∃ l w', db_filter "PredictiveAlert" where_ None None w = (Ok (take 1000 l), w') ∧
          l ≡ₚ [a; c] ∧ b ∉ l.
Proof.
  intros a b c w where_.
  assert (Hrows : rows w "PredictiveAlert" = [a; b; c]) by (vm_compute; reflexivity).
  assert (Ma : matchesWhere a where_ = Some true) by (vm_compute; reflexivity).
  assert (Mb : matchesWhere b where_ = Some false) by (vm_compute; reflexivity).
  assert (Mc : matchesWhere c where_ = Some true) by (vm_compute; reflexivity).
  assert (Hacc : List.filter (λ r, default false (matchesWhere r where_))
                             (rows w "PredictiveAlert") = [a; c]).
  { rewrite Hrows. simpl. by rewrite Ma, Mb, Mc. }
  assert (H0 : is_table w "PredictiveAlert") by reflexivity.
  assert (H1 : (0 <= 1000)%Z) by lia.
  assert (H3 : Forall (λ r, is_Some (matchesWhere r where_)) (rows w "PredictiveAlert")).
  { rewrite Hrows. repeat constructor; by eexists. }
  assert (H4 : sortable "created_date"
                 (List.filter (λ r, default false (matchesWhere r where_))
                              (rows w "PredictiveAlert"))).
  { left. rewrite Hacc. repeat constructor.
    - exists "2024-01-01T00:00:00.000Z". vm_compute; reflexivity.
    - exists "2024-01-02T00:00:00.000Z". vm_compute; reflexivity. }
  split; [exact H0|]. split; [exact H1|]. split; [exact H3|]. split; [exact H4|].
  destruct (db_filter_spec w "PredictiveAlert" where_ None None H0 H1 H3 (λ _, H4))
    as (l & w' & Hrun & _ & Hp & Hiff & _).
  exists l, w'. split; [exact Hrun|]. split; [by rewrite Hp, Hacc|].
  intros Hb. apply Hiff in Hb as [_ Hb]. congruence.
Defined.

(** ** More on the heuristic analyzer *)

Lemma keywordScore_count text ks :
  keywordScore text ks = length (List.filter (includes (toLowerCase text)) ks).
Proof.
  unfold keywordScore.
  assert (H : ∀ acc,
    fold_left (λ acc k, if includes (toLowerCase text) k then S acc else acc) ks acc =
    (acc + length (List.filter (includes (toLowerCase text)) ks))%nat).
  { induction ks as [|k ks IH]; intros acc; simpl; [lia|].
    rewrite IH. destruct (includes (toLowerCase text) k); simpl; lia. }
  apply (H O).
Qed.

Lemma keywordScore_pos text ks :
  (0 <? keywordScore text ks)%nat = true ↔ ∃ k, k ∈ ks ∧ contains_ci text k.
Proof.
  rewrite keywordScore_count, Nat.ltb_lt. split.
  - intros H. destruct (List.filter _ ks) as [|k l] eqn:E; [simpl in H; lia|].
    assert (Hk : In k (List.filter (includes (toLowerCase text)) ks))
      by (rewrite E; by left).
    apply filter_In in Hk as [Hk Hinc]. exists k. split; [by apply list_elem_of_In|].
    by apply includes_contains_ci.
  - intros (k & Hk & Hc).
    assert (Hin : In k (List.filter (includes (toLowerCase text)) ks)).
    { apply filter_In. split; [by apply list_elem_of_In|by apply includes_contains_ci]. }
    destruct (List.filter _ ks); [done|simpl; lia].
Qed.

(** X9.  The three signals of the analyzer.  Each is raised exactly when the
    text "title description" (the logs standing in for a missing or empty
    description), in lower case, contains one of the keywords of the signal
    anywhere, inside a longer word too; the score of a keyword list never
    exceeds its length; and "timeout", which both lists carry, raises the
    database and the API signal together. *)
Theorem signals_spec i :
  (∀ text ks, (keywordScore text ks <= length ks)%nat) ∧
  (isAuth i = true ↔
   ∃ k, k ∈ ["auth"; "login"; "token"; "sso"] ∧ contains_ci (signal_text i) k) ∧
  (isDb i = true ↔
   ∃ k, k ∈ ["db"; "database"; "postgres"; "mysql"; "query"; "timeout"] ∧
        contains_ci (signal_text i) k) ∧
  (isApi i = true ↔
   ∃ k, k ∈ ["api"; "5xx"; "gateway"; "latency"; "timeout"] ∧
        contains_ci (signal_text i) k) ∧
  (contains_ci (signal_text i) "timeout" → isDb i = true ∧ isApi i = true) ∧
  (∀ d, i_description i = Some d → d ≠ "" →
        signal_text i = title_of i +:+ " " +:+ d) ∧
  (i_description i = None ∨ i_description i = Some "" →
   signal_text i = title_of i +:+ " " +:+ or_str (i_logs i) "").
Proof.
  split.
  { intros text ks. rewrite keywordScore_count. apply filter_length_le. }
  split; [apply keywordScore_pos|]. split; [apply keywordScore_pos|].
  split; [apply keywordScore_pos|]. split.
  { intros H. split; apply keywordScore_pos; exists "timeout"; (split; [|done]);
      repeat first [apply list_elem_of_here|apply list_elem_of_further]. }
  split.
  - intros d Hd Hne. unfold signal_text, desc_of. rewrite Hd. simpl.
    by destruct (String.eqb_spec d "").
  - intros [Hd|Hd]; unfold signal_text, desc_of; by rewrite Hd.
Qed.

Lemma signals_spec_witness :
  let i := Incident (Some "Feedback form slow") (Some "") (Some "Gateway timeout")
                    None None None VUndef in
  contains_ci (signal_text i) "timeout" ∧
  isDb i = true ∧ isApi i = true ∧ isAuth i = false.
Proof.
  intros i.
  assert (H : contains_ci (signal_text i) "timeout").
  { apply includes_contains_ci. vm_compute. reflexivity. }
  split; [exact H|].
  split; [exact (proj1 (proj1 (proj2 (proj2 (proj2 (proj2 (signals_spec i))))) H))|].
  split; [exact (proj2 (proj1 (proj2 (proj2 (proj2 (proj2 (signals_spec i))))) H))|].
  vm_compute. reflexivity.
Defined.

Lemma baseConf_cases sev :
  (sev ∈ ["constructor"; "__proto__"] ∧ baseConf sev = PrimFloat.nan) ∨
  ((sev ∉ ["constructor"; "__proto__"]) ∧
   (baseConf sev = 0.78 ∨ baseConf sev = 0.72 ∨ baseConf sev = 0.66 ∨ baseConf sev = 0.6)).
Proof.
  unfold baseConf.
  destruct (String.eqb_spec sev "critical") as [->|_].
  { right. split; [|by left]. rewrite !not_elem_of_cons. repeat split; try discriminate.
    apply not_elem_of_nil. }
  destruct (String.eqb_spec sev "high") as [->|_].
  { right. split; [|by right; left]. rewrite !not_elem_of_cons.
    repeat split; try discriminate. apply not_elem_of_nil. }
  destruct (String.eqb_spec sev "medium") as [->|_].
  { right. split; [|by right; right; left]. rewrite !not_elem_of_cons.
    repeat split; try discriminate. apply not_elem_of_nil. }
  destruct (String.eqb_spec sev "low") as [->|_].
  { right. split; [|by right; right; right]. rewrite !not_elem_of_cons.
    repeat split; try discriminate. apply not_elem_of_nil. }
  destruct (String.eqb_spec sev "constructor") as [->|N1].
  { left. split; [apply list_elem_of_here|done]. }
  destruct (String.eqb_spec sev "__proto__") as [->|N2].
  { left. split; [apply list_elem_of_further, list_elem_of_here|done]. }
  right. split; [|by right; right; left].
  rewrite !not_elem_of_cons. repeat split; try done. apply not_elem_of_nil.
Qed.

(** X10.  The numbers of an analysis.  There are always three root causes and
    three recommendations.  Every probability lies between 0.25 and 0.6
    and every confidence of a recommendation between 0.62 and 0.85, the
    recommendations in descending order of confidence; the root causes are
    not ordered by probability: the second outweighs the first exactly
    when the auth signal is raised and the database signal is not.  The
    confidence score is not a number exactly when the severity, in lower
    case, is one of the two names an object literal inherits; for every
    other severity it lies between 0.52 and 0.78, and below 0.6 only with
    the penalty for a short description. *)
Theorem analysis_numbers i :
  let a := buildAnalysisFromIncident i in
  length (root_causes a) = 3%nat ∧ length (recommendations a) = 3%nat ∧
  Forall (λ r, (0.25 <=? probability r) = true ∧ (probability r <=? 0.6) = true)
         (root_causes a) ∧
  Forall (λ r, (0.62 <=? confidence r) = true ∧ (confidence r <=? 0.85) = true)
         (recommendations a) ∧
  StronglySorted (λ r r', (confidence r' <? confidence r) = true) (recommendations a) ∧
  (∀ r1 r2 rest, root_causes a = r1 :: r2 :: rest →
     ((probability r1 <? probability r2) = true ↔ isAuth i = true ∧ isDb i = false)) ∧
  (PrimFloat.is_nan (confidence_score a) = true ↔
   sev_of i ∈ ["constructor"; "__proto__"]) ∧
  (sev_of i ∉ ["constructor"; "__proto__"] →
   (0.52 <=? confidence_score a) = true ∧ (confidence_score a <=? 0.78) = true ∧
   ((confidence_score a <? 0.6) = true → enough_context (desc_of i) = false)).
Proof.
  intros a. subst a. unfold buildAnalysisFromIncident. cbn [root_causes recommendations
    confidence_score length]. unfold dataQualityPenalty.
  split; [done|]. split; [done|]. split.
  { destruct (isDb i), (isAuth i), (isApi i);
      repeat constructor; vm_compute; reflexivity. }
  split.
  { destruct (enough_context (desc_of i)); repeat constructor; vm_compute; reflexivity. }
  split.
  { destruct (enough_context (desc_of i)); repeat constructor; vm_compute; reflexivity. }
  split.
  { intros r1 r2 rest E. injection E as <- <- _. cbn [probability].
    destruct (isDb i), (isAuth i); vm_compute; split;
      try done; try (intros [? ?]; done). }
  destruct (baseConf_cases (sev_of i)) as [[Hin Hb]|[Hnin Hb]].
  - rewrite Hb. split.
    + split; [done|]. intros _. destruct (enough_context (desc_of i)); vm_compute; reflexivity.
    + intros Hn. by destruct Hn.
  - split.
    + split; [|done]. intros Hnan. exfalso.
      destruct Hb as [Hb|[Hb|[Hb|Hb]]]; rewrite Hb in Hnan;
        destruct (enough_context (desc_of i)); vm_compute in Hnan; discriminate.
    + intros _.
      destruct Hb as [Hb|[Hb|[Hb|Hb]]]; rewrite Hb;
        destruct (enough_context (desc_of i)); vm_compute; repeat split; try done.
Qed.

Lemma analysis_numbers_witness :
  let i := Incident (Some "SSO login failures") (Some "Token validation fails") None
                    (Some "Low") None None VUndef in
  let a := buildAnalysisFromIncident i in
  (sev_of i ∉ ["constructor"; "__proto__"]) ∧
  (0.52 <=? confidence_score a) = true ∧ (confidence_score a <=? 0.78) = true ∧
  (confidence_score a <? 0.6) = true ∧ enough_context (desc_of i) = false.
Proof.
  intros i a.
  assert (H : sev_of i ∉ ["constructor"; "__proto__"]).
  { rewrite !not_elem_of_cons. repeat split; try (vm_compute; discriminate).
    apply not_elem_of_nil. }
  destruct (proj2 (proj2 (proj2 (proj2 (proj2 (proj2 (proj2 (analysis_numbers i))))))) H)
    as (H1 & H2 & H3).
  assert (H4 : (confidence_score a <? 0.6) = true) by (vm_compute; reflexivity).
  split; [exact H|]. split; [exact H1|]. split; [exact H2|]. split; [exact H4|].
  exact (H3 H4).
Defined.

(** ** The automation of a fresh analysis *)

Lemma get_obj_cons k v rest k' :
  get (obj ((k, v) :: rest)) k' = if decide (k = k') then v else get (obj rest) k'.
Proof.
  unfold get, obj. simpl. case_decide as E.
  - subst. by rewrite lookup_insert_eq.
  - by rewrite lookup_insert_ne.
Qed.

Lemma get_obj_nil k : get (obj []) k = VUndef.
Proof. reflexivity. Qed.

Ltac get_obj :=
  repeat first
    [ rewrite get_obj_nil
    | rewrite get_obj_cons;
      let Hk := fresh "Hk" in
      case_decide as Hk;
      [ try discriminate Hk | try (exfalso; apply Hk; reflexivity) ];
      clear Hk ].

Lemma confidence_plus_fresh a :
  confidence_plus (analysis_value a) = Some (confidence_score a + 0.1).
Proof.
  unfold confidence_plus, analysis_value. get_obj. reflexivity.
Qed.

(** X11.  The automation generator after the analyzer.  On the analysis the
    analyzer has just built for the same incident the generator always
    answers, with the confidence of the analysis raised by 0.1: above the
    confidence of the analysis, between 0.62 and 0.88, for every severity
    that an object literal does not inherit, and not a number for the two
    that it does.  Without an analysis object, or with one that carries no
    confidence score, the confidence is 0.7 + 0.1, which in binary floating
    point is below 0.8.  The analysis enters the result through this one
    number: team, rationale, scripts and communication are the same
    whatever the analysis. *)
Theorem automation_of_analysis i :
  let fresh := buildAnalysisFromIncident i in
  (∃ a, buildAutomationForIncident i (analysis_value fresh) = Some a ∧
        automation_confidence a = clamp01 (confidence_score fresh + 0.1) ∧
        (sev_of i ∈ ["constructor"; "__proto__"] →
         PrimFloat.is_nan (automation_confidence a) = true) ∧
        (sev_of i ∉ ["constructor"; "__proto__"] →
         (0.62 <=? automation_confidence a) = true ∧
         (automation_confidence a <=? 0.88) = true ∧
         (confidence_score fresh <? automation_confidence a) = true)) ∧
  (∀ analysis,
     match analysis with
     | VObj o => get o "confidence_score" = VUndef ∨ get o "confidence_score" = VNull
     | _ => True
     end →
     ∃ a, buildAutomationForIncident i analysis = Some a ∧
          automation_confidence a = 0.7 + 0.1 ∧
          (automation_confidence a <? 0.8) = true) ∧
  (∀ an1 an2 a1 a2,
     buildAutomationForIncident i an1 = Some a1 →
     buildAutomationForIncident i an2 = Some a2 →
     assigned_team a1 = assigned_team a2 ∧
     assignment_rationale a1 = assignment_rationale a2 ∧
     diagnostic_scripts a1 = diagnostic_scripts a2 ∧
     stakeholder_communication a1 = stakeholder_communication a2).
Proof.
  intros fresh. split; [|split].
  - unfold buildAutomationForIncident. rewrite confidence_plus_fresh. simpl.
    eexists. split; [reflexivity|]. cbn [automation_confidence].
    split; [reflexivity|].
    subst fresh. unfold buildAnalysisFromIncident. cbn [confidence_score].
    unfold dataQualityPenalty.
    destruct (baseConf_cases (sev_of i)) as [[Hin Hb]|[Hnin Hb]].
    + split; [|done]. intros _. rewrite Hb.
      destruct (enough_context (desc_of i)); vm_compute; reflexivity.
    + split; [done|]. intros _.
      destruct Hb as [Hb|[Hb|[Hb|Hb]]]; rewrite Hb;
        destruct (enough_context (desc_of i)); vm_compute; repeat split; try done.
  - intros analysis Han. unfold buildAutomationForIncident.
    assert (Hc : confidence_plus analysis = Some (0.7 + 0.1)).
    { unfold confidence_plus. destruct analysis as [| | | | | |o]; try reflexivity.
      by destruct Han as [-> | ->]. }
    rewrite Hc. simpl. eexists. split; [reflexivity|]. cbn [automation_confidence].
    split; vm_compute; reflexivity.
  - intros an1 an2 a1 a2 H1 H2. unfold buildAutomationForIncident in H1, H2.
    destruct (confidence_plus an1) as [c1|]; [|done].
    destruct (confidence_plus an2) as [c2|]; [|done].
    simpl in H1, H2. injection H1 as <-. injection H2 as <-. done.
Qed.

Lemma automation_of_analysis_witness :
  let i := Incident (Some "SSO login failures") (Some "Token validation fails") None
                    (Some "high") (Some ["Auth Service"]) None VUndef in
  let fresh := buildAnalysisFromIncident i in
  (sev_of i ∉ ["constructor"; "__proto__"]) ∧
  ∃ a, buildAutomationForIncident i (analysis_value fresh) = Some a ∧
       (0.62 <=? automation_confidence a) = true ∧
       (automation_confidence a <=? 0.88) = true ∧
       (confidence_score fresh <? automation_confidence a) = true.
Proof.
  intros i fresh.
  assert (H : sev_of i ∉ ["constructor"; "__proto__"]).
  { rewrite !not_elem_of_cons. repeat split; try (vm_compute; discriminate).
    apply not_elem_of_nil. }
  split; [exact H|].
  destruct (proj1 (automation_of_analysis i)) as (a & Ha & _ & _ & Hr).
  exists a. split; [exact Ha|]. exact (Hr H).
Defined.

(** ** The errors of the dispatch *)

Lemma raises_ret {A} (a : A) P : raises (ret a) P.
Proof. intros w e w' H. inversion H. Qed.

Lemma raises_lift {A} (o : option A) P : raises (lift o) P.
Proof. intros w e w' H. unfold lift in H. destruct o; inversion H. Qed.

Lemma raises_throw {A} e (P : js_error → Prop) : P e → raises (@throw A e) P.
Proof. intros HP w e' w' H. inversion H; by subst. Qed.

Lemma raises_bind {A B} (m : M A) (f : A → M B) P :
  raises m P → (∀ a, raises (f a) P) → raises (bind m f) P.
Proof.
  intros Hm Hf w e w' H. unfold bind in H.
  destruct (m w) as [[a|e0|] w0] eqn:E.
  - by eapply Hf.
  - inversion H; subst. by eapply Hm.
  - inversion H.
Qed.

Lemma raises_newDate P : raises newDate P.
Proof. intros w e w' H. inversion H. Qed.

Lemma raises_db_list table sort limit P :
  inherited table = false → raises (db_list table sort limit) P.
Proof.
  intros Hi w e w' H. pose proof (is_table_plain w table Hi).
  rewrite db_list_eq in H by apply _.
  destruct (sortByField _ _); inversion H.
Qed.

Lemma raises_db_filter table where_ sort limit P :
  inherited table = false → raises (db_filter table where_ sort limit) P.
Proof.
  intros Hi w e w' H. pose proof (is_table_plain w table Hi).
  rewrite db_filter_eq in H by apply _.
  destruct (filter_by _ _); [|inversion H]. destruct (sortByField _ _); inversion H.
Qed.

Lemma raises_db_create table data P :
  inherited table = false → raises (db_create table data) P.
Proof.
  intros Hi w e w' H. pose proof (is_table_plain w table Hi).
  rewrite db_create_run in H by apply _. inversion H.
Qed.

Lemma raises_db_update table id patch (P : js_error → Prop) :
  P (RecordNotFound table id) → inherited table = false →
  raises (db_update table id patch) P.
Proof.
  intros HP Hi w e w' H. pose proof (is_table_plain w table Hi) as Ht.
  destruct (findIndex (λ r, strict_eq (get r "id") id) (rows w table)) as [[i|]|] eqn:Hf.
  - apply findIndex_some in Hf as (old & Ho & Hold & Hbefore).
    rewrite (db_update_found w table id patch i old Ho Hold Hbefore) in H. inversion H.
  - apply findIndex_none in Hf.
    destruct (db_update_missing w table id patch Hf) as (w1 & Hrun & _).
    rewrite Hrun in H. inversion H; by subst.
  - unfold db_update, bind in H. rewrite ensureTable_eq in H by apply _.
    unfold lift, array, ret in H. rewrite Hf in H. inversion H.
Qed.

Lemma raises_find_incident payload P : raises (find_incident payload) P.
Proof.
  unfold find_incident. apply raises_bind; [by apply raises_db_filter|].
  intros; apply raises_ret.
Qed.

Lemma raises_for_each {A B} (f : A → M B) l P :
  (∀ x, raises (f x) P) → raises (for_each f l) P.
Proof.
  intros Hf. induction l as [|x l IH]; simpl; [apply raises_ret|].
  apply raises_bind; [apply Hf|]. intros y.
  apply raises_bind; [apply IH|]. intros; apply raises_ret.
Qed.

Lemma raises_generatePredictions P : raises generatePredictions P.
Proof.
  unfold generatePredictions.
  apply raises_bind; [by apply raises_db_list|]. intros incidents.
  apply raises_bind; [apply raises_newDate|]. intros now.
  apply raises_bind; [apply raises_for_each; intros [i s]; by apply raises_db_create|].
  intros created. apply raises_bind; [apply raises_lift|]. intros sys_text.
  apply raises_bind; [by apply raises_db_create|]. intros; apply raises_ret.
Qed.

Lemma raises_suggest payload P : raises (suggestKnowledgeArticles payload) P.
Proof.
  unfold suggestKnowledgeArticles.
  apply raises_bind; [apply raises_find_incident|]. intros incident.
  apply raises_bind; [by apply raises_db_list|]. intros articles.
  destruct incident as [r|]; [|apply raises_ret].
  apply raises_bind; [apply raises_lift|]. intros i.
  apply raises_bind; [apply raises_lift|]. intros; apply raises_ret.
Qed.

Lemma raises_automate payload :
  raises (automateIncidentResponse payload)
         (λ e, ∃ id, e = RecordNotFound "IncidentAutomation" id).
Proof.
  unfold automateIncidentResponse.
  apply raises_bind; [apply raises_find_incident|]. intros [r|]; [|apply raises_ret].
  apply raises_bind; [apply raises_lift|]. intros i.
  apply raises_bind; [apply raises_lift|]. intros automation.
  apply raises_bind; [by apply raises_db_filter|]. intros existing.
  apply raises_bind.
  { destruct (head existing) as [e|]; [|by apply raises_db_create].
    apply raises_db_update; [by eexists|done]. }
  intros record. apply raises_bind; [by apply raises_db_create|]. intros; apply raises_ret.
Qed.

Lemma raises_review payload :
  raises (generatePostIncidentReview payload)
         (λ e, ∃ id, e = RecordNotFound "PostIncidentReview" id).
Proof.
  unfold generatePostIncidentReview.
  apply raises_bind; [apply raises_find_incident|]. intros [r|]; [|apply raises_ret].
  apply raises_bind; [by apply raises_db_filter|]. intros logs.
  apply raises_bind; [by apply raises_db_filter|]. intros decisions.
  apply raises_bind.
  { destruct (truthy (stored_summary r)); [apply raises_ret|].
    apply raises_bind; [apply raises_lift|]. intros; apply raises_ret. }
  intros summary_. apply raises_bind; [by apply raises_db_filter|]. intros existing.
  apply raises_bind.
  { destruct (head existing) as [e|]; [|by apply raises_db_create].
    apply raises_db_update; [by eexists|done]. }
  intros record. apply raises_bind; [by apply raises_db_create|]. intros; apply raises_ret.
Qed.

Lemma raises_article payload :
  raises (generateArticleFromIncident payload) (λ e, e = TypeError).
Proof.
  unfold generateArticleFromIncident.
  apply raises_bind; [apply raises_find_incident|]. intros [r|]; [|apply raises_ret].
  apply raises_bind; [apply raises_lift|]. intros i.
  destruct (truthy (i_ai_analysis i)).
  - destruct (i_ai_analysis i) as [| | | | | |o]; try by apply raises_throw.
    destruct (get o "root_causes"); try (by apply raises_throw). apply raises_lift.
  - apply raises_bind; [apply raises_lift|]. intros title.
    apply raises_bind; [apply raises_lift|]. intros content.
    apply raises_bind; [by apply raises_db_create|]. intros; apply raises_ret.
Qed.

Lemma invoke_undispatched name payload :
  name ∉ dispatched → invoke name payload = throw (UnknownFunction name).
Proof.
  unfold dispatched. rewrite !not_elem_of_cons. intros (N1 & N2 & N3 & N4 & N5 & _).
  unfold invoke.
  destruct (String.eqb_spec name "generatePredictions"); [done|].
  destruct (String.eqb_spec name "automateIncidentResponse"); [done|].
  destruct (String.eqb_spec name "generatePostIncidentReview"); [done|].
  destruct (String.eqb_spec name "suggestKnowledgeArticles"); [done|].
  destruct (String.eqb_spec name "generateArticleFromIncident"); [done|].
  reflexivity.
Qed.



(** ** The ranking of the suggestions *)

Lemma ranking_agrees_all m n :
  (m <= 25)%nat → (n <= 25)%nat → ranking_agrees m n = true.
Proof.
  intros Hm Hn.
  assert (H : forallb (λ m, forallb (ranking_agrees m) (seq 0 26)) (seq 0 26) = true)
    by (vm_compute; reflexivity).
  rewrite forallb_forall in H.
  specialize (H m ltac:(apply in_seq; lia)). rewrite forallb_forall in H.
  apply H, in_seq. lia.
Qed.

Lemma by_relevance_level a b m n :
  (m <= 25)%nat → (n <= 25)%nat →
  relevance_score a = relevance_of m → relevance_score b = relevance_of n →
  by_relevance_desc a b = Some (Nat.compare (level n) (level m)) ∧
  (outranks a b ↔ (level n <= level m)%nat).
Proof.
  intros Hm Hn Ha Hb. pose proof (ranking_agrees_all m n Hm Hn) as H.
  unfold ranking_agrees in H. apply andb_true_iff in H as [H1 H2].
  unfold by_relevance_desc, outranks. rewrite Ha, Hb. split.
  - destruct (sign_of _), (Nat.compare _ _); done.
  - apply Bool.eqb_prop in H2. rewrite H2. apply Nat.leb_le.
Qed.

Lemma precedes_outranks a b : scored a → scored b →
  precedes by_relevance_desc a b ↔ outranks a b.
Proof.
  intros (m & Hm & Ha) (n & Hn & Hb).
  destruct (by_relevance_level a b m n Hm Hn Ha Hb) as [Hc Ho].
  unfold precedes. rewrite Hc, Ho.
  destruct (Nat.compare_spec (level n) (level m)); split;
    try lia; try (intros [?|?]; congruence); auto.
Qed.

Lemma outranks_trans a b c : scored a → scored b → scored c →
  outranks a b → outranks b c → outranks a c.
Proof.
  intros (m & Hm & Ha) (n & Hn & Hb) (k & Hk & Hc).
  rewrite (proj2 (by_relevance_level a b m n Hm Hn Ha Hb)).
  rewrite (proj2 (by_relevance_level b c n k Hn Hk Hb Hc)).
  rewrite (proj2 (by_relevance_level a c m k Hm Hk Ha Hc)). lia.
Qed.

Lemma StronglySorted_impl {A} (R1 R2 : A → A → Prop) (P : A → Prop) l :
  (∀ x y, P x → P y → R1 x y → R2 x y) →
  Forall P l → StronglySorted R1 l → StronglySorted R2 l.
Proof.
  intros HR HP Hs. induction Hs as [|x l Hs IH Hx]; [constructor|].
  apply Forall_cons in HP as [HPx HPl]. constructor; [by apply IH|].
  rewrite Forall_forall in Hx, HPl. apply Forall_forall. intros y Hy.
  apply HR; auto.
Qed.

#[local] Instance spec_float_eq_dec : EqDecision SpecFloat.spec_float.
Proof. solve_decision. Defined.

#[local] Instance float_eq_dec : EqDecision float.
Proof.
  intros x y. destruct (decide (Prim2SF x = Prim2SF y)) as [E|N].
  - left. rewrite <- (SF2Prim_Prim2SF x), <- (SF2Prim_Prim2SF y). by rewrite E.
  - right. by intros ->.
Defined.

Lemma rank_spec ss :
  Forall scored ss →
  ∃ sorted,
    rank ss = Some (take 6 sorted) ∧
    sorted ≡ₚ List.filter (λ s, 0.25 <=? relevance_score s) ss ∧
    StronglySorted outranks sorted ∧
    ∀ n, (n <= 25)%nat →
         List.filter (λ s, bool_decide (relevance_score s = relevance_of n)) sorted =
         List.filter (λ s, bool_decide (relevance_score s = relevance_of n))
                     (List.filter (λ s, 0.25 <=? relevance_score s) ss).
Proof.
  intros Hss. unfold rank.
  set (kept := List.filter (λ s, 0.25 <=? relevance_score s) ss).
  assert (Hkept : Forall scored kept).
  { apply Forall_forall. intros s Hs. apply list_elem_of_In, filter_In in Hs as [Hs _].
    rewrite Forall_forall in Hss. by apply Hss, list_elem_of_In. }
  destruct (array_sort_total by_relevance_desc (λ _, True)
              ltac:(by intros; eexists) kept) as [sorted Hsort].
  { by apply Forall_forall. }
  exists sorted. rewrite Hsort. simpl. split; [reflexivity|].
  pose proof (array_sort_perm _ _ _ Hsort) as Hp. split; [done|]. split.
  - assert (Hsc : Forall scored sorted) by (by rewrite Hp).
    apply (StronglySorted_impl (precedes by_relevance_desc) outranks scored);
      [intros x y Hx Hy; by apply precedes_outranks|done|].
    apply (array_sort_sorted by_relevance_desc scored) with (l := kept); [| |done|done].
    + intros x y z Hx Hy Hz. rewrite !precedes_outranks by done.
      by apply outranks_trans.
    + intros x y (m & Hm & Ha) (n & Hn & Hb) Hgt.
      rewrite (proj1 (by_relevance_level x y m n Hm Hn Ha Hb)) in Hgt.
      unfold precedes.
      rewrite (proj1 (by_relevance_level y x n m Hn Hm Hb Ha)).
      injection Hgt as Hgt. apply Nat.compare_gt_iff in Hgt.
      left. f_equal. apply Nat.compare_lt_iff. lia.
  - intros n Hn.
    apply (array_sort_stable by_relevance_desc) with (l := kept); [|done].
    intros a b Ha Hb. apply bool_decide_eq_true in Ha, Hb.
    rewrite (proj1 (by_relevance_level a b n n Hn Hn Ha Hb)).
    by rewrite Nat.compare_refl.
Qed.

Lemma scored_suggest_one text r a : scored (suggest_one text r a).
Proof.
  exists (token_score (article_hay a) (tokens text)). split; [|done].
  etransitivity; [apply token_score_le|apply tokens_length].
Qed.

Lemma mapM_suggest_one text articles :
  is_Some (mapM as_article articles) →
  ∃ all, mapM (λ r, a ← as_article r; Some (suggest_one text r a)) articles = Some all ∧
         s_article <$> all = articles ∧ Forall scored all.
Proof.
  intros [views Hviews]. apply mapM_Some_1 in Hviews.
  induction Hviews as [|r a articles views Hra Hrest IH].
  - exists []. by repeat split.
  - destruct IH as (all & Hall & Hart & Hsc).
    exists (suggest_one text r a :: all). split; [|split].
    + simpl. rewrite Hra. simpl. by rewrite Hall.
    + rewrite fmap_cons, Hart. reflexivity.
    + constructor; [apply scored_suggest_one|done].
Qed.

(** X13.  The suggestions for an incident, over articles whose title, summary
    and tags have the types the entity declares.  The generator always
    answers.  It scores every article, keeps those of relevance 0.25 or
    more, arranges them so that no suggestion is outranked by a later one,
    suggestions of the same relevance staying in the order of the article
    list, and returns the first six. *)
Theorem suggestions_ranked i articles :
  is_Some (mapM as_article articles) →
  ∃ all sorted,
    mapM (λ r, a ← as_article r; Some (suggest_one (incident_text i) r a)) articles
      = Some all ∧
    s_article <$> all = articles ∧
    suggestions_for i articles = Some (take 6 sorted) ∧
    sorted ≡ₚ List.filter (λ s, 0.25 <=? relevance_score s) all ∧
    StronglySorted outranks sorted ∧
    ∀ n, (n <= 25)%nat →
         List.filter (λ s, bool_decide (relevance_score s = relevance_of n)) sorted =
         List.filter (λ s, bool_decide (relevance_score s = relevance_of n))
                     (List.filter (λ s, 0.25 <=? relevance_score s) all).
Proof.
  intros Hviews.
  destruct (mapM_suggest_one (incident_text i) articles Hviews) as (all & Hall & Hart & Hsc).
  destruct (rank_spec all Hsc) as (sorted & Hrank & Hp & Hsorted & Hstable).
  exists all, sorted. split; [done|]. split; [done|]. split; [|done].
  unfold suggestions_for. rewrite Hall. simpl. exact Hrank.
Qed.

Lemma suggestions_ranked_witness :
  let i := Incident (Some "Postgres connection timeouts across checkout") None None
                    None None None VUndef in
  let weak := obj [("id", VStr "kb_1");
                   ("title", VStr "Postgres connection pool timeouts")] in
  let strong := obj [("id", VStr "kb_2");
                     ("title", VStr "Postgres connection timeouts across checkout")] in
  let none := obj [("id", VStr "kb_3"); ("title", VStr "Certificate renewal")] in
  is_Some (mapM as_article [weak; none; strong]) ∧
  ∃ sorted, suggestions_for i [weak; none; strong] = Some (take 6 sorted) ∧
            StronglySorted outranks sorted ∧
            s_article <$> take 6 sorted = [strong; weak].
Proof.
  intros i weak strong none.
  assert (H : is_Some (mapM as_article [weak; none; strong]))
    by (vm_compute; eexists; reflexivity).
  split; [exact H|].
  destruct (suggestions_ranked i [weak; none; strong] H)
    as (all & sorted & _ & _ & Hs & _ & Hsorted & _).
  exists sorted. split; [exact Hs|]. split; [exact Hsorted|].
  assert (E : s_article <$> default [] (suggestions_for i [weak; none; strong])
              = [strong; weak]) by (vm_compute; reflexivity).
  rewrite Hs in E. exact E.
Defined.

Lemma suggestions_for_elem i articles l s :
  suggestions_for i articles = Some l → s ∈ l →
  s_article s ∈ articles ∧ (0.25 <=? relevance_score s) = true.
Proof.
  unfold suggestions_for. intros H Hs.
  destruct (mapM _ articles) as [all|] eqn:Hm; simpl in H; [|done].
  destruct (rank_elem _ _ _ H Hs) as [Hin Hrel]. split; [|done].
  apply mapM_Some_1 in Hm. apply list_elem_of_lookup in Hin as [k Hk].
  destruct (Forall2_lookup_r _ _ _ _ _ Hm Hk) as (r & Hr & Hf).
  destruct (as_article r) as [a|]; simpl in Hf; [|done].
  inversion Hf; subst s. simpl. by eapply list_elem_of_lookup_2.
Qed.

Lemma suggestions_for_length i articles l :
  suggestions_for i articles = Some l → (length l <= 6)%nat.
Proof.
  unfold suggestions_for. intros H.
  destruct (mapM _ articles) as [all|]; simpl in H; [|done]. by eapply rank_length.
Qed.



(** ** The article generator *)

Lemma lookup_obj_cons k v rest k' :
  obj ((k, v) :: rest) !! k' = if decide (k = k') then Some v else obj rest !! k'.
Proof.
  unfold obj. simpl. case_decide as E.
  - subst. by rewrite lookup_insert_eq.
  - by rewrite lookup_insert_ne.
Qed.

Lemma lookup_obj_nil k : obj [] !! k = None.
Proof. reflexivity. Qed.

Ltac lookup_obj :=
  repeat first
    [ rewrite lookup_obj_nil
    | rewrite lookup_obj_cons;
      let Hk := fresh "Hk" in
      case_decide as Hk;
      [ try discriminate Hk | try (exfalso; apply Hk; reflexivity) ];
      clear Hk ].

Lemma find_incident_inv payload w r w1 :
  find_incident payload w = (Ok (Some r), w1) →
  w1 = ensured w "Incident" ∧ r ∈ rows w "Incident" ∧
  matchesWhere r [("id", get payload "incident_id")] = Some true.
Proof.
  unfold find_incident, bind. rewrite db_filter_eq by apply _.
  destruct (filter_by _ _) as [f|] eqn:Hf; [|done].
  destruct (sortByField f _) as [l|] eqn:Hl; [|done].
  unfold ret. intros H. inversion H as [[Hh Hw]]. split; [done|].
  assert (Hr : r ∈ f).
  { rewrite <- (sortByField_perm _ _ _ Hl). apply (slice0_subseteq 1000).
    destruct (slice0 _ l); [done|]. simpl in Hh. inversion Hh. apply list_elem_of_here. }
  apply filter_by_spec in Hf as [-> Hall].
  apply list_elem_of_In, filter_In in Hr as [Hr Hm].
  split; [by apply list_elem_of_In|].
  by destruct (matchesWhere r _) as [[|]|].
Qed.

Lemma as_incident_analysis r i : as_incident r = Some i → i_ai_analysis i = get r "ai_analysis".
Proof.
  unfold as_incident. intros H.
  destruct (as_opt_string (get r "title")); simpl in H; [|done].
  destruct (as_opt_string (get r "description")); simpl in H; [|done].
  destruct (as_opt_string (get r "logs")); simpl in H; [|done].
  destruct (as_opt_string (get r "severity")); simpl in H; [|done].
  destruct (as_opt_strings (get r "affected_systems")); simpl in H; [|done].
  destruct (as_opt_string (get r "source")); simpl in H; [|done].
  by inversion H.
Qed.

Lemma as_incident_title r i :
  as_incident r = Some i →
  i_title i = default None (as_opt_string (get r "title")) ∧
  ∃ t, template_string (get r "title") = Some t ∧
       (t = "undefined" ∨ t = "null" ∨ get r "title" = VStr t).
Proof.
  unfold as_incident. intros H.
  destruct (get r "title") eqn:Et; simpl in H; try done;
  destruct (as_opt_string (get r "description")); simpl in H; try done;
  destruct (as_opt_string (get r "logs")); simpl in H; try done;
  destruct (as_opt_string (get r "severity")); simpl in H; try done;
  destruct (as_opt_strings (get r "affected_systems")); simpl in H; try done;
  destruct (as_opt_string (get r "source")); simpl in H; try done;
  inversion H; subst; simpl; (split; [done|]); eexists; (split; [reflexivity|]); auto.
Qed.

Lemma rows_world_of table rs rest clk :
  rows (world_of ((table, rs) :: rest) clk) table = rs.
Proof. unfold rows, world_of. simpl. by rewrite lookup_insert_eq. Qed.

Lemma find_incident_single w payload r :
  rows w "Incident" = [r] →
  matchesWhere r [("id", get payload "incident_id")] = Some true →
  find_incident payload w = (Ok (Some r), ensured w "Incident").
Proof.
  intros Hrows Hm. unfold find_incident.
  rewrite (bind_ok _ _ w [r] (ensured w "Incident")); [reflexivity|].
  rewrite db_filter_eq, Hrows by apply _. simpl. rewrite Hm. reflexivity.
Qed.

(** X15.  The article generator on an incident that carries a stored analysis
    without a [root_causes] array, which is how the seed stores its
    incidents: the call raises the type error of [analysis.root_causes.map]
    and writes nothing, no article and no audit entry. *)
Theorem article_of_stored_analysis payload w r w1 :
  find_incident payload w = (Ok (Some r), w1) →
  is_Some (as_incident r) →
  truthy (get r "ai_analysis") = true →
  (∀ o l, get r "ai_analysis" = VObj o → get o "root_causes" ≠ VArr l) →
  invoke "generateArticleFromIncident" payload w = (Throw TypeError, w1) ∧
  same_store w w1.
Proof.
  intros Hfind [i Hi] Htruthy Hroot.
  destruct (find_incident_inv _ _ _ _ Hfind) as (Hw1 & _ & _).
  split; [|subst w1; apply ensured_same_store].
  change (invoke "generateArticleFromIncident" payload)
    with (generateArticleFromIncident payload).
  unfold generateArticleFromIncident.
  rewrite (bind_ok _ _ _ _ _ Hfind). unfold bind, lift. rewrite Hi.
  rewrite (as_incident_analysis _ _ Hi), Htruthy.
  destruct (get r "ai_analysis") as [| | | | | |o] eqn:E; try reflexivity.
  specialize (Hroot o).
  destruct (get o "root_causes") as [| | | | |l|]; try reflexivity.
  by destruct (Hroot l eq_refl).
Qed.

Lemma article_of_stored_analysis_witness :
  let now := 1700000000000%Z in
  let w := world_of [("Incident", [seed_inc_001 now])] ticking_clock in
  let payload := obj [("incident_id", VStr "inc_001")] in
  let w1 := ensured w "Incident" in
  find_incident payload w = (Ok (Some (seed_inc_001 now)), w1) ∧
  is_Some (as_incident (seed_inc_001 now)) ∧
  truthy (get (seed_inc_001 now) "ai_analysis") = true ∧
  (∀ o l, get (seed_inc_001 now) "ai_analysis" = VObj o → get o "root_causes" ≠ VArr l) ∧
  invoke "generateArticleFromIncident" payload w = (Throw TypeError, w1).
Proof.
  intros now w payload w1.
  assert (H1 : find_incident payload w = (Ok (Some (seed_inc_001 now)), w1)).
  { apply find_incident_single; [apply rows_world_of|]. vm_compute. reflexivity. }
  assert (H2 : is_Some (as_incident (seed_inc_001 now))).
  { destruct (as_incident (seed_inc_001 now)) eqn:E; [by eexists|].
    vm_compute in E. discriminate. }
  assert (Ha : get (seed_inc_001 now) "ai_analysis" = VObj (obj [
          ("confidence_score", VNum 0.76);
          ("summary", VStr "Critical impact detected. Symptoms strongly indicate database connection pool saturation causing upstream request failures across checkout/payment workloads.")])).
  { unfold seed_inc_001. get_obj. reflexivity. }
  assert (H3 : truthy (get (seed_inc_001 now) "ai_analysis") = true) by (by rewrite Ha).
  assert (H4 : ∀ o l, get (seed_inc_001 now) "ai_analysis" = VObj o →
                      get o "root_causes" ≠ VArr l).
  { intros o l Ho. rewrite Ha in Ho.
    pose proof (f_equal (λ v, match v with VObj o => get o "root_causes" | _ => VUndef end)
                        Ho) as Hg.
    cbv beta iota in Hg. rewrite <- Hg. get_obj. discriminate. }
  split; [exact H1|]. split; [exact H2|]. split; [exact H3|]. split; [exact H4|].
  exact (proj1 (article_of_stored_analysis payload w _ w1 H1 H2 H3 H4)).
Defined.

Lemma percentages i :
  percentage <$> root_causes (buildAnalysisFromIncident i) =
  [Some (if isDb i then 60 else 45)%Z; Some (if isAuth i then 50 else 30)%Z;
   Some (if isApi i then 40 else 25)%Z].
Proof.
  unfold buildAnalysisFromIncident. cbn [root_causes]. unfold percentage.
  rewrite !fmap_cons. cbn [probability fmap list_fmap].
  destruct (isDb i), (isAuth i), (isApi i); vm_compute; reflexivity.
Qed.

Lemma article_content_fresh i :
  is_Some (article_content (buildAnalysisFromIncident i)).
Proof.
  unfold article_content.
  assert (H : is_Some (mapM cause_line (root_causes (buildAnalysisFromIncident i)))).
  { unfold buildAnalysisFromIncident. cbn [root_causes].
    destruct (isDb i), (isAuth i), (isApi i);
      (eexists; vm_compute; reflexivity). }
  destruct H as [causes ->]. simpl. by eexists.
Qed.

(** X16.  The article generator on an incident without a stored analysis.  The
    call returns the article it has appended to KnowledgeBaseArticle and
    touches no other table: a draft of category runbook under a fresh
    identifier, with the summary of the analysis the analyzer builds for
    the incident, the severity followed by the first three affected
    systems as tags, and the title "Runbook: " followed by the title of the
    incident.  An incident without a title is filed as "Runbook: undefined",
    although its summary speaks of "Incident".  The root causes are
    printed with the percentages 60 or 45, 50 or 30, and 40 or 25. *)
Theorem article_of_fresh_analysis payload w r w1 i :
  find_incident payload w = (Ok (Some r), w1) →
  as_incident r = Some i →
  truthy (get r "ai_analysis") = false →
  ∃ title content article w',
    template_string (get r "title") = Some title ∧
    article_content (buildAnalysisFromIncident i) = Some content ∧
    invoke "generateArticleFromIncident" payload w =
      (Ok (obj [("data", VObj (obj [("article", VObj article)]))]), w') ∧
    rows w' "KnowledgeBaseArticle" = rows w "KnowledgeBaseArticle" ++ [article] ∧
    (∀ table, table ≠ "KnowledgeBaseArticle" → rows w' table = rows w table) ∧
    get article "id" = VStr (uuids w (draws w)) ∧
    get article "status" = VStr "draft" ∧
    get article "category" = VStr "runbook" ∧
    get article "title" = VStr ("Runbook: " +:+ title) ∧
    get article "summary" = VStr (summary (buildAnalysisFromIncident i)) ∧
    get article "content" = VStr content ∧
    get article "tags" = VArr (get r "severity" :: (VStr <$> take 3 (systems_of i))) ∧
    (get r "title" = VUndef →
     title = "undefined" ∧
     String.prefix "Incident: " (summary (buildAnalysisFromIncident i)) = true) ∧
    percentage <$> root_causes (buildAnalysisFromIncident i) =
      [Some (if isDb i then 60 else 45)%Z; Some (if isAuth i then 50 else 30)%Z;
       Some (if isApi i then 40 else 25)%Z].
Proof.
  intros Hfind Hi Hfalsy.
  destruct (find_incident_inv _ _ _ _ Hfind) as (Hw1 & _ & _).
  destruct (as_incident_title _ _ Hi) as (Htitle & title & Ht & Hcases).
  destruct (article_content_fresh i) as [content Hc].
  set (data := obj [
          ("title", VStr ("Runbook: " +:+ title));
          ("summary", VStr (summary (buildAnalysisFromIncident i)));
          ("content", VStr content);
          ("tags", VArr (get r "severity" :: (VStr <$> take 3 (systems_of i))));
          ("category", VStr "runbook");
          ("status", VStr "draft")]).
  pose proof (ensured_same_store w "Incident") as Hs. rewrite <- Hw1 in Hs.
  destruct Hs as (Hrows & Hclock & Hticks & Huuids & Hdraws).
  exists title, content, (new_record w1 data),
         (with_table w1 "KnowledgeBaseArticle"
            (rows w1 "KnowledgeBaseArticle" ++ [new_record w1 data]) 2 1).
  split; [done|]. split; [done|]. split.
  { change (invoke "generateArticleFromIncident" payload)
      with (generateArticleFromIncident payload).
    unfold generateArticleFromIncident.
    rewrite (bind_ok _ _ _ _ _ Hfind). unfold bind at 1. unfold lift at 1. rewrite Hi.
    rewrite (as_incident_analysis _ _ Hi), Hfalsy.
    unfold bind at 1. unfold lift at 1. rewrite Ht.
    unfold bind at 1. unfold lift at 1. rewrite Hc.
    fold data. unfold bind. rewrite db_create_run by apply _. reflexivity. }
  split; [by rewrite rows_with_table, decide_True, Hrows|].
  split; [intros table Hne; by rewrite rows_with_table, decide_False, Hrows|].
  assert (Hget : ∀ k v, data !! k = Some v → get (new_record w1 data) k = v)
    by (intros k v; apply new_record_data).
  split.
  { unfold new_record. rewrite get_spread_r by (unfold data; lookup_obj; reflexivity).
    unfold get. rewrite lookup_insert_eq. simpl. by rewrite Huuids, Hdraws. }
  split; [apply Hget; unfold data; lookup_obj; reflexivity|].
  split; [apply Hget; unfold data; lookup_obj; reflexivity|].
  split; [apply Hget; unfold data; lookup_obj; reflexivity|].
  split; [apply Hget; unfold data; lookup_obj; reflexivity|].
  split; [apply Hget; unfold data; lookup_obj; reflexivity|].
  split; [apply Hget; unfold data; lookup_obj; reflexivity|].
  split; [|apply percentages].
  intros Hu. rewrite Hu in Ht, Htitle. simpl in Ht, Htitle. split; [congruence|].
  unfold buildAnalysisFromIncident. cbn [summary]. unfold title_of. rewrite Htitle.
  reflexivity.
Qed.

Lemma article_of_fresh_analysis_witness :
  let inc := obj [("id", VStr "inc_9"); ("severity", VStr "high");
                  ("description", VStr "Login tokens rejected after deploy");
                  ("affected_systems", strs ["Auth Service"; "API Gateway"; "CDN"; "Billing"])] in
  let w := world_of [("Incident", [inc])] ticking_clock in
  let payload := obj [("incident_id", VStr "inc_9")] in
  let i := Incident None (Some "Login tokens rejected after deploy") None (Some "high")
                    (Some ["Auth Service"; "API Gateway"; "CDN"; "Billing"]) None VUndef in
  find_incident payload w = (Ok (Some inc), ensured w "Incident") ∧
  as_incident inc = Some i ∧
  truthy (get inc "ai_analysis") = false ∧
  get inc "title" = VUndef ∧
  ∃ article w',
    (invoke "generateArticleFromIncident" payload w).1 =
      Ok (obj [("data", VObj (obj [("article", VObj article)]))]) ∧
    get article "title" = VStr "Runbook: undefined" ∧
    get article "tags" = strs ["high"; "Auth Service"; "API Gateway"; "CDN"] ∧
    rows w' "KnowledgeBaseArticle" = [article].
Proof.
  intros inc w payload i.
  assert (H1 : find_incident payload w = (Ok (Some inc), ensured w "Incident")).
  { apply find_incident_single; [apply rows_world_of|]. vm_compute. reflexivity. }
  assert (H2 : as_incident inc = Some i) by (vm_compute; reflexivity).
  assert (H3 : truthy (get inc "ai_analysis") = false) by reflexivity.
  assert (H4 : get inc "title" = VUndef) by reflexivity.
  split; [exact H1|]. split; [exact H2|]. split; [exact H3|]. split; [exact H4|].
  destruct (article_of_fresh_analysis payload w inc _ i H1 H2 H3)
    as (title & content & article & w' & Ht & _ & Hrun & Hrows & _ & _ & _ & _ &
        Htitle & _ & _ & Htags & Hundef & _).
  exists article, w'. split; [by rewrite Hrun|].
  destruct (Hundef H4) as [-> _].
  split; [exact Htitle|]. split; [exact Htags|].
  rewrite Hrows. reflexivity.
Defined.

(** ** The upsert of the generators *)

Lemma matchesWhere_primitive r k v :
  is_composite v = false → is_Some (matchesWhere r [(k, v)]).
Proof.
  intros Hv. unfold matchesWhere. cbn [every].
  assert (H : is_Some (matchesEntry r (k, v))).
  { unfold matchesEntry. destruct v; try done; try (by eexists);
      by apply strict_eq_primitive. }
  destruct H as [b ->]. simpl. destruct b; by eexists.
Qed.

Lemma findIndex_exists {A} (p : A → option bool) l x :
  Forall (λ y, is_Some (p y)) l → x ∈ l → p x = Some true →
  ∃ i y, findIndex p l = Some (Some i) ∧ l !! i = Some y ∧ p y = Some true.
Proof.
  intros Hall. induction Hall as [|y l [b Hb] Hl IH]; intros Hx Hpx.
  - by apply elem_of_nil in Hx.
  - simpl. rewrite Hb. simpl. destruct b.
    + by exists O, y.
    + apply elem_of_cons in Hx as [->|Hx]; [congruence|].
      destruct (IH Hx Hpx) as (i & z & -> & Hz & Hpz). by exists (S i), z.
Qed.

Section Upsert.
Context (table : string) (pid : value) (upd crt : object).

(** [existing ? update(table, existing.id, upd) : create(table, crt)] after
    [existing = filter(table, { incident_id: pid })[0]]. *)
Lemma upsert_run w `{!is_table w table} :
  is_composite pid = false →
  keyed (rows w table) →
  Forall (has_str "created_date") (of_incident pid w table) →
  upd !! "id" = None →
  ∃ saved w',
    (∀ (B : Type) (k : LocalDb.record → M B),
       bind (db_filter table [("incident_id", pid)] None None)
            (λ existing,
               bind (match head existing with
                     | Some e => db_update table (get e "id") upd
                     | None => db_create table crt
                     end) k) w = k saved w') ∧
    continues w w' ∧
    (∀ t, t ≠ table → rows w' t = rows w t) ∧
    saved ∈ rows w' table ∧
    (of_incident pid w table = [] →
     saved = new_record w crt ∧ rows w' table = rows w table ++ [saved]) ∧
    (of_incident pid w table ≠ [] →
     ∃ e i, newest (of_incident pid w table) e ∧
            e ∈ of_incident pid w table ∧ rows w table !! i = Some e ∧
            saved = patched w e upd ∧
            rows w' table = <[i := saved]> (rows w table) ∧
            get saved "id" = get e "id").
Proof.
  intros Hpid [Hids Hnodup] Hdates Hupd.
  pose proof (ensured_same_store w table) as Hs.
  set (w1 := ensured w table) in *.
  destruct Hs as (Hrows & Hclock & Hticks & Huuids & Hdraws).
  assert (Hnew : ∀ d, new_record w1 d = new_record w d).
  { intros d. unfold new_record. by rewrite Hclock, Hticks, Huuids, Hdraws. }
  assert (Hpat : ∀ o p, patched w1 o p = patched w o p).
  { intros o p. unfold patched. by rewrite Hclock, Hticks. }
  assert (Htot : Forall (λ x, is_Some (matchesWhere x [("incident_id", pid)]))
                        (rows w table)).
  { apply Forall_forall. intros x _. by apply matchesWhere_primitive. }
  destruct (filter_by_total _ _ Htot) as [f Hf].
  pose proof (filter_by_spec _ _ _ Hf) as [Hfeq _].
  fold (of_incident pid w table) in Hfeq. subst f.
  destruct (sortByField_strings (of_incident pid w table) "-created_date"
              ltac:(done) Hdates) as (l & Hl & Hp & Hsorted & Hstable).
  change (sort_field "-created_date") with "created_date" in Hsorted, Hstable.
  change (sort_desc "-created_date") with true in Hsorted.
  assert (Hfilter : db_filter table [("incident_id", pid)] None None w
                    = (Ok (take 1000 l), w1)).
  { rewrite db_filter_eq, Hf by apply _. simpl. rewrite Hl. reflexivity. }
  destruct l as [|e l].
  - apply Permutation_nil in Hp. simpl.
    exists (new_record w crt),
           (with_table w1 table (rows w1 table ++ [new_record w1 crt]) 2 1).
    split; [intros B k; unfold bind; by rewrite Hfilter; simpl; rewrite db_create_run, Hnew by apply _|].
    split.
    { unfold continues, with_table. simpl. rewrite Hclock, Huuids, Hticks, Hdraws.
      repeat split; lia. }
    split; [intros t Ht; by rewrite rows_with_table, decide_False, Hrows|].
    rewrite rows_with_table, decide_True, Hrows, Hnew by done.
    split; [apply elem_of_app; right; apply list_elem_of_here|].
    split; [done|]. intros Hne. by rewrite <- Hp in Hne.
  - assert (He : e ∈ of_incident pid w table) by (rewrite <- Hp; apply list_elem_of_here).
    assert (Her : e ∈ rows w table).
    { unfold of_incident in He. apply list_elem_of_In, filter_In in He as [He _].
      by apply list_elem_of_In. }
    rewrite Forall_forall in Hids. destruct (Hids e Her) as [s Hes].
    assert (Hall : Forall (λ y, is_Some (has_id (VStr s) y)) (rows w table)).
    { apply Forall_forall. intros y _. by apply strict_eq_primitive. }
    destruct (findIndex_exists _ _ e Hall Her) as (i & old & Hfi & Hold & Hpold).
    { unfold has_id. rewrite Hes. simpl. by rewrite String.eqb_refl. }
    assert (old = e) as ->.
    { apply (NoDup_fmap_eq (λ r, get r "id") (rows w table)); [done| |done|].
      - by eapply list_elem_of_lookup_2.
      - destruct (Hids old ltac:(by eapply list_elem_of_lookup_2)) as [s' Hs'].
        unfold has_id in Hpold. rewrite Hs' in Hpold. simpl in Hpold.
        injection Hpold as Hpold. apply String.eqb_eq in Hpold. congruence. }
    apply findIndex_some in Hfi as (y & Hy & _ & Hbefore).
    exists (patched w e upd),
           (with_table w1 table (<[i := patched w1 e upd]> (rows w1 table)) 1 0).
    split.
    { intros B k. unfold bind. rewrite Hfilter. simpl. rewrite Hes.
      rewrite (db_update_found w1 table (VStr s) upd i e), Hpat; try done.
      - by rewrite Hrows.
      - intros j r' Hj Hr'. rewrite Hrows in Hr'. by apply (Hbefore j). }
    split.
    { unfold continues, with_table. simpl. rewrite Hclock, Huuids, Hticks, Hdraws.
      repeat split; lia. }
    split; [intros t Ht; by rewrite rows_with_table, decide_False, Hrows|].
    rewrite rows_with_table, decide_True, Hrows, Hpat by done.
    split.
    { apply list_elem_of_lookup. exists i. apply list_lookup_insert_eq.
      by eapply lookup_lt_Some. }
    split; [intros Hnil; rewrite Hnil in He; by apply elem_of_nil in He|].
    intros _. exists e, i.
    split; [|repeat split; try done; apply patched_keeps; done].
    rewrite Forall_forall in Hdates. destruct (Hdates e He) as [x Hx].
    exists x. split; [done|]. split.
    + intros e' He'. rewrite <- Hp in He'.
      apply elem_of_cons in He' as [->|He'].
      * exists x. split; [done|]. apply str_leb_iff. by left.
      * apply StronglySorted_inv in Hsorted as [_ Hfirst].
        rewrite Forall_forall in Hfirst.
        destruct (Hfirst e' He') as (x' & y' & Hx' & Hy' & Hle).
        rewrite Hx in Hx'. injection Hx' as <-. by exists y'.
    + rewrite <- (Hstable x). unfold with_key. simpl. unfold is_str at 1.
      by rewrite Hx, String.eqb_refl.
Qed.

End Upsert.

Lemma automation_object_keys a k v :
  automation_object a !! k = Some v →
  k ∈ ["assigned_team"; "assignment_rationale"; "automation_confidence";
       "diagnostic_scripts"; "stakeholder_communication"].
Proof.
  unfold automation_object. intros H.
  repeat (rewrite lookup_obj_cons in H; case_decide as E;
          [subst k; repeat first [apply list_elem_of_here|apply list_elem_of_further]|
           clear E]).
  done.
Qed.

(** X17.  The dispatch of automateIncidentResponse on an incident it finds, when
    the rows of IncidentAutomation carry distinct string identifiers and
    those of the incident a string [created_date].  The automation is
    written to the one row of the incident: appended under a fresh
    identifier when the incident has no row yet, and otherwise written
    over the newest row of the incident (the first in the table among
    those with the latest [created_date]), in place, keeping its [id],
    [incident_id] and [created_date], so that the table does not grow.
    Exactly one entry is appended to AuditLog, "automation_generated" by
    SYSTEM, with the team and the confidence of the automation as details,
    and no other table changes. *)
Theorem automate_upsert payload w r w1 i automation :
  let pid := get payload "incident_id" in
  let T := "IncidentAutomation" in
  find_incident payload w = (Ok (Some r), w1) →
  as_incident r = Some i →
  buildAutomationForIncident i (analysis_for r i) = Some automation →
  is_composite pid = false →
  keyed (rows w T) →
  Forall (has_str "created_date") (of_incident pid w T) →
  ∃ record log w',
    invoke "automateIncidentResponse" payload w =
      (Ok (obj [("data", VObj (obj [("automation", VObj record)]))]), w') ∧
    (∀ k v, automation_object automation !! k = Some v → get record k = v) ∧
    (of_incident pid w T = [] →
     rows w' T = rows w T ++ [record] ∧
     get record "incident_id" = pid ∧ get record "id" = VStr (uuids w (draws w))) ∧
    (of_incident pid w T ≠ [] →
     ∃ e n, newest (of_incident pid w T) e ∧ rows w T !! n = Some e ∧
            rows w' T = <[n := record]> (rows w T) ∧
            get record "id" = get e "id" ∧
            get record "incident_id" = get e "incident_id" ∧
            get record "created_date" = get e "created_date") ∧
    rows w' "AuditLog" = rows w "AuditLog" ++ [log] ∧
    get log "action_type" = VStr "automation_generated" ∧
    get log "actor" = VStr "SYSTEM" ∧
    get log "incident_id" = pid ∧
    get log "details" =
      VObj (obj [("assigned_team", VStr (assigned_team automation));
                 ("confidence", VNum (automation_confidence automation))]) ∧
    (∀ t, t ≠ T → t ≠ "AuditLog" → rows w' t = rows w t).
Proof.
  intros pid T Hfind Hi Hauto Hpid Hkeyed Hdates.
  destruct (find_incident_inv _ _ _ _ Hfind) as (Hw1 & _ & _).
  pose proof (ensured_same_store w "Incident") as Hs. rewrite <- Hw1 in Hs.
  destruct Hs as (Hrows & Hclock & Hticks & Huuids & Hdraws).
  assert (Hof : of_incident pid w1 T = of_incident pid w T)
    by (unfold of_incident; by rewrite Hrows).
  set (upd := automation_object automation).
  set (crt := spread (obj [("incident_id", pid)]) (automation_object automation)).
  assert (Hupd : ∀ k, k ∉ ["assigned_team"; "assignment_rationale"; "automation_confidence";
                           "diagnostic_scripts"; "stakeholder_communication"] →
                      upd !! k = None).
  { intros k Hk. destruct (upd !! k) as [v|] eqn:E; [|done].
    by apply automation_object_keys in E. }
  assert (Hnot : ∀ k, k ∈ ["id"; "incident_id"; "created_date"; "updated_date"] →
                      upd !! k = None).
  { intros k Hk. apply Hupd. rewrite !elem_of_cons in Hk.
    rewrite !not_elem_of_cons.
    destruct Hk as [->|[->|[->|[->|Hk]]]]; [| | | |by apply elem_of_nil in Hk];
      repeat split; try discriminate; apply not_elem_of_nil. }
  destruct (upsert_run T pid upd crt w1 Hpid) as
    (record & w2 & Hrun & Hcont & Hother & Hin & Hcreate & Hupdate).
  { by rewrite Hrows. }
  { by rewrite Hof. }
  { apply Hnot. apply list_elem_of_here. }
  assert (Hfields : ∀ k v, upd !! k = Some v → get record k = v).
  { intros k v Hk.
    destruct (of_incident pid w1 T) as [|e0 l0] eqn:El.
    - destruct (Hcreate eq_refl) as [-> _]. apply new_record_data.
      unfold crt. by apply lookup_spread_l.
    - destruct (Hupdate ltac:(done)) as (e & n & _ & _ & _ & -> & _).
      destruct (patched_fields w1 e upd) as (_ & Hp & _).
      unfold get. rewrite (Hp k v); [done| |done].
      intros ->. rewrite Hnot in Hk; [done|].
      repeat first [apply list_elem_of_here|apply list_elem_of_further]. }
  set (logdata := obj [
        ("incident_id", pid);
        ("action_type", VStr "automation_generated");
        ("actor", VStr "SYSTEM");
        ("details", VObj (obj [("assigned_team", get record "assigned_team");
                               ("confidence", get record "automation_confidence")]))]).
  exists record, (new_record w2 logdata),
         (with_table w2 "AuditLog" (rows w2 "AuditLog" ++ [new_record w2 logdata]) 2 1).
  split.
  { change (invoke "automateIncidentResponse" payload)
      with (automateIncidentResponse payload).
    unfold automateIncidentResponse.
    rewrite (bind_ok _ _ _ _ _ Hfind). unfold bind at 1. unfold lift at 1. rewrite Hi.
    rewrite (as_incident_analysis _ _ Hi). fold (analysis_for r i).
    unfold bind at 1. unfold lift at 1. rewrite Hauto.
    fold pid. fold upd. fold crt. rewrite Hrun. fold logdata.
    unfold bind. rewrite db_create_run by apply _. reflexivity. }
  split; [exact Hfields|].
  split.
  { intros Hnil. rewrite <- Hof in Hnil. destruct (Hcreate Hnil) as [Hrec Hrows2].
    rewrite rows_with_table, decide_False by done. rewrite Hrows2, Hrows.
    split; [done|]. rewrite Hrec. split.
    - apply new_record_data. unfold crt. rewrite lookup_spread_r.
      + lookup_obj. reflexivity.
      + apply Hnot. apply list_elem_of_further, list_elem_of_here.
    - unfold new_record. rewrite get_spread_r.
      + unfold get. rewrite lookup_insert_eq. simpl. by rewrite Huuids, Hdraws.
      + unfold crt. rewrite lookup_spread_r by (apply Hnot, list_elem_of_here).
        lookup_obj. reflexivity. }
  split.
  { intros Hne. rewrite <- Hof in Hne.
    destruct (Hupdate Hne) as (e & n & Hnewest & He & Hn & Hrec & Hrows2 & Hid).
    exists e, n. rewrite <- Hof, <- Hrows.
    split; [done|]. split; [done|].
    rewrite rows_with_table, decide_False by done.
    split; [done|]. split; [done|]. rewrite Hrec.
    split; apply patched_keeps; try done; apply Hnot;
      repeat first [apply list_elem_of_here|apply list_elem_of_further]. }
  split.
  { rewrite rows_with_table, decide_True by done.
    rewrite (Hother "AuditLog") by done. by rewrite Hrows. }
  split; [apply new_record_data; unfold logdata; lookup_obj; reflexivity|].
  split; [apply new_record_data; unfold logdata; lookup_obj; reflexivity|].
  split; [apply new_record_data; unfold logdata; lookup_obj; reflexivity|].
  split.
  { rewrite (new_record_data w2 logdata "details" _
               ltac:(unfold logdata; lookup_obj; reflexivity)).
    rewrite (Hfields "assigned_team" (VStr (assigned_team automation)))
      by (unfold upd, automation_object; lookup_obj; reflexivity).
    rewrite (Hfields "automation_confidence" (VNum (automation_confidence automation)))
      by (unfold upd, automation_object; lookup_obj; reflexivity).
    reflexivity. }
  intros t Ht1 Ht2. rewrite rows_with_table, decide_False by done.
  rewrite Hother by done. apply Hrows.
Qed.

Lemma automate_upsert_witness :
  let inc := obj [("id", VStr "inc_1"); ("title", VStr "Login failures");
                  ("affected_systems", strs ["Auth Service"])] in
  let old := obj [("id", VStr "auto_1"); ("incident_id", VStr "inc_1");
                  ("created_date", VStr "2023-11-14T22:13:20.000Z");
                  ("assigned_team", VStr "Unassigned")] in
  let w := world_of [("Incident", [inc]); ("IncidentAutomation", [old])] ticking_clock in
  let payload := obj [("incident_id", VStr "inc_1")] in
  let i := Incident (Some "Login failures") None None None (Some ["Auth Service"])
                    None VUndef in
  find_incident payload w = (Ok (Some inc), ensured w "Incident") ∧
  as_incident inc = Some i ∧
  is_Some (buildAutomationForIncident i (analysis_for inc i)) ∧
  is_composite (get payload "incident_id") = false ∧
  keyed (rows w "IncidentAutomation") ∧
  Forall (has_str "created_date")
         (of_incident (get payload "incident_id") w "IncidentAutomation") ∧
  ∃ saved w',
    (invoke "automateIncidentResponse" payload w).1 =
      Ok (obj [("data", VObj (obj [("automation", VObj saved)]))]) ∧
    (invoke "automateIncidentResponse" payload w).2 = w' ∧
    length (rows w' "IncidentAutomation") = 1%nat ∧
    get saved "id" = VStr "auto_1" ∧
    get saved "assigned_team" = VStr "Identity & Access" ∧
    length (rows w' "AuditLog") = 1%nat.
Proof.
  intros inc old w payload i.
  assert (Hrows : rows w "IncidentAutomation" = [old]) by reflexivity.
  assert (Hlogs : rows w "AuditLog" = []) by reflexivity.
  assert (Hof : of_incident (get payload "incident_id") w "IncidentAutomation" = [old]).
  { unfold of_incident. rewrite Hrows. reflexivity. }
  assert (H1 : find_incident payload w = (Ok (Some inc), ensured w "Incident")).
  { apply find_incident_single; [apply rows_world_of|]. vm_compute. reflexivity. }
  assert (H2 : as_incident inc = Some i) by (vm_compute; reflexivity).
  assert (H3 : ∃ a, buildAutomationForIncident i (analysis_for inc i) = Some a ∧
                    assigned_team a = "Identity & Access").
  { unfold analysis_for. change (truthy (get inc "ai_analysis")) with false. cbv iota.
    unfold buildAutomationForIncident. rewrite confidence_plus_fresh. simpl.
    eexists. split; [reflexivity|]. vm_compute. reflexivity. }
  assert (H4 : is_composite (get payload "incident_id") = false) by reflexivity.
  assert (H5 : keyed (rows w "IncidentAutomation")).
  { rewrite Hrows. split.
    - repeat constructor. by exists "auto_1".
    - simpl. apply NoDup_singleton. }
  assert (H6 : Forall (has_str "created_date")
                 (of_incident (get payload "incident_id") w "IncidentAutomation")).
  { rewrite Hof. repeat constructor. by exists "2023-11-14T22:13:20.000Z". }
  destruct H3 as (automation & H3 & Hteam).
  split; [exact H1|]. split; [exact H2|]. split; [by exists automation|].
  split; [exact H4|]. split; [exact H5|]. split; [exact H6|].
  destruct (automate_upsert payload w inc _ i automation H1 H2 H3 H4 H5 H6)
    as (saved & log & w' & Hrun & Hfields & _ & Hupdate & Hlog & _).
  exists saved, w'. rewrite Hrun. split; [reflexivity|]. split; [reflexivity|].
  destruct Hupdate as (e & n & (x & _ & _ & He) & Hn & Hrows' & Hid & _).
  { by rewrite Hof. }
  rewrite Hof in He.
  assert (e = old) as ->.
  { destruct (with_key "created_date" x [old]) as [|o l] eqn:E; [done|].
    simpl in He. injection He as <-.
    assert (o ∈ with_key "created_date" x [old]) as Hin by (rewrite E; apply list_elem_of_here).
    unfold with_key in Hin. apply list_elem_of_In, filter_In in Hin as [Hin _].
    apply list_elem_of_In, list_elem_of_singleton in Hin. done. }
  split; [by rewrite Hrows', length_insert, Hrows|].
  split; [by rewrite Hid|].
  split.
  - rewrite (Hfields "assigned_team" (VStr (assigned_team automation))).
    + by rewrite Hteam.
    + unfold automation_object. lookup_obj. reflexivity.
  - by rewrite Hlog, Hlogs.
Defined.

(** ** The post-incident review *)

Lemma db_filter_of_incident w table pid sort `{!is_table w table} :
  is_composite pid = false →
  default "-created_date" sort ≠ "" →
  Forall (has_str (sort_field (default "-created_date" sort))) (of_incident pid w table) →
  ∃ l, db_filter table [("incident_id", pid)] sort None w
         = (Ok (take 1000 l), ensured w table) ∧
       l ≡ₚ of_incident pid w table ∧
       StronglySorted (field_le (sort_field (default "-created_date" sort))
                                (sort_desc (default "-created_date" sort))) l.
Proof.
  intros Hpid Hsort Hstr.
  assert (Htot : Forall (λ x, is_Some (matchesWhere x [("incident_id", pid)]))
                        (rows w table)).
  { apply Forall_forall. intros x _. by apply matchesWhere_primitive. }
  destruct (filter_by_total _ _ Htot) as [f Hf].
  pose proof (filter_by_spec _ _ _ Hf) as [Hfeq _].
  fold (of_incident pid w table) in Hfeq. subst f.
  destruct (sortByField_strings _ _ Hsort Hstr) as (l & Hl & Hp & Hsorted & _).
  exists l. split; [|done]. rewrite db_filter_eq, Hf, Hl by apply _. reflexivity.
Qed.

Lemma review_summary_run {B} r (k : value → M B) w :
  bind (if truthy (stored_summary r) then ret (stored_summary r)
        else bind (lift (as_incident r))
                  (λ i, ret (VStr (summary (buildAnalysisFromIncident i))))) k w =
  match review_summary r with
  | Some s => k s w
  | None => (Beyond, w)
  end.
Proof.
  unfold review_summary. destruct (truthy (stored_summary r)); [reflexivity|].
  unfold bind, lift. by destruct (as_incident r).
Qed.



(** ** The record store: inherited table names, and [create] undone *)

(** X25.  A table that is missing under a name every plain object
    inherits ([constructor], [toString], [__proto__], ...) is never made:
    [ensureTable] finds the inherited value and returns it.  [list],
    [filter], [update] and [remove] then raise a type error and leave the
    store exactly as it was; [create] raises it too, but only after it
    has drawn an identifier and read the clock twice.  So any run of
    calls on that name leaves every table as it was and the name still
    missing, and draws one identifier per create. *)
Theorem inherited_table_raises w table :
  tables w !! table = None → inherited table = true →
  (∀ sort limit, db_list table sort limit w = (Throw TypeError, w)) ∧
  (∀ where_ sort limit, db_filter table where_ sort limit w = (Throw TypeError, w)) ∧
  (∀ id patch, db_update table id patch w = (Throw TypeError, w)) ∧
  (∀ id, db_remove table id w = (Throw TypeError, w)) ∧
  (∀ data, db_create table data w = (Throw TypeError, advanced w 2 1)) ∧
  (∀ ops, Forall (λ o, op_table o = table) ops →
          tables (run_ops ops w) = tables w ∧
          ticks (run_ops ops w) = (2 * creates ops + ticks w)%nat ∧
          draws (run_ops ops w) = (creates ops + draws w)%nat).
Proof.
  intros Hnone Hinh.
  assert (Hsh : ∀ w', tables w' = tables w → ¬ is_table w' table).
  { intros w' Hw'. apply not_is_table. by rewrite Hw'. }
  split; [intros; by apply db_list_shadowed, Hsh|].
  split; [intros; by apply db_filter_shadowed, Hsh|].
  split; [intros; by apply db_update_shadowed, Hsh|].
  split; [intros; by apply db_remove_shadowed, Hsh|].
  split; [intros; by apply db_create_shadowed, Hsh|].
  intros ops Hops.
  assert (Hgen : ∀ w', tables w' = tables w →
            tables (run_ops ops w') = tables w ∧
            ticks (run_ops ops w') = (2 * creates ops + ticks w')%nat ∧
            draws (run_ops ops w') = (creates ops + draws w')%nat).
  { induction Hops as [|o ops Ho Hops IH]; intros w' Hw'; [done|].
    pose proof (Hsh w' Hw') as Hn.
    change (run_ops (o :: ops) w') with (run_ops ops (run_op o w')).
    destruct o as [t data|t id patch|t id]; simpl in Ho; subst t; simpl run_op.
    - rewrite (db_create_shadowed _ _ _ Hn). simpl.
      destruct (IH (advanced w' 2 1) Hw') as (H1 & H2 & H3).
      rewrite H1, H2, H3. unfold creates. simpl. split; [done|]. split; lia.
    - rewrite (db_update_shadowed _ _ _ _ Hn). simpl. by apply IH.
    - rewrite (db_remove_shadowed _ _ _ Hn). simpl. by apply IH. }
  by apply Hgen.
Qed.

Lemma inherited_table_raises_witness :
  let w := world_of [("Incident", [obj [("id", VStr "inc_001")]])] ticking_clock in
  let ops := [Create "constructor" (obj [("title", VStr "DB outage")]);
              Remove "constructor" (VStr "uuid-")] in
  tables w !! "constructor" = None ∧ inherited "constructor" = true ∧
  (db_create "constructor" (obj [("title", VStr "DB outage")]) w).1 = Throw TypeError ∧
  (db_list "constructor" None None w).1 = Throw TypeError ∧
  rows (run_ops ops w) "constructor" = [] ∧ draws (run_ops ops w) = 1%nat.
Proof.
  intros w ops.
  assert (H1 : tables w !! "constructor" = None) by reflexivity.
  assert (H2 : inherited "constructor" = true) by reflexivity.
  split; [exact H1|]. split; [exact H2|].
  destruct (inherited_table_raises w "constructor" H1 H2)
    as (Hlist & _ & _ & _ & Hcreate & Hrun).
  split; [by rewrite Hcreate|]. split; [by rewrite Hlist|].
  destruct (Hrun ops) as (Ht & _ & Hd).
  { repeat constructor. }
  split; [unfold rows; by rewrite Ht, H1|]. rewrite Hd. reflexivity.
Defined.

(** X26.  [create] and then [remove] of the record created, on a table
    that is there or whose name is none that a plain object inherits.
    When no row of the table carries the identifier about to be drawn and
    [data] does not set an [id] of its own, removing the created record
    by its [id] gives back the table as it was before the create, and
    changes no other table. *)
Theorem db_create_then_remove w table data :
  is_table w table →
  data !! "id" = None →
  Forall (λ r, has_id (VStr (uuids w (draws w))) r = Some false) (rows w table) →
  ∃ created w1 w2,
    db_create table data w = (Ok created, w1) ∧
    db_remove table (get created "id") w1 = (Ok {["ok" := VBool true]}, w2) ∧
    created ∈ rows w1 table ∧
    rows w2 table = rows w table ∧
    (∀ t, t ≠ table → rows w2 t = rows w t).
Proof.
  intros Htable Hid Hfresh.
  set (created := new_record w data).
  set (w1 := with_table w table (rows w table ++ [created]) 2 1).
  assert (Hcid : get created "id" = VStr (uuids w (draws w))).
  { unfold created, new_record. rewrite get_spread_r by done.
    unfold get. by rewrite lookup_insert_eq. }
  assert (Hrows1 : rows w1 table = rows w table ++ [created]).
  { unfold w1. by rewrite rows_with_table, decide_True. }
  exists created, w1,
    (with_table w1 table (delete (length (rows w table)) (rows w1 table)) 0 0).
  split; [eapply (db_create_run _ _ _)|]. split.
  { rewrite Hcid. apply (db_remove_found w1 table _ (length (rows w table)) created).
    - rewrite Hrows1. by apply list_lookup_middle.
    - unfold has_id. rewrite Hcid. simpl. by rewrite String.eqb_refl.
    - intros j r Hj Hr. rewrite Hrows1, lookup_app_l in Hr by done.
      rewrite Forall_forall in Hfresh. apply Hfresh. by eapply list_elem_of_lookup_2. }
  split; [rewrite Hrows1; apply elem_of_app; right; apply list_elem_of_here|].
  split.
  - rewrite rows_with_table, decide_True by done. rewrite Hrows1.
    rewrite delete_middle. by rewrite app_nil_r.
  - intros t Ht. rewrite rows_with_table, decide_False by done.
    unfold w1. by rewrite rows_with_table, decide_False.
Qed.

Lemma db_create_then_remove_witness :
  let old := obj [("id", VStr "dec_1"); ("decision", VStr "approved")] in
  let w := world_of [("Decision", [old])] ticking_clock in
  let data := obj [("decision", VStr "rejected")] in
  is_table w "Decision" ∧
  data !! "id" = None ∧
  Forall (λ r, has_id (VStr (uuids w (draws w))) r = Some false) (rows w "Decision") ∧
  ∃ created w1 w2,
    db_create "Decision" data w = (Ok created, w1) ∧
    db_remove "Decision" (get created "id") w1 = (Ok {["ok" := VBool true]}, w2) ∧
    rows w2 "Decision" = [old].
Proof.
  intros old w data.
  assert (H0 : is_table w "Decision") by reflexivity.
  assert (H1 : data !! "id" = None) by reflexivity.
  assert (H2 : Forall (λ r, has_id (VStr (uuids w (draws w))) r = Some false)
                      (rows w "Decision")).
  { unfold w. rewrite rows_world_of. repeat constructor. }
  split; [exact H0|]. split; [exact H1|]. split; [exact H2|].
  destruct (db_create_then_remove w "Decision" data H0 H1 H2)
    as (created & w1 & w2 & Hc & Hr & _ & Hrows & _).
  exists created, w1, w2. split; [exact Hc|]. split; [exact Hr|].
  rewrite Hrows. unfold w. by rewrite rows_world_of.
Defined.

#[local] Close Scope float_scope.

(** ** ISO dates in the store *)

(** X27.  The comparator of [sortByField] on two ISO dates is the comparison of
    the times they print, turned round for a descending sort: dates
    stored as ISO strings sort as times. *)
Theorem compareField_chronological field desc r1 r2 a b :
  0 <= a <= last_ms → 0 <= b <= last_ms →
  get r1 field = VStr (toISOString a) →
  get r2 field = VStr (toISOString b) →
  compareField field desc r1 r2 = Some (if desc then b ?= a else a ?= b) ∧
  (String.ltb (toISOString a) (toISOString b) = true ↔ a < b) ∧
  (toISOString a = toISOString b ↔ a = b).
Proof.
  intros Ha Hb H1 H2.
  pose proof (toISOString_order a b Ha Hb) as Hab.
  pose proof (toISOString_order b a Hb Ha) as Hba.
  assert (Heq : toISOString a = toISOString b ↔ a = b).
  { split; [|by intros ->]. intros E. rewrite E in Hab.
    assert (String.compare (toISOString b) (toISOString b) = Eq) as Hr.
    { rewrite toISOString_order by done. apply Z.compare_refl. }
    rewrite Hr in Hab. symmetry in Hab. by apply Z.compare_eq in Hab. }
  split; [|split; [|done]].
  - rewrite (compareField_str _ _ _ _ _ _ H1 H2).
    destruct (String.eqb_spec (toISOString a) (toISOString b)) as [E|N].
    + apply Heq in E as ->. rewrite Z.compare_refl. by destruct desc.
    + unfold String.ltb. rewrite Hba.
      assert (a ≠ b) by (intros ->; by apply N).
      rewrite (Z.compare_antisym b a).
      destruct (Z.compare_spec b a); try lia; by destruct desc.
  - unfold String.ltb. rewrite Hab. destruct (Z.compare_spec a b); split; try done; lia.
Qed.

Lemma compareField_chronological_witness :
  let r1 := obj [("created_date", VStr "2023-11-14T22:13:20.000Z")] in
  let r2 := obj [("created_date", VStr "2024-02-29T00:00:00.001Z")] in
  0 <= 1700000000000 <= last_ms ∧ 0 <= 1709164800001 <= last_ms ∧
  get r1 "created_date" = VStr (toISOString 1700000000000) ∧
  get r2 "created_date" = VStr (toISOString 1709164800001) ∧
  compareField "created_date" true r1 r2 = Some Gt.
Proof.
  intros r1 r2.
  assert (H1 : 0 <= 1700000000000 <= last_ms) by (unfold last_ms; lia).
  assert (H2 : 0 <= 1709164800001 <= last_ms) by (unfold last_ms; lia).
  assert (H3 : get r1 "created_date" = VStr (toISOString 1700000000000))
    by (vm_compute; reflexivity).
  assert (H4 : get r2 "created_date" = VStr (toISOString 1709164800001))
    by (vm_compute; reflexivity).
  split; [exact H1|]. split; [exact H2|]. split; [exact H3|]. split; [exact H4|].
  exact (proj1 (compareField_chronological "created_date" true r1 r2 _ _ H1 H2 H3 H4)).
Defined.

(** *** Rows in the order of their creation *)

Lemma StronglySorted_delete {A} (R : A → A → Prop) l i :
  StronglySorted R l → StronglySorted R (delete i l).
Proof.
  intros H. revert i. induction H as [|x l Hs IH Hx]; intros [|i]; simpl;
    try done; try constructor; [apply IH|by apply Forall_delete].
Qed.

Lemma StronglySorted_snoc {A} (R : A → A → Prop) l x :
  StronglySorted R l → Forall (λ y, R y x) l → StronglySorted R (l ++ [x]).
Proof.
  induction 1 as [|y l Hs IH Hy]; intros Hx; simpl; [repeat constructor|].
  apply Forall_cons in Hx as [Hyx Hx]. constructor; [by apply IH|].
  apply Forall_app. split; [done|by repeat constructor].
Qed.

Lemma in_creation_order_continues w w' rs :
  continues w w' → in_creation_order w rs → in_creation_order w' rs.
Proof.
  intros (Hc & _ & Ht & _) (cs & H2 & Hs & Hb). exists cs.
  split; [|split; [done|]].
  - eapply Forall2_impl; [exact H2|]. intros c r. unfold created_at. by rewrite Hc.
  - eapply Forall_impl; [exact Hb|]. simpl. lia.
Qed.

Lemma chronological_step o w :
  chronological w → keeps_created o → chronological (run_op o w).
Proof.
  intros Hw Hk table.
  assert (Hsame : ∀ w', (∀ t, rows w' t = rows w t) → continues w w' →
                        in_creation_order w' (rows w' table)).
  { intros w' Hrows Hc. rewrite Hrows.
    eapply in_creation_order_continues; [exact Hc|apply Hw]. }
  assert (Hstore : ∀ w', same_store w w' → in_creation_order w' (rows w' table)).
  { intros w' Hs'. apply Hsame; [apply Hs'|by apply continues_same_store]. }
  assert (Hother : ∀ t rs n d, t ≠ table →
            in_creation_order (with_table w t rs n d) (rows (with_table w t rs n d) table)).
  { intros t rs n d Hne. rewrite rows_with_table, decide_False by done.
    eapply in_creation_order_continues; [apply continues_with_table|apply Hw]. }
  destruct (Hw table) as (cs & H2 & Hs & Hb).
  destruct o as [t data|t id patch|t id]; simpl;
    (destruct (decide (is_table w t)) as [Ht|Ht];
     [|first [rewrite (db_create_shadowed _ _ _ Ht)
             |rewrite (db_update_shadowed _ _ _ _ Ht)
             |rewrite (db_remove_shadowed _ _ _ Ht)];
       simpl; apply Hsame; [done|first [apply continues_advanced|apply continues_refl]]]).
  - rewrite db_create_run by apply _. simpl.
    destruct (decide (t = table)) as [->|Hne]; [|by apply Hother].
    rewrite rows_with_table, decide_True by done.
    simpl in Hk.
    exists (cs ++ [ticks w]). split; [|split].
    + apply Forall2_app; [done|]. constructor; [|constructor].
      unfold created_at. simpl. by apply new_record_created.
    + by apply StronglySorted_snoc.
    + apply Forall_app. split.
      * eapply Forall_impl; [exact Hb|]. simpl. lia.
      * constructor; [simpl; lia|constructor].
  - destruct (findIndex (λ r, strict_eq (get r "id") id) (rows w t)) as [[i|]|] eqn:Hf.
    + apply findIndex_some in Hf as (old & Hi & Hold & Hbefore).
      rewrite (db_update_found w t id patch i old Hi Hold Hbefore). simpl.
      destruct (decide (t = table)) as [->|Hne]; [|by apply Hother].
      rewrite rows_with_table, decide_True by done.
      destruct (Forall2_lookup_r _ _ _ _ _ H2 Hi) as (c & Hc & Hcr).
      exists cs. split; [|split; [done|]].
      * rewrite <- (list_insert_id cs i c Hc). apply Forall2_insert; [done|].
        unfold created_at in *. simpl. rewrite <- Hcr.
        simpl in Hk. by apply patched_keeps.
      * eapply Forall_impl; [exact Hb|]. simpl. lia.
    + apply findIndex_none in Hf.
      destruct (db_update_missing w t id patch Hf) as (w' & -> & Hs'). by apply Hstore.
    + apply Hstore. unfold db_update, bind. rewrite ensureTable_eq by apply _.
      unfold lift, array, ret. rewrite Hf. apply ensured_same_store.
  - destruct (findIndex (λ r, strict_eq (get r "id") id) (rows w t)) as [[i|]|] eqn:Hf.
    + apply findIndex_some in Hf as (old & Hi & Hold & Hbefore).
      rewrite (db_remove_found w t id i old Hi Hold Hbefore). simpl.
      destruct (decide (t = table)) as [->|Hne]; [|by apply Hother].
      rewrite rows_with_table, decide_True by done.
      exists (delete i cs). split; [|split].
      * by apply Forall2_delete.
      * by apply StronglySorted_delete.
      * by apply Forall_delete.
    + apply findIndex_none in Hf. rewrite (db_remove_missing w t id Hf).
      apply Hstore, ensured_same_store.
    + apply Hstore. unfold db_remove, bind. rewrite ensureTable_eq by apply _.
      unfold lift, array, ret. rewrite Hf. apply ensured_same_store.
Qed.

Lemma run_op_clock o w : clock (run_op o w) = clock w.
Proof.
  destruct (run_op_world o w) as [Hs|[(rs & t & d & ->)| ->]]; [apply Hs|done..].
Qed.

Lemma chronological_run ops w :
  chronological w → Forall keeps_created ops →
  chronological (run_ops ops w) ∧ clock (run_ops ops w) = clock w.
Proof.
  revert w. induction ops as [|o ops IH]; intros w Hw Hk; simpl; [done|].
  apply Forall_cons in Hk as [Ho Hk].
  destruct (IH (run_op o w) (chronological_step o w Hw Ho) Hk) as [H1 H2].
  split; [done|]. by rewrite H2, run_op_clock.
Qed.

Lemma in_creation_order_field_le w rs :
  steady_clock w → in_creation_order w rs →
  Forall (has_str "created_date") rs ∧
  StronglySorted (field_le "created_date" false) rs.
Proof.
  intros [Hrange Hsteady] (cs & H2 & Hs & Hb).
  revert Hs Hb. induction H2 as [|c r cs rs Hcr H2 IH]; intros Hs Hb;
    [split; constructor|].
  apply StronglySorted_inv in Hs as [Hs Hc].
  apply Forall_cons in Hb as [Hcb Hb]. destruct (IH Hs Hb) as [IH1 IH2].
  split; [constructor; [by eexists|done]|]. constructor; [done|].
  apply Forall_forall. intros r' Hr'.
  apply list_elem_of_lookup in Hr' as [k Hk].
  destruct (Forall2_lookup_r _ _ _ _ _ H2 Hk) as (c' & Hc' & Hcr').
  rewrite Forall_forall in Hc, Hb.
  assert (c' ∈ cs) as Hin by (by eapply list_elem_of_lookup_2).
  pose proof (Hc c' Hin). pose proof (Hb c' Hin).
  exists (toISOString (clock w c)), (toISOString (clock w c')).
  split; [done|]. split; [done|].
  assert (clock w c <= clock w c') as Hle by (apply Hsteady; lia).
  apply str_leb_iff.
  destruct (Z.eq_dec (clock w c) (clock w c')) as [->|Hne]; [by left|right].
  apply str_ltb_iff. unfold String.ltb.
  rewrite toISOString_order by (by apply Hrange).
  assert (clock w c < clock w c') as Hlt by lia.
  by rewrite (proj2 (Z.compare_lt_iff _ _) Hlt).
Qed.

Lemma field_le_distinct_lt field rs :
  StronglySorted (field_le field false) rs →
  NoDup ((λ r, get r field) <$> rs) →
  StronglySorted (field_lt field) rs.
Proof.
  induction 1 as [|a rs Hs IH Ha]; intros Hn; [constructor|].
  simpl in Hn. apply NoDup_cons in Hn as [Hnotin Hn].
  constructor; [by apply IH|].
  rewrite Forall_forall in Ha. apply Forall_forall. intros b Hb.
  destruct (Ha b Hb) as (x & y & Hx & Hy & Hle).
  exists x, y. split; [done|]. split; [done|].
  apply str_leb_iff in Hle as [->|Hlt]; [|by apply str_ltb_iff].
  exfalso. apply Hnotin. apply list_elem_of_fmap. exists b. split; [congruence|done].
Qed.

(** X28.  Newest first.  Take a store that create, update and remove
    calls have built from a store in creation order (an empty one, say),
    the calls leaving [created_date] to the store and the clock not
    running backwards over the readings made, within the years 1970 to
    9999; two readings may show the same millisecond.  Take a table that
    is there, or whose name is none that a plain object inherits, and a
    limit that admits all its rows.  Then the rows of the table stand in
    the order of their creation with dates that do not decrease, whatever
    updates and removals came in between, and [list] with the default
    sort returns them latest date first, rows of one millisecond in
    creation order.  When no two rows of the table were created in the
    same millisecond, that is the reverse of the order of creation. *)
Theorem run_ops_newest_first w ops table limit :
  let w' := run_ops ops w in
  chronological w → steady_clock w' → Forall keeps_created ops →
  is_table w' table →
  (Z.of_nat (length (rows w' table)) <= default 100 limit) →
  StronglySorted (field_le "created_date" false) (rows w' table) ∧
  (∃ l, (db_list table None limit w').1 = Ok l ∧
        l ≡ₚ rows w' table ∧
        StronglySorted (field_le "created_date" true) l ∧
        ∀ k, with_key "created_date" k l = with_key "created_date" k (rows w' table)) ∧
  (NoDup ((λ r, get r "created_date") <$> rows w' table) →
   (db_list table None limit w').1 = Ok (rev (rows w' table))).
Proof.
  intros w' Hw Hclock Hk Htable Hlimit.
  destruct (chronological_run ops w Hw Hk) as [Hw' Hc]. fold w' in Hw', Hc.
  destruct (in_creation_order_field_le _ _ Hclock (Hw' table)) as [Hstr Hsorted].
  split; [done|]. split.
  - destruct (sortByField_strings (rows w' table) "-created_date" ltac:(done) Hstr)
      as (l & Hl & Hp & Hs & Hstable).
    exists l. split; [|done].
    rewrite db_list_eq by apply _. simpl. rewrite Hl.
    rewrite slice0_all; [done|]. by rewrite Hp.
  - intros Hdistinct.
    pose proof (field_le_distinct_lt _ _ Hsorted Hdistinct) as Hinc.
    rewrite db_list_eq by apply _. simpl.
    change (sortByField (rows w' table) "-created_date")
      with (array_sort (compareField "created_date" true) (rows w' table)).
    rewrite (array_sort_increasing_desc _ _ Hinc).
    rewrite slice0_all; [done|]. by rewrite length_rev.
Qed.

Lemma chronological_empty clk : chronological (world_of [] clk).
Proof. intros table. exists []. repeat split; constructor. Qed.

Lemma run_ops_newest_first_witness :
  let w := world_of [] (λ n, 1700000000000 + Z.of_nat (n / 2)) in
  let ops := [Create "Incident" (obj [("title", VStr "first")]);
              Create "Incident" (obj [("title", VStr "second")]);
              Update "Incident" (VStr "uuid-") (obj [("status", VStr "resolved")]);
              Create "Incident" (obj [("title", VStr "third")]);
              Remove "Incident" (VStr "uuid-I")] in
  chronological w ∧ steady_clock (run_ops ops w) ∧ Forall keeps_created ops ∧
  is_table (run_ops ops w) "Incident" ∧
  (Z.of_nat (length (rows (run_ops ops w) "Incident")) <= default 100 None) ∧
  (λ r, get r "title") <$> default [] (match (db_list "Incident" None None (run_ops ops w)).1
                                       with Ok l => Some l | _ => None end)
    = [VStr "third"; VStr "first"].
Proof.
  intros w ops.
  assert (H1 : chronological w) by apply chronological_empty.
  assert (H3 : Forall keeps_created ops) by (repeat constructor; vm_compute; reflexivity).
  assert (Hticks : ticks (run_ops ops w) = 7%nat) by (vm_compute; reflexivity).
  assert (H2 : steady_clock (run_ops ops w)).
  { unfold steady_clock. rewrite Hticks, (proj2 (chronological_run ops w H1 H3)).
    change (clock w) with (λ n : nat, 1700000000000 + Z.of_nat (n / 2)).
    unfold last_ms. cbv beta.
    split; [intros i Hi|intros i j Hij].
    - assert (i / 2 <= 3)%nat by (apply Nat.Div0.div_le_upper_bound; lia). lia.
    - assert (i / 2 <= j / 2)%nat by (apply Nat.Div0.div_le_mono; lia). lia. }
  assert (H0 : is_table (run_ops ops w) "Incident") by reflexivity.
  assert (Hlen : length (rows (run_ops ops w) "Incident") = 2%nat) by (vm_compute; reflexivity).
  assert (H4 : Z.of_nat (length (rows (run_ops ops w) "Incident")) <= default 100 None)
    by (rewrite Hlen; simpl; lia).
  split; [exact H1|]. split; [exact H2|]. split; [exact H3|]. split; [exact H0|].
  split; [exact H4|].
  destruct (run_ops_newest_first w ops "Incident" None H1 H2 H3 H0 H4) as (_ & _ & Hrev).
  rewrite Hrev.
  - vm_compute. reflexivity.
  - assert (Hdates : (λ r, get r "created_date") <$> rows (run_ops ops w) "Incident"
                     = [VStr "2023-11-14T22:13:20.000Z"; VStr "2023-11-14T22:13:20.002Z"])
      by (vm_compute; reflexivity).
    rewrite Hdates. apply NoDup_cons. split; [|apply NoDup_singleton].
    rewrite list_elem_of_singleton. discriminate.
Defined.

#[local] Open Scope float_scope.

(** ** The meta store and the local identity *)

Import Meta.

Lemma loadMeta_object s o :
  meta_object s = Some o →
  ∃ s1, loadMeta s = (Ok (VObj o), s1) ∧
        memory_meta s1 = VObj o ∧ local s1 = local s ∧ reloads s1 = reloads s ∧
        loadMeta s1 = (Ok (VObj o), s1).
Proof.
  unfold meta_object, loadMeta. destruct s as [m l n]. simpl.
  destruct (truthy m) eqn:Hm.
  - simpl. destruct m; try done. intros [= ->].
    eexists. split; [reflexivity|]. by simpl.
  - unfold loadJson. simpl.
    destruct l as [| |[v|]|v]; simpl; try done;
      try (intros [= <-]; eexists; split; [reflexivity|]; by simpl).
    destruct v; try done. intros [= ->].
    eexists. split; [reflexivity|]. by simpl.
Qed.

Lemma getMeta_loaded s o k :
  memory_meta s = VObj o →
  getMeta k s =
  (match o !! k with
   | Some v => Ok v
   | None => if inherited k then Beyond else Ok VUndef
   end, s).
Proof.
  intros Hm. unfold getMeta, mm_bind, loadMeta. rewrite Hm. simpl.
  destruct (o !! k); [done|]. by destruct (inherited k).
Qed.

Lemma getMeta_object s o k :
  meta_object s = Some o →
  (getMeta k s).1 =
  match o !! k with
  | Some v => Ok v
  | None => if inherited k then Beyond else Ok VUndef
  end.
Proof.
  intros Ho. destruct (loadMeta_object s o Ho) as (s1 & Hl & _).
  unfold getMeta, mm_bind. rewrite Hl.
  destruct (o !! k); [done|]. by destruct (inherited k).
Qed.

Lemma setMeta_object s o k v :
  meta_object s = Some o → k ≠ "__proto__" →
  setMeta k v s =
  (Ok tt, State (VObj (<[k := v]> o))
                (if hasLocalStorage s then Written (VObj (<[k := v]> o)) else local s)
                (reloads s)).
Proof.
  intros Ho Hk. destruct (loadMeta_object s o Ho) as (s1 & Hl & Hm & Hloc & Hre & _).
  unfold setMeta, mm_bind. rewrite Hl.
  destruct (String.eqb_spec k "__proto__") as [|_]; [done|].
  unfold saveMeta, saveJson, hasLocalStorage. simpl. rewrite Hloc, Hre.
  by destruct (local s).
Qed.

(** X19.  [setMeta] then [getMeta].  Once the meta object is there, setting a
    key (other than [__proto__]) succeeds, the key then reads as the value
    set, every other key reads as before, and the object set is what is
    written to [localStorage], when there is one. *)
Theorem setMeta_getMeta s o k v :
  meta_object s = Some o → k ≠ "__proto__" →
  ∃ s', setMeta k v s = (Ok tt, s') ∧
        meta_object s' = Some (<[k := v]> o) ∧
        getMeta k s' = (Ok v, s') ∧
        (∀ k', k' ≠ k → (getMeta k' s').1 = (getMeta k' s).1) ∧
        (hasLocalStorage s = true → local s' = Written (VObj (<[k := v]> o))) ∧
        (hasLocalStorage s = false → local s' = local s) ∧
        reloads s' = reloads s.
Proof.
  intros Ho Hk. eexists. split; [by apply setMeta_object|].
  split; [reflexivity|]. split.
  { rewrite (getMeta_loaded _ (<[k := v]> o)) by reflexivity.
    by rewrite lookup_insert_eq. }
  split.
  { intros k' Hk'. rewrite (getMeta_loaded _ (<[k := v]> o)) by reflexivity.
    rewrite (getMeta_object s o) by done. simpl. by rewrite lookup_insert_ne. }
  simpl. split; [by intros ->|]. split; [by intros ->|done].
Qed.

Lemma setMeta_getMeta_witness :
  let s := State VNull (Item None) 0 in
  meta_object s = Some (list_to_map [("seeded", VBool false); ("currentUser", VNull)]) ∧
  "seeded" ≠ "__proto__" ∧
  ∃ s', setMeta "seeded" (VBool true) s = (Ok tt, s') ∧
        getMeta "seeded" s' = (Ok (VBool true), s') ∧
        (getMeta "currentUser" s').1 = Ok VNull.
Proof.
  intros s.
  assert (H1 : meta_object s =
               Some (list_to_map [("seeded", VBool false); ("currentUser", VNull)]))
    by reflexivity.
  assert (H2 : "seeded" ≠ "__proto__") by discriminate.
  split; [exact H1|]. split; [exact H2|].
  destruct (setMeta_getMeta s _ "seeded" (VBool true) H1 H2)
    as (s' & Hset & _ & Hget & Hother & _).
  exists s'. split; [exact Hset|]. split; [exact Hget|].
  rewrite (Hother "currentUser") by discriminate. reflexivity.
Defined.

(** X20.  [auth.me()].  Once the meta object is there, [me] answers with the
    saved user when that is truthy and with the demo user otherwise, which
    it then saves; what it answers is never falsy, and a second call
    answers the same and changes nothing.  It asks for no reload. *)
Theorem me_spec s o :
  meta_object s = Some o →
  ∃ u s', me s = (Ok u, s') ∧
          truthy u = true ∧
          u = (if truthy (get o "currentUser") then get o "currentUser" else demo_user) ∧
          (getMeta "currentUser" s').1 = Ok u ∧
          me s' = (Ok u, s') ∧
          reloads s' = reloads s.
Proof.
  intros Ho. destruct (loadMeta_object s o Ho) as (s1 & Hl & Hm & Hloc & Hre & Hl1).
  assert (Hget : getMeta "currentUser" s = (Ok (get o "currentUser"), s1)).
  { unfold getMeta, mm_bind. rewrite Hl. unfold get. by destruct (o !! "currentUser"). }
  assert (Hget1 : getMeta "currentUser" s1 = (Ok (get o "currentUser"), s1)).
  { rewrite (getMeta_loaded s1 o) by done. unfold get. by destruct (o !! "currentUser"). }
  unfold me at 1. unfold mm_bind at 1. rewrite Hget.
  destruct (truthy (get o "currentUser")) eqn:Ht.
  - exists (get o "currentUser"), s1. split; [done|]. split; [done|]. split; [done|].
    split; [by rewrite Hget1|]. split; [|done].
    unfold me, mm_bind. by rewrite Hget1, Ht.
  - assert (Ho1 : meta_object s1 = Some o) by (unfold meta_object; by rewrite Hl1).
    unfold mm_bind. rewrite (setMeta_object s1 o) by done.
    eexists demo_user, _. split; [reflexivity|]. split; [reflexivity|].
    split; [reflexivity|].
    assert (Hg : ∀ l n, getMeta "currentUser"
                          (State (VObj (<["currentUser" := demo_user]> o)) l n)
                        = (Ok demo_user,
                           State (VObj (<["currentUser" := demo_user]> o)) l n)).
    { intros l n. rewrite (getMeta_loaded _ (<["currentUser" := demo_user]> o))
        by reflexivity. by rewrite lookup_insert_eq. }
    split; [by rewrite Hg|]. split; [|done].
    unfold me, mm_bind. by rewrite Hg.
Qed.

Lemma me_spec_witness :
  let s := State VNull NoWindow 0 in
  meta_object s = Some (list_to_map [("seeded", VBool false); ("currentUser", VNull)]) ∧
  ∃ s', me s = (Ok demo_user, s') ∧ me s' = (Ok demo_user, s').
Proof.
  intros s.
  assert (H1 : meta_object s =
               Some (list_to_map [("seeded", VBool false); ("currentUser", VNull)]))
    by reflexivity.
  split; [exact H1|].
  destruct (me_spec s _ H1) as (u & s' & Hme & _ & Hu & _ & Hagain & _).
  exists s'. rewrite Hme, Hagain, Hu. split; reflexivity.
Defined.

(** X21.  [auth.logout()] and the next [auth.me()].  Logging out sets the saved
    user to [null], leaves the other keys alone, and asks for a reload of
    the page wherever there is a [window]; a [me] that follows within the
    session answers with the demo user again, whoever was logged in. *)
Theorem logout_then_me s o :
  meta_object s = Some o →
  ∃ s1 s2,
    logout s = (Ok tt, s1) ∧
    (getMeta "currentUser" s1).1 = Ok VNull ∧
    (∀ k, k ≠ "currentUser" → (getMeta k s1).1 = (getMeta k s).1) ∧
    reloads s1 = (match local s with NoWindow => reloads s | _ => S (reloads s) end) ∧
    me s1 = (Ok demo_user, s2).
Proof.
  intros Ho.
  assert (Hset := setMeta_object s o "currentUser" VNull Ho ltac:(done)).
  set (o1 := <["currentUser" := VNull]> o) in *.
  set (l1 := if hasLocalStorage s then Written (VObj o1) else local s) in *.
  set (s1 := State (VObj o1) l1 (match local s with NoWindow => reloads s
                                  | _ => S (reloads s) end)).
  assert (Hlog : logout s = (Ok tt, s1)).
  { unfold logout, mm_bind. rewrite Hset. unfold s1, l1, hasLocalStorage, reload. simpl.
    by destruct (local s). }
  assert (Ho1 : meta_object s1 = Some o1) by reflexivity.
  assert (Hme : ∃ s2, me s1 = (Ok demo_user, s2)).
  { unfold me. unfold mm_bind at 1. rewrite (getMeta_loaded s1 o1) by reflexivity.
    unfold o1 at 1. rewrite lookup_insert_eq. simpl.
    unfold mm_bind. rewrite (setMeta_object s1 o1) by done. eexists; reflexivity. }
  destruct Hme as [s2 Hme].
  exists s1, s2. split; [done|]. split.
  { rewrite (getMeta_loaded s1 o1) by reflexivity. unfold o1.
    by rewrite lookup_insert_eq. }
  split.
  { intros k Hk. rewrite (getMeta_loaded s1 o1) by reflexivity.
    rewrite (getMeta_object s o) by done. unfold o1. simpl.
    by rewrite lookup_insert_ne. }
  split; [done|]. exact Hme.
Qed.

Lemma logout_then_me_witness :
  let admin := VObj (list_to_map [("id", VStr "user_7"); ("email", VStr "admin@example.com")]) in
  let o := list_to_map [("seeded", VBool true); ("currentUser", admin)] in
  let s := State (VObj o) (Item None) 0 in
  meta_object s = Some o ∧
  (me s).1 = Ok admin ∧
  ∃ s1 s2, logout s = (Ok tt, s1) ∧ reloads s1 = 1%nat ∧ me s1 = (Ok demo_user, s2) ∧
           (getMeta "seeded" s1).1 = Ok (VBool true).
Proof.
  intros admin o s.
  assert (H1 : meta_object s = Some o) by reflexivity.
  split; [exact H1|]. split; [reflexivity|].
  destruct (logout_then_me s o H1) as (s1 & s2 & Hlog & _ & Hother & Hre & Hme).
  exists s1, s2. split; [exact Hlog|]. split; [exact Hre|]. split; [exact Hme|].
  rewrite (Hother "seeded") by discriminate. reflexivity.
Defined.

(** X22.  A meta item that holds the JSON text [null].  It parses, so the
    fallback is not used, and with [memory.meta] still [null] every
    [getMeta], [setMeta] and [me] raises a type error and leaves the state
    as it found it: the calls fail for as long as the item is there.  With
    no item, no [localStorage] or no [window], the first load installs
    [{ seeded: false, currentUser: null }] instead. *)
Theorem meta_first_load s :
  truthy (memory_meta s) = false →
  (local s = Item (Some VNull) →
   ∃ s', (∀ k, getMeta k s = (Throw TypeError, s')) ∧
         (∀ k v, setMeta k v s = (Throw TypeError, s')) ∧
         me s = (Throw TypeError, s') ∧
         truthy (memory_meta s') = false ∧ local s' = local s ∧
         (∀ k, getMeta k s' = (Throw TypeError, s'))) ∧
  (local s ∈ [NoWindow; NoLocalStorage; Item None] →
   meta_object s = Some (list_to_map [("seeded", VBool false); ("currentUser", VNull)]) ∧
   (getMeta "seeded" s).1 = Ok (VBool false)).
Proof.
  intros Hm. destruct s as [m l n]. simpl in *. split.
  - intros ->. exists (State VNull (Item (Some VNull)) n).
    assert (Hl : loadMeta (State m (Item (Some VNull)) n)
                 = (Ok VNull, State VNull (Item (Some VNull)) n)).
    { unfold loadMeta. simpl. by rewrite Hm. }
    assert (Hg : ∀ k, getMeta k (State m (Item (Some VNull)) n)
                      = (Throw TypeError, State VNull (Item (Some VNull)) n)).
    { intros k. unfold getMeta, mm_bind. by rewrite Hl. }
    split; [exact Hg|]. split.
    { intros k v. unfold setMeta, mm_bind. by rewrite Hl. }
    split; [unfold me, mm_bind; by rewrite Hg|]. split; [done|]. split; [done|].
    intros k. reflexivity.
  - intros Hl. rewrite !elem_of_cons in Hl.
    destruct Hl as [->|[->|[->|Hl]]]; [| | |by apply elem_of_nil in Hl];
      unfold meta_object, getMeta, mm_bind, loadMeta; simpl; rewrite Hm; by split.
Qed.

Lemma meta_first_load_witness :
  let s := State VNull (Item (Some VNull)) 0 in
  truthy (memory_meta s) = false ∧ local s = Item (Some VNull) ∧
  (me s).1 = Throw TypeError.
Proof.
  intros s.
  assert (H1 : truthy (memory_meta s) = false) by reflexivity.
  assert (H2 : local s = Item (Some VNull)) by reflexivity.
  split; [exact H1|]. split; [exact H2|].
  destruct (proj1 (meta_first_load s H1) H2) as (s' & _ & _ & Hme & _).
  by rewrite Hme.
Defined.

(** ** The stand-in for the language model *)

Import Llm.

Lemma skip_spaces_one_line t x : one_line t → skip_spaces (t +:+ x) = t +:+ x.
Proof. intros [H _]. destruct t as [|c t]; [done|]. simpl. by rewrite H. Qed.

Lemma line_one_line t c x :
  Forall (λ c, is_line_end c = false) (list_ascii_of_string t) →
  is_line_end c = true → line (t +:+ String c x) = t.
Proof.
  intros Ht Hc. induction t as [|a t IH]; simpl.
  - by rewrite Hc.
  - simpl in Ht. apply Forall_cons in Ht as [Ha Ht]. rewrite Ha. by rewrite IH.
Qed.

Lemma prefix_ci_stop label x c y :
  Forall (λ l, ci_eq l c = false) (list_ascii_of_string label) →
  prefix_ci label x = None → prefix_ci label (x +:+ String c y) = None.
Proof.
  revert x. induction label as [|l label IH]; intros x Hl Hx; [done|].
  simpl in Hl. apply Forall_cons in Hl as [Hlc Hl].
  destruct x as [|a x]; simpl in *.
  - by rewrite Hlc.
  - destruct (ci_eq l a); [by apply IH|done].
Qed.

Lemma exec_label_pass label t c y :
  Forall (λ l, ci_eq l c = false) (list_ascii_of_string label) →
  exec_label label t = None →
  exec_label label (t +:+ String c y) = exec_label label y.
Proof.
  intros Hl. induction t as [|a t IH]; intros Ht.
  - simpl in Ht. destruct label as [|l label]; [done|].
    simpl in Hl. apply Forall_cons in Hl as [Hlc _].
    simpl. by rewrite Hlc.
  - change (exec_label label (String a t))
      with (match prefix_ci label (String a t) with
            | Some rest => Some (line (skip_spaces rest))
            | None => exec_label label t
            end) in Ht.
    destruct (prefix_ci label (String a t)) eqn:Hp; [done|].
    change (exec_label label (String a t +:+ String c y))
      with (match prefix_ci label (String a t +:+ String c y) with
            | Some rest => Some (line (skip_spaces rest))
            | None => exec_label label (t +:+ String c y)
            end).
    rewrite (prefix_ci_stop label (String a t) c y Hl Hp). by apply IH.
Qed.

Lemma length_append_ge (a b : string) : (String.length a <= String.length (a +:+ b))%nat.
Proof. induction a; simpl; lia. Qed.

Lemma title_read t R :
  one_line t →
  exec_label "Title:"
    ("You are an expert Site Reliability Engineer analyzing an incident. " +:+ nl +:+
     "    " +:+ nl +:+ "Incident Details:" +:+ nl +:+ "- Title: " +:+ t +:+ nl +:+ R)
  = Some t.
Proof.
  intros Ht. simpl.
  change ("" +:+ t +:+ nl +:+ R) with (t +:+ String "010"%char R).
  rewrite (skip_spaces_one_line t _ Ht).
  rewrite line_one_line; [done|apply Ht|done].
Qed.

Lemma severity_read t d sv R :
  one_line sv →
  exec_label "Severity:" t = None →
  exec_label "Severity:" d = None →
  exec_label "Severity:"
    ("You are an expert Site Reliability Engineer analyzing an incident. " +:+ nl +:+
     "    " +:+ nl +:+ "Incident Details:" +:+ nl +:+ "- Title: " +:+ t +:+ nl +:+
     "- Description: " +:+ d +:+ nl +:+ "- Severity: " +:+ sv +:+ nl +:+ R)
  = Some sv.
Proof.
  intros Hsv Ht Hd. simpl.
  change ("" +:+ t +:+ nl +:+ "- Description: " +:+ d +:+ nl +:+ "- Severity: " +:+ sv +:+ nl +:+ R)
    with (t +:+ String "010"%char ("- Description: " +:+ d +:+ String "010"%char
            ("- Severity: " +:+ sv +:+ String "010"%char R))).
  rewrite exec_label_pass; [|repeat constructor|done].
  simpl.
  change ("" +:+ d +:+ String "010"%char ("- Severity: " +:+ sv +:+ String "010"%char R))
    with (d +:+ String "010"%char ("- Severity: " +:+ sv +:+ String "010"%char R)).
  rewrite exec_label_pass; [|repeat constructor|done].
  simpl.
  change ("" +:+ sv +:+ String "010"%char R) with (sv +:+ String "010"%char R).
  rewrite (skip_spaces_one_line sv _ Hsv).
  rewrite line_one_line; [done|apply Hsv|done].
Qed.

Lemma as_incident_fields r i :
  as_incident r = Some i →
  as_opt_string (get r "description") = Some (i_description i) ∧
  as_opt_string (get r "logs") = Some (i_logs i) ∧
  as_opt_string (get r "severity") = Some (i_severity i).
Proof.
  unfold as_incident. intros H.
  destruct (as_opt_string (get r "title")); simpl in H; [|done].
  destruct (as_opt_string (get r "description")); simpl in H; [|done].
  destruct (as_opt_string (get r "logs")); simpl in H; [|done].
  destruct (as_opt_string (get r "severity")); simpl in H; [|done].
  destruct (as_opt_strings (get r "affected_systems")); simpl in H; [|done].
  destruct (as_opt_string (get r "source")); simpl in H; [|done].
  by inversion H.
Qed.

Lemma one_line_nonempty t : one_line t → or_str (Some t) "x" = t ∧ t ≠ "".
Proof. intros [H _]. by destruct t. Qed.

Lemma or_str_one_line t d : one_line t → or_str (Some t) d = t.
Proof. intros [H _]. by destruct t. Qed.

(** X23.  The prompt of the incident form, read back by the stand-in for the
    language model.  For an incident whose title and severity are
    one-line texts, and whose title and description do not themselves
    contain "severity:", the stand-in recovers the title and the severity
    from the prompt.  Its description is the whole prompt, which is longer
    than 40 characters: the analysis it returns never carries the penalty
    for a short description, so for an incident with a short description
    it is more confident than the analysis the generators build from the
    incident itself. *)
Theorem prompt_reads_back r t sv d :
  get r "title" = VStr t → one_line t →
  get r "severity" = VStr sv → one_line sv →
  as_opt_string (get r "description") = Some d →
  is_Some (as_opt_string (get r "source")) →
  is_Some (as_opt_strings (get r "affected_systems")) →
  is_Some (as_opt_string (get r "logs")) →
  exec_label "Severity:" t = None →
  exec_label "Severity:" (or_str d "Not provided") = None →
  ∃ prompt,
    analysis_prompt r = Some prompt ∧
    exec_label "Title:" prompt = Some t ∧
    exec_label "Severity:" prompt = Some sv ∧
    (40 < String.length prompt)%nat ∧
    let a := InvokeLLM (Some prompt) in
    (∃ rest, summary a = t +:+ ": Preliminary assessment indicates " +:+
                         toUpperCase (toLowerCase sv) +:+ rest) ∧
    confidence_score a = clamp01 (baseConf (toLowerCase sv) - 0) ∧
    (∀ i, as_incident r = Some i →
          enough_context (desc_of i) = false →
          toLowerCase sv ∉ ["constructor"; "__proto__"] →
          (confidence_score (buildAnalysisFromIncident i) <? confidence_score a) = true).
Proof.
  intros Htitle Ht Hsev Hsv Hd [o Ho] [a Ha] [l Hl] Hnt Hnd.
  assert (Hlong : ∀ a b : string, (40 < String.length a)%nat →
                                  (40 < String.length (a +:+ b))%nat).
  { intros a0 b0 H0. eapply Nat.lt_le_trans; [exact H0|apply length_append_ge]. }
  eexists. split.
  { unfold analysis_prompt. rewrite Htitle, Hsev, Hd, Ho, Ha, Hl. reflexivity. }
  match goal with |- exec_label "Title:" ?p = _ ∧ _ =>
    assert (E1 : exec_label "Title:" p = Some t) by apply (title_read t _ Ht);
    assert (E2 : exec_label "Severity:" p = Some sv)
      by apply (severity_read t (or_str d "Not provided") sv _ Hsv Hnt Hnd);
    assert (Hlen : (40 < String.length p)%nat)
      by (apply Hlong; vm_compute; lia);
    set (prompt := p) in *
  end.
  split; [exact E1|]. split; [exact E2|]. split; [exact Hlen|].
  unfold InvokeLLM.
  assert (Hp : ∀ d0, or_str (Some prompt) d0 = prompt).
  { intros d0. unfold or_str. destruct (String.eqb_spec prompt "") as [E|]; [|done].
    rewrite E in Hlen. simpl in Hlen. lia. }
  rewrite Hp, E1, E2.
  rewrite (or_str_one_line t _ Ht), (or_str_one_line sv _ Hsv).
  assert (Hctx : enough_context prompt = true).
  { unfold enough_context. apply andb_true_iff. split.
    - destruct (String.eqb_spec prompt "") as [E|]; [|done].
      rewrite E in Hlen. simpl in Hlen. lia.
    - by apply Nat.ltb_lt. }
  assert (Hconf : confidence_score
                    (buildAnalysisFromIncident
                       (Incident (Some t) (Some prompt) None (Some sv) None
                          (Some (or_str (exec_label "Source:" prompt) "Unknown")) VUndef))
                  = clamp01 (baseConf (toLowerCase sv) - 0)).
  { unfold buildAnalysisFromIncident. cbn [confidence_score].
    unfold sev_of, desc_of. cbn [i_severity i_description].
    rewrite (or_str_one_line sv _ Hsv), Hp.
    unfold dataQualityPenalty. by rewrite Hctx. }
  split; [|split; [exact Hconf|]].
  - unfold buildAnalysisFromIncident. cbn [summary].
    unfold title_of, sev_of. cbn [i_title i_severity].
    rewrite (or_str_one_line t _ Ht), (or_str_one_line sv _ Hsv). by eexists.
  - intros i Hi Hshort Hnin. rewrite Hconf.
    destruct (as_incident_fields _ _ Hi) as (_ & _ & Hs).
    rewrite Hsev in Hs. simpl in Hs. injection Hs as Hs.
    unfold buildAnalysisFromIncident. cbn [confidence_score].
    unfold dataQualityPenalty. rewrite Hshort.
    unfold sev_of. rewrite <- Hs, (or_str_one_line sv _ Hsv).
    destruct (baseConf_cases (toLowerCase sv)) as [[Hin _]|[_ Hb]]; [done|].
    destruct Hb as [Hb|[Hb|[Hb|Hb]]]; rewrite Hb; vm_compute; reflexivity.
Qed.

Lemma prompt_reads_back_witness :
  let r := obj [("title", VStr "DB outage"); ("severity", VStr "Critical");
                ("description", VStr "Pool exhausted")] in
  get r "title" = VStr "DB outage" ∧ one_line "DB outage" ∧
  get r "severity" = VStr "Critical" ∧ one_line "Critical" ∧
  as_opt_string (get r "description") = Some (Some "Pool exhausted") ∧
  is_Some (as_opt_string (get r "source")) ∧
  is_Some (as_opt_strings (get r "affected_systems")) ∧
  is_Some (as_opt_string (get r "logs")) ∧
  exec_label "Severity:" "DB outage" = None ∧
  exec_label "Severity:" (or_str (Some "Pool exhausted") "Not provided") = None ∧
  ∃ prompt,
    analysis_prompt r = Some prompt ∧
    exec_label "Title:" prompt = Some "DB outage" ∧
    exec_label "Severity:" prompt = Some "Critical" ∧
    confidence_score (InvokeLLM (Some prompt)) = clamp01 (baseConf "critical" - 0).
Proof.
  intros r.
  assert (H1 : get r "title" = VStr "DB outage") by reflexivity.
  assert (H2 : one_line "DB outage") by (split; [reflexivity|repeat constructor]).
  assert (H3 : get r "severity" = VStr "Critical") by reflexivity.
  assert (H4 : one_line "Critical") by (split; [reflexivity|repeat constructor]).
  assert (H5 : as_opt_string (get r "description") = Some (Some "Pool exhausted"))
    by reflexivity.
  assert (H6 : is_Some (as_opt_string (get r "source"))) by (by eexists).
  assert (H7 : is_Some (as_opt_strings (get r "affected_systems"))) by (by eexists).
  assert (H8 : is_Some (as_opt_string (get r "logs"))) by (by eexists).
  assert (H9 : exec_label "Severity:" "DB outage" = None) by reflexivity.
  assert (H10 : exec_label "Severity:" (or_str (Some "Pool exhausted") "Not provided") = None)
    by reflexivity.
  repeat (split; [assumption|]).
  destruct (prompt_reads_back r _ _ _ H1 H2 H3 H4 H5 H6 H7 H8 H9 H10)
    as (prompt & Hp & Ht & Hs & _ & _ & Hc & _).
  exists prompt. split; [exact Hp|]. split; [exact Ht|]. split; [exact Hs|]. exact Hc.
Defined.

Lemma line_app_end x c R : is_line_end c = true → line (x +:+ String c R) = line x.
Proof.
  intros Hc. induction x as [|a x IH]; simpl; [by rewrite Hc|].
  destruct (is_line_end a); [done|]. by rewrite IH.
Qed.

(** X24.  The stand-in on prompts that its labels do not fit.  A prompt without
    "title:" and "severity:", in any case of letters, is analysed as the
    incident "Incident" of severity "medium", and no prompt at all as the
    empty prompt.  For an incident with an empty title the white space
    after the label of the form prompt runs on into the next line, and
    the stand-in takes the description line of the prompt, label
    included, for the title. *)
Theorem invokeLLM_edges :
  (∀ prompt,
     exec_label "Title:" (or_str prompt "") = None →
     exec_label "Severity:" (or_str prompt "") = None →
     (∃ rest, summary (InvokeLLM prompt) =
              "Incident: Preliminary assessment indicates MEDIUM" +:+ rest) ∧
     confidence_score (InvokeLLM prompt) =
       (if enough_context (or_str prompt "") then clamp01 (0.66 - 0)
        else clamp01 (0.66 - 0.08))) ∧
  InvokeLLM None = InvokeLLM (Some "") ∧
  (∀ r d,
     get r "title" = VStr "" →
     as_opt_string (get r "description") = Some d →
     is_Some (template_string (get r "severity")) →
     is_Some (as_opt_string (get r "source")) →
     is_Some (as_opt_strings (get r "affected_systems")) →
     is_Some (as_opt_string (get r "logs")) →
     ∃ prompt,
       analysis_prompt r = Some prompt ∧
       exec_label "Title:" prompt =
         Some ("- Description: " +:+ line (or_str d "Not provided"))).
Proof.
  split; [|split; [reflexivity|]].
  - intros prompt Ht Hs. unfold InvokeLLM. rewrite Ht, Hs.
    unfold buildAnalysisFromIncident. cbn [summary confidence_score].
    unfold title_of, sev_of, desc_of, dataQualityPenalty.
    cbn [i_title i_severity i_description i_logs].
    change (or_str (Some (or_str None "Incident")) "Incident") with "Incident".
    change (toLowerCase (or_str (Some (or_str None "medium")) "medium")) with "medium".
    assert (Hd : or_str (Some (or_str prompt "")) (or_str None "") = or_str prompt "").
    { destruct prompt as [p|]; [|done]. unfold or_str.
      destruct (String.eqb p "") eqn:E; [done|by rewrite E]. }
    rewrite Hd. split; [by eexists|]. by destruct (enough_context _).
  - intros r d Htitle Hd [sv Hsv] [o Ho] [a Ha] [l Hl].
    eexists. split.
    { unfold analysis_prompt. rewrite Htitle, Hd, Hsv, Ho, Ha, Hl. reflexivity. }
    simpl.
    change ("" +:+ or_str d "Not provided" +:+ nl +:+ ?R)
      with (or_str d "Not provided" +:+ String "010"%char R).
    by rewrite line_app_end.
Qed.

Lemma invokeLLM_edges_witness :
  exec_label "Title:" (or_str (Some "checkout is slow, subtitle missing") "") = None ∧
  exec_label "Severity:" (or_str (Some "checkout is slow, subtitle missing") "") = None ∧
  confidence_score (InvokeLLM (Some "checkout is slow, subtitle missing"))
    = clamp01 (0.66 - 0.08).
Proof.
  assert (H1 : exec_label "Title:" (or_str (Some "checkout is slow, subtitle missing") "")
               = None) by reflexivity.
  assert (H2 : exec_label "Severity:" (or_str (Some "checkout is slow, subtitle missing") "")
               = None) by reflexivity.
  split; [exact H1|]. split; [exact H2|].
  exact (proj2 (proj1 invokeLLM_edges _ H1 H2)).
Defined.

